(** * VoiceBI: the voice session of [src/App.tsx]

    A shallow embedding of the audio utilities ([encode], [decode],
    [decodeAudioData]), of the capture callback ([onaudioprocess]), of the
    playback scheduler inside [onmessage], of the session functions
    ([startSession], [stopSession], [toggleRecording]) and of the response
    extractor ([processResponse]), followed by the properties the
    specification states about them.

    Conventions.
    - A JavaScript string is the list of its UTF-16 code units ([js_string]).
    - A [Uint8Array] is a [list byte]; an [Int16Array] is a list of [Z] in
      the signed 16-bit range.
    - Audio samples and clock readings are rationals.  Every finite
      [Float32] sample is a dyadic rational, the product [x * 32768] and the
      quotient [v / 32768.0] of the source are exact in IEEE double
      arithmetic for such values, so the codec is modelled without rounding.
      Clock values are only compared and added.  The source adds them as
      IEEE doubles, which round; the model adds rationals.  The statements
      about the clock therefore speak of order, and of a value being the
      very sum [c + d] the scheduler formed; none regroups a sum of several
      durations.
    - Platform functions ([atob], [btoa], [JSON.parse], [String.match],
      the Web Audio nodes) are modelled after their standards; they are kept
      apart from the functions translated from the source. *)

From Stdlib Require Import ZArith NArith QArith Qabs List String Ascii Lia Lqa Bool.
From Stdlib.Strings Require Import Byte.
From stdpp Require Import base gmap sets list strings pretty.

Close Scope Q_scope.
Local Open Scope N_scope.

(** ** JavaScript values shared by all components *)

(** A string is a sequence of UTF-16 code units. *)
Abbreviation js_string := (list N).

(** The code units of a literal written in the 8-bit alphabet of Rocq. *)
Definition lit (s : string) : js_string :=
  map N_of_ascii (list_ascii_of_string s).

(** The exceptions the modelled platform calls can throw. *)
Inductive exn :=
| InvalidCharacterError
| RangeError
| NotSupportedError
| InvalidStateError
| SyntaxError.

(** Completion of a call: a value or a thrown exception. *)
Inductive result (A : Type) :=
| Ok (a : A)
| Throw (e : exn).
Arguments Ok {A} a.
Arguments Throw {A} e.

Definition bind {A B} (r : result A) (k : A -> result B) : result B :=
  match r with
  | Ok a => k a
  | Throw e => Throw e
  end.

Notation "'let?' x := r 'in' k" := (bind r (fun x => k))
  (at level 10, x name, r at level 100, k at level 200).

(** ** Platform: [btoa] and [atob]

    [btoa] is RFC 4648 base64 with padding, defined on strings whose code
    units are below 256.  [atob] is the forgiving-base64 decoder of the
    WHATWG Infra standard. *)
Module Base64.

Definition b64_char (n : N) : N :=
  if n <? 26 then 65 + n
  else if n <? 52 then 97 + (n - 26)
  else if n <? 62 then 48 + (n - 52)
  else if n =? 62 then 43
  else 47.

Definition b64_index (c : N) : option N :=
  if (65 <=? c) && (c <=? 90) then Some (c - 65)
  else if (97 <=? c) && (c <=? 122) then Some (c - 97 + 26)
  else if (48 <=? c) && (c <=? 57) then Some (c - 48 + 52)
  else if c =? 43 then Some 62
  else if c =? 47 then Some 63
  else None.

(** U+003D, the padding character. *)
Definition pad_char : N := 61.

(** The bits of the input, six at a time; an incomplete last group is
    filled with zero bits. *)
Fixpoint sextets (b : list N) : list N :=
  match b with
  | x :: y :: z :: rest =>
      x / 4
      :: (x mod 4) * 16 + y / 16
      :: (y mod 16) * 4 + z / 64
      :: z mod 64
      :: sextets rest
  | [x; y] => [x / 4; (x mod 4) * 16 + y / 16; (y mod 16) * 4]
  | [x] => [x / 4; (x mod 4) * 16]
  | [] => []
  end.

(** The padding that completes the last group of four characters. *)
Fixpoint padding (b : list N) : js_string :=
  match b with
  | _ :: _ :: _ :: rest => padding rest
  | [_; _] => [pad_char]
  | [_] => [pad_char; pad_char]
  | [] => []
  end.

Definition encode_groups (b : list N) : js_string :=
  map b64_char (sextets b) ++ padding b.

Definition btoa (s : js_string) : result js_string :=
  if forallb (fun c => c <=? 255) s then Ok (encode_groups s)
  else Throw InvalidCharacterError.

(** TAB, LF, FF, CR and SPACE. *)
Definition is_ascii_whitespace (c : N) : bool :=
  (c =? 9) || (c =? 10) || (c =? 12) || (c =? 13) || (c =? 32).

(** Step 2 of the decoder: when the length is a multiple of four, one or
    two trailing padding characters are removed. *)
Definition strip_padding (s : js_string) : js_string :=
  if N.of_nat (length s) mod 4 =? 0 then
    match rev s with
    | c1 :: c2 :: r =>
        if c1 =? pad_char then
          if c2 =? pad_char then rev r else rev (c2 :: r)
        else s
    | _ => s
    end
  else s.

Fixpoint indices (s : js_string) : option (list N) :=
  match s with
  | [] => Some []
  | c :: r =>
      match b64_index c, indices r with
      | Some v, Some vs => Some (v :: vs)
      | _, _ => None
      end
  end.

(** Four sextets give three bytes; a final group of three gives two bytes
    (its last two bits are dropped) and one of two gives one byte (its last
    four bits are dropped). *)
Fixpoint decode_groups (v : list N) : list N :=
  match v with
  | a :: b :: c :: d :: rest =>
      (a * 4 + b / 16)
      :: ((b mod 16) * 16 + c / 4)
      :: ((c mod 4) * 64 + d)
      :: decode_groups rest
  | [a; b; c] => [a * 4 + b / 16; (b mod 16) * 16 + c / 4]
  | [a; b] => [a * 4 + b / 16]
  | _ => []
  end.

Definition atob (data : js_string) : result js_string :=
  let data := filter (fun c => is_ascii_whitespace c = false) data in
  let data := strip_padding data in
  if N.of_nat (length data) mod 4 =? 1 then Throw InvalidCharacterError
  else
    match indices data with
    | None => Throw InvalidCharacterError
    | Some v => Ok (decode_groups v)
    end.

End Base64.

(** ** Shared audio utilities of the source *)

(** Storing a number into a [Uint8Array] element keeps it modulo 256. *)
Definition to_uint8 (n : N) : byte :=
  match Byte.of_N (n mod 256) with
  | Some b => b
  | None => x00
  end.

(** [String.fromCharCode(bytes[i])]. *)
Definition fromCharCode (b : byte) : N := Byte.to_N b.

(** [decode]: [atob], then one byte per code unit of the binary string. *)
Definition decode (base64 : js_string) : result (list byte) :=
  let? binaryString := Base64.atob base64 in
  Ok (fold_left (fun bytes c => bytes ++ [to_uint8 c]) binaryString []).

(** [encode]: the binary string is built one character per byte, then
    handed to [btoa]. *)
Definition encode (bytes : list byte) : result js_string :=
  let binary :=
    fold_left (fun binary b => binary ++ [fromCharCode b]) bytes [] in
  Base64.btoa binary.

(** *** Typed arrays *)

(** [ToInt16] of a finite number: truncate towards zero, reduce modulo
    2^16, read the result as a signed 16-bit integer. *)
Definition ToInt16 (x : Q) : Z :=
  let int := Z.quot (Qnum x) (Zpos (Qden x)) in
  let int16bit := (int mod 65536)%Z in
  if (32768 <=? int16bit)%Z then (int16bit - 65536)%Z else int16bit.

(** [new Uint8Array(int16.buffer)]: the two bytes of each element, low byte
    first. *)
Definition int16_bytes (v : Z) : list byte :=
  let u := Z.to_N (v mod 65536)%Z in
  [to_uint8 (u mod 256); to_uint8 (u / 256)].

Definition Uint8Array_of_Int16Array (a : list Z) : list byte :=
  flat_map int16_bytes a.

Definition int16_of_bytes (lo hi : byte) : Z :=
  let u := Z.of_N (Byte.to_N lo + 256 * Byte.to_N hi) in
  if (32768 <=? u)%Z then (u - 65536)%Z else u.

Fixpoint int16_pairs (data : list byte) : list Z :=
  match data with
  | lo :: hi :: rest => int16_of_bytes lo hi :: int16_pairs rest
  | _ => []
  end.

(** [new Int16Array(data.buffer)] throws a [RangeError] when the byte
    length is odd. *)
Definition Int16Array_of_buffer (data : list byte) : result (list Z) :=
  if Nat.even (length data) then Ok (int16_pairs data) else Throw RangeError.

(** *** Audio buffers *)

Record AudioBuffer := {
  numberOfChannels : N;
  frames : N;
  sampleRate : positive;
  channels : list (list Q)
}.

(** [buffer.duration], in seconds. *)
Definition duration (b : AudioBuffer) : Q :=
  Qmake (Z.of_N (frames b)) (sampleRate b).

(** [ctx.createBuffer] refuses a buffer without channels or without
    frames; the new buffer is silent.  The platform call also refuses a
    sample rate or a number of channels outside the range the browser
    supports; every browser accepts the one channel at 24000 Hz that the
    source asks for, and that larger range is not modelled: the statements
    about a buffer that is returned either fix the rate and the channels at
    these values or assume that the call returned. *)
Definition createBuffer (numChannels frameCount : N) (rate : positive)
  : result AudioBuffer :=
  if (numChannels =? 0) || (frameCount =? 0) then Throw NotSupportedError
  else Ok {| numberOfChannels := numChannels;
             frames := frameCount;
             sampleRate := rate;
             channels := repeat (repeat 0%Q (N.to_nat frameCount))
                                (N.to_nat numChannels) |}.

(** The inner loop of [decodeAudioData] for one channel:
    [channelData[i] = dataInt16[i * numChannels + channel] / 32768.0].
    The index stays inside [dataInt16] for every frame of the buffer. *)
Definition fill_channel (dataInt16 : list Z) (numChannels frameCount : N)
  (channel : N) (channelData : list Q) : list Q :=
  fold_left
    (fun channelData i =>
       let v := nth (i * N.to_nat numChannels + N.to_nat channel)
                    dataInt16 0%Z in
       <[ i := (inject_Z v / 32768)%Q ]> channelData)
    (seq 0 (N.to_nat frameCount)) channelData.

(** [decodeAudioData(data, ctx, sampleRate, numChannels)]. *)
Definition decodeAudioData (data : list byte) (rate : positive)
  (numChannels : N) : result AudioBuffer :=
  let? dataInt16 := Int16Array_of_buffer data in
  let frameCount := N.of_nat (length dataInt16) / numChannels in
  let? buffer := createBuffer numChannels frameCount rate in
  Ok {| numberOfChannels := numberOfChannels buffer;
        frames := frames buffer;
        sampleRate := sampleRate buffer;
        channels :=
          imap (fun channel channelData =>
                  fill_channel dataInt16 numChannels frameCount
                               (N.of_nat channel) channelData)
               (channels buffer) |}.

(** The conversion loop of [onaudioprocess]:
    [int16[i] = inputData[i] * 32768]. *)
Definition float_to_int16 (inputData : list Q) : list Z :=
  map (fun x => ToInt16 (x * 32768)%Q) inputData.

(** The 16-bit PCM bytes of a captured frame, and the samples recovered
    from such bytes by the playback path (24 kHz, one channel). *)
Definition toPCM16 (inputData : list Q) : list byte :=
  Uint8Array_of_Int16Array (float_to_int16 inputData).

Definition fromPCM16 (data : list byte) : result (list Q) :=
  let? buffer := decodeAudioData data 24000 1 in
  Ok (nth 0 (channels buffer) []).

(** ** Platform: [JSON.parse] and [String.prototype.match] *)

#[local] Set Warnings "-register-all".
Inductive json :=
| JNull
| JBool (b : bool)
| JNum (negative : bool) (mantissa : N) (exponent : Z)
| JStr (s : js_string)
| JArr (items : list json)
| JObj (fields : list (js_string * json)).

Module JSON.

(** The number [JNum neg m e] stands for the decimal literal
    [(-1)^neg * m * 10^e] that was read (JavaScript then rounds it to a
    double); objects keep their members in source order. *)

Definition is_ws (c : N) : bool :=
  (c =? 9) || (c =? 10) || (c =? 13) || (c =? 32).

Fixpoint skip_ws (s : js_string) : js_string :=
  match s with
  | c :: r => if is_ws c then skip_ws r else s
  | [] => []
  end.

Definition is_digit (c : N) : bool := (48 <=? c) && (c <=? 57).

Definition hex_value (c : N) : option N :=
  if is_digit c then Some (c - 48)
  else if (97 <=? c) && (c <=? 102) then Some (c - 87)
  else if (65 <=? c) && (c <=? 70) then Some (c - 55)
  else None.

Definition hex4 (a b c d : N) : option N :=
  match hex_value a, hex_value b, hex_value c, hex_value d with
  | Some a, Some b, Some c, Some d => Some (((a * 16 + b) * 16 + c) * 16 + d)
  | _, _, _, _ => None
  end.

(** The character an escape letter stands for ([\u] apart). *)
Definition escape (e : N) : option N :=
  if e =? 34 then Some 34
  else if e =? 92 then Some 92
  else if e =? 47 then Some 47
  else if e =? 98 then Some 8
  else if e =? 102 then Some 12
  else if e =? 110 then Some 10
  else if e =? 114 then Some 13
  else if e =? 116 then Some 9
  else None.

(** The characters of a string literal after its opening quote, up to and
    including the closing quote. *)
Fixpoint parse_chars (s : js_string) : option (js_string * js_string) :=
  let cons c r :=
    match parse_chars r with
    | Some (cs, rest) => Some (c :: cs, rest)
    | None => None
    end in
  match s with
  | [] => None
  | c :: r =>
      if c =? 34 then Some ([], r)
      else if c =? 92 then
        match r with
        | e :: r' =>
            if e =? 117 then
              match r' with
              | h1 :: h2 :: h3 :: h4 :: r'' =>
                  match hex4 h1 h2 h3 h4 with
                  | Some u => cons u r''
                  | None => None
                  end
              | _ => None
              end
            else
              match escape e with
              | Some u => cons u r'
              | None => None
              end
        | [] => None
        end
      else if c <? 32 then None
      else cons c r
  end.

Fixpoint take_digits (s : js_string) : list N * js_string :=
  match s with
  | c :: r =>
      if is_digit c then let '(ds, rest) := take_digits r in (c :: ds, rest)
      else ([], s)
  | [] => ([], [])
  end.

Definition digits_value (ds : list N) : N :=
  fold_left (fun acc d => 10 * acc + (d - 48)) ds 0.

(** An optional sign character. *)
Definition take_sign (minus plus : bool) (s : js_string)
  : bool * js_string :=
  match s with
  | c :: r =>
      if minus && (c =? 45) then (true, r)
      else if plus && (c =? 43) then (false, r)
      else (false, s)
  | [] => (false, [])
  end.

(** [int]: a single zero, or digits that do not start with a zero. *)
Definition parse_int (s : js_string) : option (list N * js_string) :=
  match s with
  | c :: r =>
      if c =? 48 then Some ([c], r)
      else if is_digit c then Some (take_digits s)
      else None
  | [] => None
  end.

(** [frac?]: a dot followed by at least one digit, or nothing. *)
Definition parse_frac (s : js_string) : option (list N * js_string) :=
  match s with
  | c :: r =>
      if c =? 46 then
        match take_digits r with
        | ([], _) => None
        | (fds, rest) => Some (fds, rest)
        end
      else Some ([], s)
  | [] => Some ([], [])
  end.

(** [exp?]: [e] or [E], an optional sign and at least one digit, or
    nothing. *)
Definition parse_exp (s : js_string) : option (Z * js_string) :=
  match s with
  | c :: r =>
      if (c =? 101) || (c =? 69) then
        let '(eneg, r) := take_sign true true r in
        match take_digits r with
        | ([], _) => None
        | (eds, rest) =>
            let e := Z.of_N (digits_value eds) in
            Some (if eneg then (- e)%Z else e, rest)
        end
      else Some (0%Z, s)
  | [] => Some (0%Z, [])
  end.

(** [-? int frac? exp?] *)
Definition parse_number (s : js_string) : option (json * js_string) :=
  let '(neg, s) := take_sign true false s in
  match parse_int s with
  | Some (ids, s) =>
      match parse_frac s with
      | Some (fds, s) =>
          match parse_exp s with
          | Some (e, rest) =>
              Some (JNum neg (digits_value (ids ++ fds))
                         (e - Z.of_nat (length fds))%Z, rest)
          | None => None
          end
      | None => None
      end
  | None => None
  end.

(** [s] without the prefix [p], when it starts with it. *)
Fixpoint strip_prefix (p s : js_string) : option js_string :=
  match p, s with
  | [], _ => Some s
  | a :: p, b :: s => if a =? b then strip_prefix p s else None
  | _ :: _, [] => None
  end.

(** [true], [false], [null] or a number. *)
Definition parse_word (s : js_string) : option (json * js_string) :=
  match strip_prefix (lit "true") s with
  | Some rest => Some (JBool true, rest)
  | None =>
      match strip_prefix (lit "false") s with
      | Some rest => Some (JBool false, rest)
      | None =>
          match strip_prefix (lit "null") s with
          | Some rest => Some (JNull, rest)
          | None => parse_number s
          end
      end
  end.

(** Values, the elements of an array after its opening bracket and the
    members of an object after its opening brace.  Every call on the way
    down spends one unit of [fuel]. *)
Fixpoint parse_value (fuel : nat) (s : js_string)
  : option (json * js_string) :=
  match fuel with
  | O => None
  | S fuel =>
      match s with
      | [] => None
      | c :: r =>
          if c =? 123 then
            match skip_ws r with
            | [] => None
            | c' :: rest =>
                if c' =? 125 then Some (JObj [], rest)
                else
                  match parse_members fuel r with
                  | Some (ms, rest) => Some (JObj ms, rest)
                  | None => None
                  end
            end
          else if c =? 91 then
            match skip_ws r with
            | [] => None
            | c' :: rest =>
                if c' =? 93 then Some (JArr [], rest)
                else
                  match parse_elements fuel r with
                  | Some (vs, rest) => Some (JArr vs, rest)
                  | None => None
                  end
            end
          else if c =? 34 then
            match parse_chars r with
            | Some (cs, rest) => Some (JStr cs, rest)
            | None => None
            end
          else parse_word s
      end
  end
with parse_elements (fuel : nat) (s : js_string)
  : option (list json * js_string) :=
  match fuel with
  | O => None
  | S fuel =>
      match parse_value fuel (skip_ws s) with
      | Some (v, r) =>
          match skip_ws r with
          | [] => None
          | c :: r' =>
              if c =? 44 then
                match parse_elements fuel r' with
                | Some (vs, rest) => Some (v :: vs, rest)
                | None => None
                end
              else if c =? 93 then Some ([v], r')
              else None
          end
      | None => None
      end
  end
with parse_members (fuel : nat) (s : js_string)
  : option (list (js_string * json) * js_string) :=
  match fuel with
  | O => None
  | S fuel =>
      match skip_ws s with
      | [] => None
      | q :: r =>
          if q =? 34 then
            match parse_chars r with
            | Some (key, r) =>
                match skip_ws r with
                | [] => None
                | colon :: r =>
                    if colon =? 58 then
                      match parse_value fuel (skip_ws r) with
                      | Some (v, r) =>
                          match skip_ws r with
                          | [] => None
                          | c :: r' =>
                              if c =? 44 then
                                match parse_members fuel r' with
                                | Some (ms, rest) =>
                                    Some ((key, v) :: ms, rest)
                                | None => None
                                end
                              else if c =? 125 then Some ([(key, v)], r')
                              else None
                          end
                      | None => None
                      end
                    else None
                end
            | None => None
            end
          else None
      end
  end.

(** [JSON.parse(text)]: one value between optional white space, a
    [SyntaxError] otherwise.  Twice the length of the text, plus two, is
    fuel enough: see [parse_fuel_enough] below. *)
Definition parse_with (fuel : nat) (text : js_string) : result json :=
  match parse_value fuel (skip_ws text) with
  | Some (v, rest) =>
      match skip_ws rest with
      | [] => Ok v
      | _ => Throw SyntaxError
      end
  | None => Throw SyntaxError
  end.

Definition parse (text : js_string) : result json :=
  parse_with (2 * length text + 2) text.

End JSON.

(** Reading a property: the last member of that name wins, a missing
    member (or a value that is not an object) reads as [undefined],
    here [None]. *)
Fixpoint last_member (name : js_string) (fields : list (js_string * json))
  : option json :=
  match fields with
  | [] => None
  | (k, v) :: rest =>
      match last_member name rest with
      | Some v' => Some v'
      | None => if bool_decide (k = name) then Some v else None
      end
  end.

Definition get_property (v : json) (name : js_string) : option json :=
  match v with
  | JObj fields => last_member name fields
  | _ => None
  end.

(** [text.match(/\{[\s\S]*\}/)]: the class [[\s\S]] accepts every code
    unit and the star is greedy, so from a start position holding an
    opening brace the match runs to the last closing brace after it. *)
Fixpoint longest_closed_prefix (s : js_string) : option js_string :=
  match s with
  | [] => None
  | c :: r =>
      match longest_closed_prefix r with
      | Some p => Some (c :: p)
      | None => if c =? 125 then Some [c] else None
      end
  end.

Fixpoint match_json_block (text : js_string) : option js_string :=
  match text with
  | [] => None
  | c :: r =>
      if c =? 123 then
        match longest_closed_prefix r with
        | Some p => Some (c :: p)
        | None => match_json_block r
        end
      else match_json_block r
  end.

(** A literal in which every apostrophe stands for a double quote. *)
Definition quoted (s : string) : js_string :=
  map (fun c => if c =? 39 then 34 else c) (lit s).


(** ** The component state

    The React state and the references of [App], together with the platform
    objects they refer to.  Objects are identified by their position in the
    list that stores them. *)

Inductive Role := user | assistant.

Record Message := {
  role : Role;
  content : option json;
  timestamp : Z
}.

(** A connection made by [ai.live.connect]. *)
Inductive TransportState := Opening | Open | Closed | Failed.

Inductive ContextState := Running | ContextClosed.

(** An [AudioBufferSourceNode]: its buffer, the time passed to [start]
    once it was called, and whether [stop] was called. *)
Record SourceNode := {
  buffer : AudioBuffer;
  startTime : option Q;
  stopCalled : bool
}.

Record App := {
  (* React state ([useState]) *)
  isRecording : bool;
  lastResponse : option json;
  history : list Message;
  status : string;
  isLoading : bool;
  (* references ([useRef]) *)
  inputAudioContextRef : option nat;
  outputAudioContextRef : option nat;
  nextStartTimeRef : Q;
  sourcesRef : gset nat;
  sessionRef : option nat;
  scriptProcessorRef : option nat;
  (* platform objects the references point into *)
  transports : list TransportState;
  micPending : nat;
  streams : nat;
  contexts : list ContextState;
  processors : list bool;
  nodes : list SourceNode;
  sent : list (nat * js_string);
  console : list string;
  errors : list exn
}.

(** The state of a freshly mounted component (before the effect that shows
    the sample chart). *)
Definition initial : App :=
  {| isRecording := false;
     lastResponse := None;
     history := [];
     status := "Ready to analyze";
     isLoading := false;
     inputAudioContextRef := None;
     outputAudioContextRef := None;
     nextStartTimeRef := 0%Q;
     sourcesRef := ∅;
     sessionRef := None;
     scriptProcessorRef := None;
     transports := [];
     micPending := 0%nat;
     streams := 0%nat;
     contexts := [];
     processors := [];
     nodes := [];
     sent := [];
     console := [];
     errors := [] |}.

(** *** Field updates *)

Definition setIsRecording (v : bool) (st : App) : App :=
  {| isRecording := v; lastResponse := lastResponse st;
     history := history st; status := status st; isLoading := isLoading st;
     inputAudioContextRef := inputAudioContextRef st;
     outputAudioContextRef := outputAudioContextRef st;
     nextStartTimeRef := nextStartTimeRef st; sourcesRef := sourcesRef st;
     sessionRef := sessionRef st;
     scriptProcessorRef := scriptProcessorRef st;
     transports := transports st; micPending := micPending st;
     streams := streams st; contexts := contexts st;
     processors := processors st; nodes := nodes st; sent := sent st;
     console := console st; errors := errors st |}.

Definition setLastResponse (v : option json) (st : App) : App :=
  {| isRecording := isRecording st; lastResponse := v; history := history st;
     status := status st; isLoading := isLoading st;
     inputAudioContextRef := inputAudioContextRef st;
     outputAudioContextRef := outputAudioContextRef st;
     nextStartTimeRef := nextStartTimeRef st; sourcesRef := sourcesRef st;
     sessionRef := sessionRef st;
     scriptProcessorRef := scriptProcessorRef st;
     transports := transports st; micPending := micPending st;
     streams := streams st; contexts := contexts st;
     processors := processors st; nodes := nodes st; sent := sent st;
     console := console st; errors := errors st |}.

Definition setHistory (v : list Message) (st : App) : App :=
  {| isRecording := isRecording st; lastResponse := lastResponse st;
     history := v; status := status st; isLoading := isLoading st;
     inputAudioContextRef := inputAudioContextRef st;
     outputAudioContextRef := outputAudioContextRef st;
     nextStartTimeRef := nextStartTimeRef st; sourcesRef := sourcesRef st;
     sessionRef := sessionRef st;
     scriptProcessorRef := scriptProcessorRef st;
     transports := transports st; micPending := micPending st;
     streams := streams st; contexts := contexts st;
     processors := processors st; nodes := nodes st; sent := sent st;
     console := console st; errors := errors st |}.

Definition setStatus (v : string) (st : App) : App :=
  {| isRecording := isRecording st; lastResponse := lastResponse st;
     history := history st; status := v; isLoading := isLoading st;
     inputAudioContextRef := inputAudioContextRef st;
     outputAudioContextRef := outputAudioContextRef st;
     nextStartTimeRef := nextStartTimeRef st; sourcesRef := sourcesRef st;
     sessionRef := sessionRef st;
     scriptProcessorRef := scriptProcessorRef st;
     transports := transports st; micPending := micPending st;
     streams := streams st; contexts := contexts st;
     processors := processors st; nodes := nodes st; sent := sent st;
     console := console st; errors := errors st |}.

Definition setIsLoading (v : bool) (st : App) : App :=
  {| isRecording := isRecording st; lastResponse := lastResponse st;
     history := history st; status := status st; isLoading := v;
     inputAudioContextRef := inputAudioContextRef st;
     outputAudioContextRef := outputAudioContextRef st;
     nextStartTimeRef := nextStartTimeRef st; sourcesRef := sourcesRef st;
     sessionRef := sessionRef st;
     scriptProcessorRef := scriptProcessorRef st;
     transports := transports st; micPending := micPending st;
     streams := streams st; contexts := contexts st;
     processors := processors st; nodes := nodes st; sent := sent st;
     console := console st; errors := errors st |}.

Definition set_inputAudioContextRef (v : option nat) (st : App) : App :=
  {| isRecording := isRecording st; lastResponse := lastResponse st;
     history := history st; status := status st; isLoading := isLoading st;
     inputAudioContextRef := v;
     outputAudioContextRef := outputAudioContextRef st;
     nextStartTimeRef := nextStartTimeRef st; sourcesRef := sourcesRef st;
     sessionRef := sessionRef st;
     scriptProcessorRef := scriptProcessorRef st;
     transports := transports st; micPending := micPending st;
     streams := streams st; contexts := contexts st;
     processors := processors st; nodes := nodes st; sent := sent st;
     console := console st; errors := errors st |}.

Definition set_outputAudioContextRef (v : option nat) (st : App) : App :=
  {| isRecording := isRecording st; lastResponse := lastResponse st;
     history := history st; status := status st; isLoading := isLoading st;
     inputAudioContextRef := inputAudioContextRef st;
     outputAudioContextRef := v; nextStartTimeRef := nextStartTimeRef st;
     sourcesRef := sourcesRef st; sessionRef := sessionRef st;
     scriptProcessorRef := scriptProcessorRef st;
     transports := transports st; micPending := micPending st;
     streams := streams st; contexts := contexts st;
     processors := processors st; nodes := nodes st; sent := sent st;
     console := console st; errors := errors st |}.

Definition set_nextStartTimeRef (v : Q) (st : App) : App :=
  {| isRecording := isRecording st; lastResponse := lastResponse st;
     history := history st; status := status st; isLoading := isLoading st;
     inputAudioContextRef := inputAudioContextRef st;
     outputAudioContextRef := outputAudioContextRef st;
     nextStartTimeRef := v; sourcesRef := sourcesRef st;
     sessionRef := sessionRef st;
     scriptProcessorRef := scriptProcessorRef st;
     transports := transports st; micPending := micPending st;
     streams := streams st; contexts := contexts st;
     processors := processors st; nodes := nodes st; sent := sent st;
     console := console st; errors := errors st |}.

Definition set_sourcesRef (v : gset nat) (st : App) : App :=
  {| isRecording := isRecording st; lastResponse := lastResponse st;
     history := history st; status := status st; isLoading := isLoading st;
     inputAudioContextRef := inputAudioContextRef st;
     outputAudioContextRef := outputAudioContextRef st;
     nextStartTimeRef := nextStartTimeRef st; sourcesRef := v;
     sessionRef := sessionRef st;
     scriptProcessorRef := scriptProcessorRef st;
     transports := transports st; micPending := micPending st;
     streams := streams st; contexts := contexts st;
     processors := processors st; nodes := nodes st; sent := sent st;
     console := console st; errors := errors st |}.

Definition set_sessionRef (v : option nat) (st : App) : App :=
  {| isRecording := isRecording st; lastResponse := lastResponse st;
     history := history st; status := status st; isLoading := isLoading st;
     inputAudioContextRef := inputAudioContextRef st;
     outputAudioContextRef := outputAudioContextRef st;
     nextStartTimeRef := nextStartTimeRef st; sourcesRef := sourcesRef st;
     sessionRef := v; scriptProcessorRef := scriptProcessorRef st;
     transports := transports st; micPending := micPending st;
     streams := streams st; contexts := contexts st;
     processors := processors st; nodes := nodes st; sent := sent st;
     console := console st; errors := errors st |}.

Definition set_scriptProcessorRef (v : option nat) (st : App) : App :=
  {| isRecording := isRecording st; lastResponse := lastResponse st;
     history := history st; status := status st; isLoading := isLoading st;
     inputAudioContextRef := inputAudioContextRef st;
     outputAudioContextRef := outputAudioContextRef st;
     nextStartTimeRef := nextStartTimeRef st; sourcesRef := sourcesRef st;
     sessionRef := sessionRef st; scriptProcessorRef := v;
     transports := transports st; micPending := micPending st;
     streams := streams st; contexts := contexts st;
     processors := processors st; nodes := nodes st; sent := sent st;
     console := console st; errors := errors st |}.

Definition set_transports (v : list TransportState) (st : App) : App :=
  {| isRecording := isRecording st; lastResponse := lastResponse st;
     history := history st; status := status st; isLoading := isLoading st;
     inputAudioContextRef := inputAudioContextRef st;
     outputAudioContextRef := outputAudioContextRef st;
     nextStartTimeRef := nextStartTimeRef st; sourcesRef := sourcesRef st;
     sessionRef := sessionRef st;
     scriptProcessorRef := scriptProcessorRef st; transports := v;
     micPending := micPending st; streams := streams st;
     contexts := contexts st; processors := processors st; nodes := nodes st;
     sent := sent st; console := console st; errors := errors st |}.

Definition set_micPending (v : nat) (st : App) : App :=
  {| isRecording := isRecording st; lastResponse := lastResponse st;
     history := history st; status := status st; isLoading := isLoading st;
     inputAudioContextRef := inputAudioContextRef st;
     outputAudioContextRef := outputAudioContextRef st;
     nextStartTimeRef := nextStartTimeRef st; sourcesRef := sourcesRef st;
     sessionRef := sessionRef st;
     scriptProcessorRef := scriptProcessorRef st;
     transports := transports st; micPending := v; streams := streams st;
     contexts := contexts st; processors := processors st; nodes := nodes st;
     sent := sent st; console := console st; errors := errors st |}.

Definition set_streams (v : nat) (st : App) : App :=
  {| isRecording := isRecording st; lastResponse := lastResponse st;
     history := history st; status := status st; isLoading := isLoading st;
     inputAudioContextRef := inputAudioContextRef st;
     outputAudioContextRef := outputAudioContextRef st;
     nextStartTimeRef := nextStartTimeRef st; sourcesRef := sourcesRef st;
     sessionRef := sessionRef st;
     scriptProcessorRef := scriptProcessorRef st;
     transports := transports st; micPending := micPending st; streams := v;
     contexts := contexts st; processors := processors st; nodes := nodes st;
     sent := sent st; console := console st; errors := errors st |}.

Definition set_contexts (v : list ContextState) (st : App) : App :=
  {| isRecording := isRecording st; lastResponse := lastResponse st;
     history := history st; status := status st; isLoading := isLoading st;
     inputAudioContextRef := inputAudioContextRef st;
     outputAudioContextRef := outputAudioContextRef st;
     nextStartTimeRef := nextStartTimeRef st; sourcesRef := sourcesRef st;
     sessionRef := sessionRef st;
     scriptProcessorRef := scriptProcessorRef st;
     transports := transports st; micPending := micPending st;
     streams := streams st; contexts := v; processors := processors st;
     nodes := nodes st; sent := sent st; console := console st;
     errors := errors st |}.

Definition set_processors (v : list bool) (st : App) : App :=
  {| isRecording := isRecording st; lastResponse := lastResponse st;
     history := history st; status := status st; isLoading := isLoading st;
     inputAudioContextRef := inputAudioContextRef st;
     outputAudioContextRef := outputAudioContextRef st;
     nextStartTimeRef := nextStartTimeRef st; sourcesRef := sourcesRef st;
     sessionRef := sessionRef st;
     scriptProcessorRef := scriptProcessorRef st;
     transports := transports st; micPending := micPending st;
     streams := streams st; contexts := contexts st; processors := v;
     nodes := nodes st; sent := sent st; console := console st;
     errors := errors st |}.

Definition set_nodes (v : list SourceNode) (st : App) : App :=
  {| isRecording := isRecording st; lastResponse := lastResponse st;
     history := history st; status := status st; isLoading := isLoading st;
     inputAudioContextRef := inputAudioContextRef st;
     outputAudioContextRef := outputAudioContextRef st;
     nextStartTimeRef := nextStartTimeRef st; sourcesRef := sourcesRef st;
     sessionRef := sessionRef st;
     scriptProcessorRef := scriptProcessorRef st;
     transports := transports st; micPending := micPending st;
     streams := streams st; contexts := contexts st;
     processors := processors st; nodes := v; sent := sent st;
     console := console st; errors := errors st |}.

Definition set_sent (v : list (nat * js_string)) (st : App) : App :=
  {| isRecording := isRecording st; lastResponse := lastResponse st;
     history := history st; status := status st; isLoading := isLoading st;
     inputAudioContextRef := inputAudioContextRef st;
     outputAudioContextRef := outputAudioContextRef st;
     nextStartTimeRef := nextStartTimeRef st; sourcesRef := sourcesRef st;
     sessionRef := sessionRef st;
     scriptProcessorRef := scriptProcessorRef st;
     transports := transports st; micPending := micPending st;
     streams := streams st; contexts := contexts st;
     processors := processors st; nodes := nodes st; sent := v;
     console := console st; errors := errors st |}.

Definition set_console (v : list string) (st : App) : App :=
  {| isRecording := isRecording st; lastResponse := lastResponse st;
     history := history st; status := status st; isLoading := isLoading st;
     inputAudioContextRef := inputAudioContextRef st;
     outputAudioContextRef := outputAudioContextRef st;
     nextStartTimeRef := nextStartTimeRef st; sourcesRef := sourcesRef st;
     sessionRef := sessionRef st;
     scriptProcessorRef := scriptProcessorRef st;
     transports := transports st; micPending := micPending st;
     streams := streams st; contexts := contexts st;
     processors := processors st; nodes := nodes st; sent := sent st;
     console := v; errors := errors st |}.

Definition set_errors (v : list exn) (st : App) : App :=
  {| isRecording := isRecording st; lastResponse := lastResponse st;
     history := history st; status := status st; isLoading := isLoading st;
     inputAudioContextRef := inputAudioContextRef st;
     outputAudioContextRef := outputAudioContextRef st;
     nextStartTimeRef := nextStartTimeRef st; sourcesRef := sourcesRef st;
     sessionRef := sessionRef st;
     scriptProcessorRef := scriptProcessorRef st;
     transports := transports st; micPending := micPending st;
     streams := streams st; contexts := contexts st;
     processors := processors st; nodes := nodes st; sent := sent st;
     console := console st; errors := v |}.

(** [console.log] and [console.error]. *)
Definition console_log (msg : string) (st : App) : App :=
  set_console (console st ++ [msg]) st.

(** An exception nobody catches, or a rejected promise nobody awaits. *)
Definition unhandled (e : exn) (st : App) : App :=
  set_errors (errors st ++ [e]) st.

(** ** The response extractor *)

(** [processResponse(text)]; [now] is the value of [new Date()].  The
    matched block starts with a brace, so [parsed] is an object (see
    [matched_block_object] below) and [parsed.insight] is a plain member
    read. *)
Definition processResponse (text : js_string) (now : Z) (st : App) : App :=
  match match_json_block text with
  | Some block =>
      match JSON.parse block with
      | Ok parsed =>
          let st := setLastResponse (Some parsed) st in
          let st :=
            setHistory
              ({| role := assistant;
                  content := get_property parsed (lit "insight");
                  timestamp := now |} :: history st) st in
          setStatus "Analysis complete" st
      | Throw _ =>
          (* catch (e) *)
          console_log "Failed to parse response" st
      end
  | None =>
      setHistory
        ({| role := assistant;
            content := Some (JStr text);
            timestamp := now |} :: history st) st
  end.

(** ** Teardown *)

(** How a synchronous call ends: it returns, or it throws and leaves the
    state as it was at the throw. *)
Inductive completion :=
| Returns (st : App)
| Throws (e : exn) (st : App).

(** [scriptProcessorRef.current?.disconnect()]. *)
Definition disconnect (p : option nat) (st : App) : App :=
  match p with
  | Some p => set_processors (<[ p := false ]> (processors st)) st
  | None => st
  end.

(** [ref.current?.close()] on an audio context: closing a context twice
    gives a rejected promise, which nobody handles. *)
Definition close_context (c : option nat) (st : App) : App :=
  match c with
  | Some c =>
      match contexts st !! c with
      | Some Running => set_contexts (<[ c := ContextClosed ]> (contexts st)) st
      | _ => unhandled InvalidStateError st
      end
  | None => st
  end.

(** [s.stop()]: an [InvalidStateError] unless [start] was called before. *)
Definition stop_node (s : nat) (st : App) : completion :=
  match nodes st !! s with
  | Some n =>
      match startTime n with
      | Some _ =>
          Returns
            (set_nodes
               (<[ s := {| buffer := buffer n;
                           startTime := startTime n;
                           stopCalled := true |} ]> (nodes st)) st)
      | None => Throws InvalidStateError st
      end
  | None => Throws InvalidStateError st
  end.

(** [sourcesRef.current.forEach(s => s.stop())].  The sources are visited
    in the order of [elements]; the order only shows when a [stop]
    throws, which ends the loop. *)
Fixpoint forEach_stop (sources : list nat) (st : App) : completion :=
  match sources with
  | [] => Returns st
  | s :: rest =>
      match stop_node s st with
      | Returns st => forEach_stop rest st
      | Throws e st => Throws e st
      end
  end.

(** [sessionRef.current?.close()]. *)
Definition close_session (t : option nat) (st : App) : App :=
  match t with
  | Some t => set_transports (<[ t := Closed ]> (transports st)) st
  | None => st
  end.

Definition stopSession (st : App) : completion :=
  let st := setIsRecording false st in
  let st := setStatus "Analysis complete" st in
  let st := disconnect (scriptProcessorRef st) st in
  let st := close_context (inputAudioContextRef st) st in
  let st := close_context (outputAudioContextRef st) st in
  match forEach_stop (elements (sourcesRef st)) st with
  | Returns st =>
      let st := set_sourcesRef ∅ st in
      let st := close_session (sessionRef st) st in
      Returns (set_sessionRef None st)
  | Throws e st => Throws e st
  end.

(** A call made from an event handler: what it throws is left unhandled. *)
Definition settle (c : completion) : App :=
  match c with
  | Returns st => st
  | Throws e st => unhandled e st
  end.

(** ** Session start

    [startSession] is asynchronous.  It runs up to [await sessionPromise],
    resumes when the connection is made and runs up to
    [await getUserMedia], and resumes once more with the stream; a
    rejection at either point runs the [catch] block. *)

(** Up to the first [await]: the guard, the two state updates and the call
    of [ai.live.connect], which starts opening a new connection. *)
Definition startSession (st : App) : App :=
  match sessionRef st with
  | Some _ => st
  | None =>
      let st := setStatus "Connecting to AI..." st in
      let st := setIsLoading true st in
      set_transports (transports st ++ [Opening]) st
  end.

(** The [onopen] callback. *)
Definition onopen (st : App) : App :=
  let st := console_log "Session Opened" st in
  let st := setStatus "Listening..." st in
  let st := setIsRecording true st in
  setIsLoading false st.

(** After [await sessionPromise]: the session is stored and the microphone
    is requested. *)
Definition startSession_connected (t : nat) (st : App) : App :=
  let st := set_sessionRef (Some t) st in
  set_micPending (S (micPending st)) st.

(** After [await getUserMedia]: the stream is live; both audio contexts and
    the script processor are created and wired. *)
Definition startSession_stream (st : App) : App :=
  let st := set_streams (S (streams st)) st in
  let input := length (contexts st) in
  let st := set_contexts (contexts st ++ [Running]) st in
  let st := set_inputAudioContextRef (Some input) st in
  let output := length (contexts st) in
  let st := set_contexts (contexts st ++ [Running]) st in
  let st := set_outputAudioContextRef (Some output) st in
  let p := length (processors st) in
  let st := set_processors (processors st ++ [true]) st in
  set_scriptProcessorRef (Some p) st.

(** The [catch] block. *)
Definition startSession_catch (st : App) : App :=
  let st := console_log "Error starting session" st in
  let st := setStatus "Microphone access denied" st in
  setIsLoading false st.

(** ** Callbacks of a running session *)

(** The parts of a server message the handler looks at. *)
Record LiveServerMessage := {
  audioData : option js_string;
  outputTranscription : option js_string;
  turnComplete : bool
}.

Definition Math_max (a b : Q) : Q := if Qle_bool a b then b else a.

(** [onmessage]; [now] is the reading of [ctx.currentTime].  The handler
    suspends once, at [await decodeAudioData(...)], whose promise is
    already settled; it is modelled as running to its end before the next
    event.  The branches for transcriptions and turn completion are empty
    in the source. *)
Definition onmessage (now : Q) (message : LiveServerMessage) (st : App)
  : App :=
  match audioData message, outputAudioContextRef st with
  | Some (c :: data), Some ctx =>
      let st := set_nextStartTimeRef (Math_max (nextStartTimeRef st) now) st in
      match (let? bytes := decode (c :: data) in
             decodeAudioData bytes 24000 1) with
      | Ok buffer =>
          let source := length (nodes st) in
          (* createBufferSource, then start(nextStartTimeRef.current) *)
          let st :=
            set_nodes
              (nodes st ++ [{| buffer := buffer;
                               startTime := Some (nextStartTimeRef st);
                               stopCalled := false |}]) st in
          let st :=
            set_nextStartTimeRef
              (nextStartTimeRef st + duration buffer)%Q st in
          set_sourcesRef (sourcesRef st ∪ {[ source ]}) st
      | Throw e => unhandled e st
      end
  | _, _ => st
  end.

(** The listener for [ended] registered on each source. *)
Definition onended (source : nat) (st : App) : App :=
  set_sourcesRef (sourcesRef st ∖ {[ source ]}) st.

Definition onerror (st : App) : App :=
  let st := console_log "Session error" st in
  let st := setStatus "Connection error" st in
  settle (stopSession st).

Definition onclose (st : App) : App :=
  let st := console_log "Session closed" st in
  settle (stopSession st).

(** [onaudioprocess]: the frame is converted, encoded and sent on the
    current session, if there is one. *)
Definition onaudioprocess (inputData : list Q) (st : App) : App :=
  let int16 := float_to_int16 inputData in
  match encode (Uint8Array_of_Int16Array int16) with
  | Ok data =>
      match sessionRef st with
      | Some t => set_sent (sent st ++ [(t, data)]) st
      | None => st
      end
  | Throw e => unhandled e st
  end.

(** ** The control *)

Definition toggleRecording (st : App) : App :=
  if isRecording st then settle (stopSession st) else startSession st.

(** The microphone button: [onClick={toggleRecording}],
    [disabled={isLoading}]. *)
Definition click (st : App) : App :=
  if isLoading st then st else toggleRecording st.

(** ** Events

    Everything that can happen to the component.  An event that cannot
    occur in the given state (a connection that is not being opened, a
    microphone answer nobody waits for, a frame for a processor that is
    not connected) leaves it unchanged. *)
Inductive event :=
| Click
| CallStartSession
| CallStopSession
| CallProcessResponse (text : js_string) (now : Z)
| ConnectResolved (t : nat)
| ConnectRejected (t : nat)
| MicGranted
| MicDenied
| ServerMessage (now : Q) (message : LiveServerMessage)
| TransportError
| TransportClosed
| AudioProcess (inputData : list Q)
| SourceEnded (source : nat).

Definition step (e : event) (st : App) : App :=
  match e with
  | Click => click st
  | CallStartSession => startSession st
  | CallStopSession => settle (stopSession st)
  | CallProcessResponse text now => processResponse text now st
  | ConnectResolved t =>
      match transports st !! t with
      | Some Opening =>
          let st := set_transports (<[ t := Open ]> (transports st)) st in
          startSession_connected t (onopen st)
      | _ => st
      end
  | ConnectRejected t =>
      match transports st !! t with
      | Some Opening =>
          let st := set_transports (<[ t := Failed ]> (transports st)) st in
          startSession_catch st
      | _ => st
      end
  | MicGranted =>
      match micPending st with
      | S n => startSession_stream (set_micPending n st)
      | O => st
      end
  | MicDenied =>
      match micPending st with
      | S n => startSession_catch (set_micPending n st)
      | O => st
      end
  | ServerMessage now message => onmessage now message st
  | TransportError => onerror st
  | TransportClosed => onclose st
  | AudioProcess inputData =>
      match scriptProcessorRef st with
      | Some p =>
          match processors st !! p with
          | Some true => onaudioprocess inputData st
          | _ => st
          end
      | None => st
      end
  | SourceEnded source => onended source st
  end.

(** The events of a trace, oldest first. *)
Definition run (trace : list event) (st : App) : App :=
  fold_left (fun st e => step e st) trace st.

Definition audio (data : js_string) : LiveServerMessage :=
  {| audioData := Some data; outputTranscription := None;
     turnComplete := false |}.


(** ** Notions used in the statements *)

(** Two samples at most one quantization step apart. *)
Definition within_step (x y : Q) : Prop :=
  (Qabs (y - x) <= 1 # 32768)%Q.

(** The state a call leaves behind. *)
Definition state_of (c : completion) : App :=
  match c with
  | Returns st => st
  | Throws _ st => st
  end.

(** [n] calls of [stopSession] in a row, as long as none throws. *)
Fixpoint stopSession_times (n : nat) (st : App) : completion :=
  match n with
  | O => Returns st
  | S n =>
      match stopSession st with
      | Returns st => stopSession_times n st
      | Throws e st => Throws e st
      end
  end.

(** What the scheduler decided for a node: when it starts and what it
    plays. *)
Definition slot (n : SourceNode) : option Q * AudioBuffer :=
  (startTime n, buffer n).

(** In a list of nodes in creation order, every node was started, and no
    node starts before an earlier one has played to its end. *)
Definition no_overlap (ns : list SourceNode) : Prop :=
  forall (i j : nat) (a b : SourceNode),
    (i < j)%nat -> ns !! i = Some a -> ns !! j = Some b ->
    exists s t, startTime a = Some s /\ startTime b = Some t
                /\ (s + duration (buffer a) <= t)%Q.

(** Every node has ended by the time the playback cursor points at. *)
Definition ends_by (c : Q) (ns : list SourceNode) : Prop :=
  forall (i : nat) (a : SourceNode),
    ns !! i = Some a ->
    exists s, startTime a = Some s /\ (s + duration (buffer a) <= c)%Q.

(** Every source kept in [sourcesRef] is a node on which [start] was
    called. *)
Definition sources_started (st : App) : Prop :=
  forall s : nat, s ∈ sourcesRef st ->
    exists n, nodes st !! s = Some n /\ is_Some (startTime n).

(** The text holds an opening brace with a closing brace somewhere after
    it. *)
Definition has_brace_span (text : js_string) : Prop :=
  exists a b c : js_string, text = a ++ [123%N] ++ b ++ [125%N] ++ c.

(** The transcript of the specification's example. *)
Definition example_transcript : js_string :=
  quoted "Sales are up. {'insight':'x','title':'t','chartType':'bar','data':[{'label':'A','value':1}]}".

(** One list of nodes continues another: same slots, and [stop] calls are
    not forgotten. *)
Definition continues (ns ns' : list SourceNode) : Prop :=
  Forall2 (fun a b => slot a = slot b
                      /\ (stopCalled a = true -> stopCalled b = true))
          ns ns'.

(** Two states with the same playback references and node store. *)
Definition same_playback (st st' : App) : Prop :=
  nodes st' = nodes st
  /\ sourcesRef st' = sourcesRef st
  /\ nextStartTimeRef st' = nextStartTimeRef st.

(** ** Notions used in the further properties *)

(** The playback path applied to the payload of a server message: base64
    to bytes, bytes to a 24 kHz single-channel buffer. *)
Definition decode_frame (data : js_string) : result AudioBuffer :=
  let? bytes := decode data in decodeAudioData bytes 24000 1.




(** The one event that calls the response extractor. *)
Definition is_extractor_call (e : event) : Prop :=
  match e with
  | CallProcessResponse _ _ => True
  | _ => False
  end.

(** A connection that was closed, or that could not be made. *)
Definition ended (ts : list TransportState) (t : nat) : Prop :=
  ts !! t = Some Closed \/ ts !! t = Some Failed.

(** The events of a series of calls of the extractor, given as texts and
    dates. *)
Definition reply_events (rs : list (js_string * Z)) : list event :=
  map (fun r => CallProcessResponse (fst r) (snd r)) rs.

(** The message the extractor logs for a reply it takes as plain text. *)
Definition plain_message (r : js_string * Z) : Message :=
  {| role := assistant; content := Some (JStr (fst r)); timestamp := snd r |}.

(** ** The displayed result: mount effect, chart type buttons, renderer *)

(** JavaScript truthiness of a value read from JSON. *)
Definition truthy (v : json) : bool :=
  match v with
  | JNull => false
  | JBool b => b
  | JNum _ m _ => negb (m =? 0)%N
  | JStr s => match s with [] => false | _ :: _ => true end
  | JArr _ | JObj _ => true
  end.

(** The own enumerable properties of a value, as the spread syntax copies
    them: the members of an object, the indexed elements of an array or
    of a string, nothing for the other values. *)
Definition own_properties (v : json) : list (js_string * json) :=
  match v with
  | JObj fields => fields
  | JArr items => imap (fun i x => (lit (pretty i), x)) items
  | JStr s => imap (fun i c => (lit (pretty i), JStr [c])) s
  | _ => []
  end.

(** The effect run once when the component is mounted: it displays a
    sample result. *)
Definition sample_response : json :=
  JObj [(lit "title", JStr (lit "Quarterly Revenue Growth"));
        (lit "insight",
         JStr (lit "Revenue has shown a steady 12% increase month-over-month, driven primarily by the Electronics category."));
        (lit "chartType", JStr (lit "area"));
        (lit "data",
         JArr [JObj [(lit "label", JStr (lit "Jul"));
                     (lit "value", JNum false 4200 0)];
               JObj [(lit "label", JStr (lit "Aug"));
                     (lit "value", JNum false 4800 0)];
               JObj [(lit "label", JStr (lit "Sep"));
                     (lit "value", JNum false 5100 0)];
               JObj [(lit "label", JStr (lit "Oct"));
                     (lit "value", JNum false 5800 0)]])].

Definition mount (st : App) : App :=
  setLastResponse (Some sample_response) st.

(** A chart type button, shown only while a result is displayed:
    [setLastResponse({...lastResponse, chartType: t})]. *)
Definition selectChartType (t : js_string) (st : App) : App :=
  match lastResponse st with
  | Some r =>
      if truthy r then
        setLastResponse
          (Some (JObj (own_properties r ++ [(lit "chartType", JStr t)]))) st
      else st
  | None => st
  end.

(** [COLORS] of the chart renderer. *)
Definition COLORS : list string :=
  ["#3b82f6"; "#10b981"; "#a855f7"; "#f59e0b"; "#ec4899"; "#06b6d4"]%string.

(** What [renderChart] returns: the chart component and the data handed to
    it; for a pie chart also the fill of each cell, which is what
    [COLORS[index % COLORS.length]] reads. *)
Inductive Chart :=
| LineChart (data : option json)
| AreaChart (data : option json)
| PieChart (data : option json) (cells : list (option string))
| BarChart (data : option json).

(** [type === s] for a string literal [s]. *)
Definition is_string (s : js_string) (v : option json) : bool :=
  match v with
  | Some (JStr s') => bool_decide (s' = s)
  | _ => false
  end.

(** [renderChart] for the properties [type] and [data]; [None] stands for
    the [TypeError] of calling [map] on something that is not an array. *)
Definition renderChart (type data : option json) : option Chart :=
  if is_string (lit "line") type then Some (LineChart data)
  else if is_string (lit "area") type then Some (AreaChart data)
  else if is_string (lit "pie") type then
    match data with
    | Some (JArr items) =>
        Some (PieChart data
                (imap (fun index _ =>
                         COLORS !! (index mod length COLORS)%nat)
                      items))
    | _ => None
    end
  else Some (BarChart data).

(** The main panel: nothing while no result is displayed, otherwise the
    chart for the [chartType] and [data] members of the result. *)
Definition displayed_chart (st : App) : option (option Chart) :=
  match lastResponse st with
  | Some r =>
      if truthy r then
        Some (renderChart (get_property r (lit "chartType"))
                          (get_property r (lit "data")))
      else None
  | None => None
  end.

(** Events of the whole component: those of the session, the mount effect
    and the chart type buttons. *)
Inductive ui_event :=
| Session (e : event)
| Mount
| SelectChartType (t : js_string).

Definition ui_step (e : ui_event) (st : App) : App :=
  match e with
  | Session e => step e st
  | Mount => mount st
  | SelectChartType t => selectChartType t st
  end.

Definition ui_run (trace : list ui_event) (st : App) : App :=
  fold_left (fun st e => ui_step e st) trace st.

(** The displayed result is absent or a JSON object, and the log holds
    assistant messages only. *)
Definition display_invariant (st : App) : Prop :=
  (lastResponse st = None \/ exists fields, lastResponse st = Some (JObj fields))
  /\ Forall (fun m => role m = assistant) (history st).

(** The flags of the control agree with the session: recording is shown
    exactly while a session is stored, a stored session is an open
    connection, and the control is only disabled while some connection is
    being opened. *)
Definition control_invariant (st : App) : Prop :=
  (isRecording st = true <-> sessionRef st <> None)
  /\ (forall t, sessionRef st = Some t -> transports st !! t = Some Open)
  /\ (isLoading st = true -> exists t, transports st !! t = Some Opening).

(** * Properties *)

(** ** The transport encoding *)

Section Lists.
Context {A : Type}.

(** Induction on lists, three elements at a time. *)
Lemma list_ind3 (P : list A -> Prop) :
  P [] ->
  (forall x, P [x]) ->
  (forall x y, P [x; y]) ->
  (forall x y z l, P l -> P (x :: y :: z :: l)) ->
  forall l, P l.
Proof.
  intros H0 H1 H2 H3.
  fix IH 1.
  intros [|x [|y [|z l]]];
    [apply H0 | apply H1 | apply H2 | apply H3, IH].
Qed.

(** A loop that appends one image per element builds the mapped list. *)
Lemma fold_left_snoc {B : Type} (f : A -> B) (l : list A) (acc : list B) :
  fold_left (fun acc x => acc ++ [f x]) l acc = acc ++ map f l.
Proof.
  revert acc.
  induction l as [|x l IH]; intros acc; simpl.
  - now rewrite app_nil_r.
  - rewrite IH, <- app_assoc. reflexivity.
Qed.

End Lists.

Module Base64Facts.
Import Base64.

Ltac Zify.zify_convert_to_euclidean_division_equations_flag ::= constr:(true).

Lemma b64_index_char n : n < 64 -> b64_index (b64_char n) = Some n.
Proof.
  intros Hn. unfold b64_char.
  repeat
    match goal with
    | |- context [?a <? ?b] => destruct (N.ltb_spec a b)
    | |- context [?a =? ?b] => destruct (N.eqb_spec a b)
    end;
    unfold b64_index;
    repeat
      match goal with
      | |- context [?a <=? ?b] => destruct (N.leb_spec a b); simpl
      | |- context [?a =? ?b] => destruct (N.eqb_spec a b); simpl
      end;
    try (f_equal; lia); try lia.
Qed.

Lemma b64_char_range n :
  n < 64 -> 43 <= b64_char n /\ b64_char n <= 122 /\ b64_char n <> pad_char.
Proof.
  intros Hn. unfold b64_char, pad_char.
  repeat
    match goal with
    | |- context [?a <? ?b] => destruct (N.ltb_spec a b)
    | |- context [?a =? ?b] => destruct (N.eqb_spec a b)
    end; lia.
Qed.

Lemma b64_char_not_whitespace n :
  n < 64 -> is_ascii_whitespace (b64_char n) = false.
Proof.
  intros Hn. destruct (b64_char_range n Hn) as (Hlo & _ & _).
  unfold is_ascii_whitespace.
  repeat
    match goal with
    | |- context [?a =? ?b] => destruct (N.eqb_spec a b)
    end; first [reflexivity | lia].
Qed.

Lemma indices_chars (v : list N) :
  Forall (fun n => n < 64) v -> indices (map b64_char v) = Some v.
Proof.
  induction 1 as [|n v Hn _ IH]; simpl; [reflexivity|].
  now rewrite (b64_index_char n Hn), IH.
Qed.

Lemma sextets_lt (b : list N) :
  Forall (fun x => x < 256) b -> Forall (fun n => n < 64) (sextets b).
Proof.
  induction b as [|x|x y|x y z l IH] using list_ind3; intros Hb; simpl.
  - constructor.
  - inversion_clear Hb. repeat constructor; lia.
  - inversion_clear Hb as [|? ? Hx Hb']. inversion_clear Hb'.
    repeat constructor; lia.
  - inversion_clear Hb as [|? ? Hx Hb']. inversion_clear Hb' as [|? ? Hy Hb].
    inversion_clear Hb as [|? ? Hz Hl].
    repeat (constructor; [lia|]). auto.
Qed.

Lemma decode_sextets (b : list N) :
  Forall (fun x => x < 256) b -> decode_groups (sextets b) = b.
Proof.
  induction b as [|x|x y|x y z l IH] using list_ind3; intros Hb.
  - reflexivity.
  - inversion_clear Hb. cbn [sextets decode_groups]. f_equal. lia.
  - inversion_clear Hb as [|? ? Hx Hb']. inversion_clear Hb'.
    cbn [sextets decode_groups]. f_equal; [lia|]. f_equal. lia.
  - inversion_clear Hb as [|? ? Hx Hb']. inversion_clear Hb' as [|? ? Hy Hb].
    inversion_clear Hb as [|? ? Hz Hl].
    cbn [sextets decode_groups]. rewrite (IH Hl).
    f_equal; [lia|]. f_equal; [lia|]. f_equal. lia.
Qed.

(** The three shapes of an encoded text. *)
Lemma sextets_padding (b : list N) :
  (padding b = [] /\ exists k, length (sextets b) = (4 * k)%nat)
  \/ (padding b = [pad_char]
      /\ exists k, length (sextets b) = (4 * k + 3)%nat)
  \/ (padding b = [pad_char; pad_char]
      /\ exists k, length (sextets b) = (4 * k + 2)%nat).
Proof.
  induction b as [|x|x y|x y z l IH] using list_ind3.
  - left. split; [reflexivity|]. exists 0%nat. reflexivity.
  - right; right. split; [reflexivity|]. exists 0%nat. reflexivity.
  - right; left. split; [reflexivity|]. exists 0%nat. reflexivity.
  - cbn [padding sextets length].
    destruct IH as [(-> & k & ->)|[(-> & k & ->)|(-> & k & ->)]];
      [left|right; left|right; right];
      (split; [reflexivity|]); exists (S k); lia.
Qed.

Lemma chars_no_padding (v : list N) :
  Forall (fun n => n < 64) v ->
  Forall (fun c => c <> pad_char) (map b64_char v).
Proof.
  intros Hv. apply List.Forall_map. eapply List.Forall_impl; [|exact Hv].
  intros n Hn. apply b64_char_range, Hn.
Qed.

Lemma filter_whitespace_encoded (b : list N) :
  Forall (fun x => x < 256) b ->
  filter (fun c => is_ascii_whitespace c = false) (encode_groups b)
  = encode_groups b.
Proof.
  intros Hb.
  assert (Forall (fun c => is_ascii_whitespace c = false) (encode_groups b))
    as Hall.
  { unfold encode_groups. apply List.Forall_app. split.
    - apply List.Forall_map. eapply List.Forall_impl; [|exact (sextets_lt b Hb)].
      intros n Hn. apply b64_char_not_whitespace, Hn.
    - destruct (sextets_padding b) as [(-> & _)|[(-> & _)|(-> & _)]];
        repeat constructor. }
  induction Hall as [|c l Hc _ IH]; [reflexivity|].
  rewrite filter_cons_True by exact Hc. now rewrite IH.
Qed.

(** Removing the padding of an encoded text leaves its characters. *)
Lemma strip_padding_encoded (b : list N) :
  Forall (fun x => x < 256) b ->
  strip_padding (encode_groups b) = map b64_char (sextets b).
Proof.
  intros Hb.
  pose proof (chars_no_padding _ (sextets_lt b Hb)) as Hchars.
  apply List.Forall_rev in Hchars.
  unfold strip_padding, encode_groups.
  rewrite length_app, length_map, rev_app_distr.
  destruct (sextets_padding b) as [(-> & k & Hk)|[(-> & k & Hk)|(-> & k & Hk)]];
    rewrite Hk; cbn [length rev app].
  - replace (N.of_nat (4 * k + 0) mod 4 =? 0) with true
      by (symmetry; apply N.eqb_eq; lia).
    rewrite app_nil_r.
    destruct (rev (map b64_char (sextets b))) as [|c1 [|c2 r]] eqn:Hrev;
      try reflexivity.
    inversion_clear Hchars as [|? ? Hc1 _].
    destruct (N.eqb_spec c1 pad_char); [contradiction|reflexivity].
  - replace (N.of_nat (4 * k + 3 + 1) mod 4 =? 0) with true
      by (symmetry; apply N.eqb_eq; lia).
    destruct (rev (map b64_char (sextets b))) as [|c2 r] eqn:Hrev.
    + apply (f_equal (@length N)) in Hrev.
      rewrite length_rev, length_map, Hk in Hrev. simpl in Hrev. lia.
    + cbn [app]. rewrite N.eqb_refl.
      inversion_clear Hchars as [|? ? Hc2 _].
      destruct (N.eqb_spec c2 pad_char); [contradiction|].
      change (rev r ++ [c2]) with (rev (c2 :: r)).
      rewrite <- Hrev. apply rev_involutive.
  - replace (N.of_nat (4 * k + 2 + 2) mod 4 =? 0) with true
      by (symmetry; apply N.eqb_eq; lia).
    cbn [app]. rewrite !N.eqb_refl. apply rev_involutive.
Qed.

(** [atob] undoes [btoa] on every binary string. *)
Lemma atob_btoa (b : list N) :
  Forall (fun x => x < 256) b ->
  btoa b = Ok (encode_groups b) /\ atob (encode_groups b) = Ok b.
Proof.
  intros Hb. split.
  - unfold btoa.
    replace (forallb (fun c => c <=? 255) b) with true; [reflexivity|].
    symmetry. apply forallb_forall. intros x Hx.
    rewrite List.Forall_forall in Hb. apply N.leb_le.
    specialize (Hb x Hx). lia.
  - unfold atob.
    rewrite (filter_whitespace_encoded b Hb), (strip_padding_encoded b Hb).
    rewrite length_map.
    replace (N.of_nat (length (sextets b)) mod 4 =? 1) with false.
    + rewrite (indices_chars _ (sextets_lt b Hb)).
      now rewrite (decode_sextets b Hb).
    + symmetry. apply N.eqb_neq.
      destruct (sextets_padding b) as [(_ & k & ->)|[(_ & k & ->)|(_ & k & ->)]];
        lia.
Qed.

End Base64Facts.

Lemma to_uint8_fromCharCode (b : byte) : to_uint8 (fromCharCode b) = b.
Proof.
  unfold to_uint8, fromCharCode.
  pose proof (Byte.to_N_bounded b) as Hb.
  rewrite N.mod_small by lia.
  now rewrite Byte.of_to_N.
Qed.

Lemma binary_string_bytes (bytes : list byte) :
  Forall (fun x => x < 256) (map fromCharCode bytes).
Proof.
  apply List.Forall_map, List.Forall_forall. intros b _.
  pose proof (Byte.to_N_bounded b). unfold fromCharCode. lia.
Qed.

(** [encode] never throws, and [decode] gives the bytes back. *)
Lemma decode_encode (bytes : list byte) :
  exists text, encode bytes = Ok text /\ decode text = Ok bytes.
Proof.
  exists (Base64.encode_groups (map fromCharCode bytes)).
  unfold encode, decode.
  rewrite fold_left_snoc. cbn [app].
  destruct (Base64Facts.atob_btoa _ (binary_string_bytes bytes)) as [-> ->].
  split; [reflexivity|]. cbn [bind].
  rewrite fold_left_snoc. cbn [app]. f_equal.
  rewrite map_map. rewrite <- (map_id bytes) at 2.
  apply map_ext. intros b. apply to_uint8_fromCharCode.
Qed.

(** C7. The transport text encoding preserves bytes: for every byte buffer
    [b], [encode b] is a text and [decode] of that text is [b] again. *)
Theorem C7_transport_roundtrip (b : list byte) :
  exists text, encode b = Ok text /\ decode text = Ok b.
Proof. exact (decode_encode b). Qed.

(** ** The PCM codec *)

Local Open Scope Z_scope.

(** Truncation towards zero stays within one unit of the quotient, on the
    side of zero. *)
Lemma quot_trunc (n d : Z) :
  0 < d ->
  (0 <= n -> (n ÷ d) * d <= n < (n ÷ d) * d + d)
  /\ (n <= 0 -> (n ÷ d) * d - d < n <= (n ÷ d) * d).
Proof.
  intros Hd.
  pose proof (Z.quot_rem' n d) as Hqr.
  split; intros Hn.
  - pose proof (Z.rem_bound_pos n d Hn Hd). lia.
  - assert (0 <= - n) as Hn' by lia.
    pose proof (Z.rem_bound_pos (- n) d Hn' Hd) as Hr.
    rewrite Z.rem_opp_l' in Hr. lia.
Qed.

Lemma ToInt16_range (x : Q) : -32768 <= ToInt16 x <= 32767.
Proof.
  unfold ToInt16.
  set (int := Qnum x ÷ Z.pos (Qden x)).
  pose proof (Z.mod_pos_bound int 65536 eq_refl).
  destruct (Z.leb_spec 32768 (int mod 65536)); lia.
Qed.

(** Inside [-1, 1) the conversion does not wrap, and dividing the result
    by 32768 gives the sample back up to one step. *)
Lemma ToInt16_scaled (x : Q) :
  (-1 <= x)%Q -> (x < 1)%Q ->
  within_step x (inject_Z (ToInt16 (x * 32768)) / 32768)%Q.
Proof.
  intros Hlo Hhi. unfold within_step.
  destruct x as [n d].
  unfold Qle, Qlt in Hlo, Hhi. cbn in Hlo, Hhi.
  unfold ToInt16. cbn [Qnum Qden Qmult].
  rewrite Pos.mul_1_r.
  set (t := (n * 32768) ÷ Z.pos d).
  destruct (quot_trunc (n * 32768) (Z.pos d) eq_refl) as [Hpos Hneg].
  fold t in Hpos, Hneg.
  assert (-32768 <= t <= 32767) as Ht.
  { destruct (Z.le_gt_cases 0 n) as [H0|H0].
    - specialize (Hpos ltac:(lia)). nia.
    - specialize (Hneg ltac:(lia)). nia. }
  replace (t mod 65536) with (if t <? 0 then t + 65536 else t).
  2:{ destruct (Z.ltb_spec t 0); lia. }
  assert ((if 32768 <=? (if t <? 0 then t + 65536 else t)
           then (if t <? 0 then t + 65536 else t) - 65536
           else if t <? 0 then t + 65536 else t) = t) as ->.
  { destruct (Z.ltb_spec t 0);
      match goal with |- context [?a <=? ?b] => destruct (Z.leb_spec a b) end;
      lia. }
  apply Qabs_Qle_condition.
  unfold Qle, Qminus, Qplus, Qopp, Qdiv, Qmult, Qinv, inject_Z.
  cbn.
  destruct (Z.le_gt_cases 0 n) as [H0|H0].
  - specialize (Hpos ltac:(lia)). split; nia.
  - specialize (Hneg ltac:(lia)). split; nia.
Qed.

Lemma to_N_to_uint8 (n : N) : Byte.to_N (to_uint8 n) = (n mod 256)%N.
Proof.
  unfold to_uint8.
  destruct (Byte.of_N (n mod 256)) as [b|] eqn:Hb.
  - now apply Byte.to_of_N.
  - apply Byte.of_N_None_iff in Hb.
    pose proof (N.mod_upper_bound n 256). lia.
Qed.

(** The two bytes of a 16-bit integer read back as that integer. *)
Lemma int16_pairs_bytes (v : Z) (rest : list byte) :
  -32768 <= v <= 32767 ->
  int16_pairs (int16_bytes v ++ rest) = v :: int16_pairs rest.
Proof.
  intros Hv. unfold int16_bytes. cbn [app int16_pairs]. f_equal.
  unfold int16_of_bytes. rewrite !to_N_to_uint8.
  set (u := Z.to_N (v mod 65536)).
  assert (Z.of_N u = v mod 65536) as Hu by (unfold u; lia).
  replace (Z.of_N (((u mod 256) mod 256 + 256 * ((u / 256) mod 256))%N))
    with (v mod 65536) by lia.
  destruct (Z.leb_spec 32768 (v mod 65536)); lia.
Qed.

Lemma int16_pairs_view (a : list Z) :
  Forall (fun v => -32768 <= v <= 32767) a ->
  int16_pairs (Uint8Array_of_Int16Array a) = a.
Proof.
  unfold Uint8Array_of_Int16Array.
  induction 1 as [|v a Hv _ IH]; [reflexivity|].
  cbn [flat_map]. rewrite (int16_pairs_bytes v _ Hv). now rewrite IH.
Qed.

Lemma length_view (a : list Z) :
  length (Uint8Array_of_Int16Array a) = (2 * length a)%nat.
Proof.
  unfold Uint8Array_of_Int16Array.
  induction a as [|v a IH]; [reflexivity|].
  cbn [flat_map]. rewrite length_app, IH. cbn [int16_bytes length]. lia.
Qed.

Lemma Int16Array_of_view (a : list Z) :
  Forall (fun v => -32768 <= v <= 32767) a ->
  Int16Array_of_buffer (Uint8Array_of_Int16Array a) = Ok a.
Proof.
  intros Ha. unfold Int16Array_of_buffer.
  rewrite length_view, (int16_pairs_view a Ha).
  replace (Nat.even (2 * length a)) with true; [reflexivity|].
  symmetry. apply Nat.even_spec. exists (length a). lia.
Qed.

(** Writing [g i] at every index [i] of a list, in order, gives the list of
    the [g i]. *)
Lemma fold_insert_prefix {A : Type} (g : nat -> A) (l : list A) (k : nat) :
  (k <= length l)%nat ->
  fold_left (fun acc i => <[ i := g i ]> acc) (seq 0 k) l
  = map g (seq 0 k) ++ drop k l.
Proof.
  induction k as [|k IH]; intros Hk.
  - reflexivity.
  - rewrite seq_S, fold_left_app, map_app. cbn [fold_left map Nat.add].
    rewrite IH by lia.
    destruct (lookup_lt_is_Some_2 l k ltac:(lia)) as [x Hx].
    rewrite (drop_S l x k Hx).
    rewrite insert_app_r_alt by (rewrite length_map, length_seq; lia).
    rewrite length_map, length_seq, Nat.sub_diag. cbn [insert list_insert].
    now rewrite <- app_assoc.
Qed.

Lemma map_nth_seq {A B : Type} (f : A -> B) (d : A) (l : list A) :
  map (fun i => f (nth i l d)) (seq 0 (length l)) = map f l.
Proof.
  induction l as [|x l IH]; [reflexivity|].
  cbn [length seq map nth]. f_equal.
  rewrite <- seq_shift, map_map. exact IH.
Qed.

(** A single-channel buffer holds one sample per 16-bit integer. *)
Lemma decodeAudioData_mono (a : list Z) (rate : positive) :
  a <> [] ->
  Forall (fun v => -32768 <= v <= 32767) a ->
  decodeAudioData (Uint8Array_of_Int16Array a) rate 1
  = Ok {| numberOfChannels := 1;
          frames := N.of_nat (length a);
          sampleRate := rate;
          channels := [map (fun v => (inject_Z v / 32768)%Q) a] |}.
Proof.
  intros Hne Ha. unfold decodeAudioData.
  rewrite (Int16Array_of_view a Ha). cbn [bind].
  rewrite N.div_1_r. unfold createBuffer.
  replace (N.of_nat (length a) =? 0)%N with false.
  2:{ symmetry. apply N.eqb_neq. destruct a; [contradiction|]. cbn. lia. }
  cbn [N.eqb orb bind numberOfChannels frames sampleRate channels].
  f_equal. f_equal.
  change (N.to_nat 1) with 1%nat. cbn [repeat imap]. f_equal.
  unfold fill_channel. rewrite !Nat2N.id.
  rewrite fold_insert_prefix by now rewrite repeat_length.
  rewrite drop_ge by now rewrite repeat_length.
  rewrite app_nil_r. change (N.to_nat 1) with 1%nat.
  rewrite <- (map_nth_seq (fun v => (inject_Z v / 32768)%Q) 0 a).
  apply map_ext. intros i. now rewrite Nat.mul_1_r, Nat.add_0_r.
Qed.

Lemma float_to_int16_range (inputData : list Q) :
  Forall (fun v => -32768 <= v <= 32767) (float_to_int16 inputData).
Proof.
  unfold float_to_int16. apply List.Forall_map, List.Forall_forall.
  intros x _. apply ToInt16_range.
Qed.

(** What the playback path recovers from a captured frame. *)
Lemma fromPCM16_toPCM16 (x : list Q) :
  x <> [] ->
  fromPCM16 (toPCM16 x)
  = Ok (map (fun s => (inject_Z (ToInt16 (s * 32768)) / 32768)%Q) x).
Proof.
  intros Hne. unfold fromPCM16, toPCM16.
  rewrite decodeAudioData_mono.
  - cbn [bind channels nth]. unfold float_to_int16. now rewrite map_map.
  - destruct x; [contradiction|discriminate].
  - apply float_to_int16_range.
Qed.

(** C6 (amended). For every non-empty buffer of samples in [-1, 1), the
    buffer is recovered and every recovered sample differs from the
    original by at most 1/32768.  The sample 1.0 is excluded: it is
    converted to 32768, which wraps to -32768. *)
Theorem C6_pcm_roundtrip_below_one (x : list Q) :
  x <> [] ->
  Forall (fun s => (-1 <= s)%Q /\ (s < 1)%Q) x ->
  exists y, fromPCM16 (toPCM16 x) = Ok y /\ Forall2 within_step x y.
Proof.
  intros Hne Hx. eexists. split; [apply fromPCM16_toPCM16, Hne|].
  clear Hne. induction Hx as [|s x [Hlo Hhi] _ IH]; cbn [map].
  - constructor.
  - constructor; [apply ToInt16_scaled; assumption|exact IH].
Qed.

Lemma C6_pcm_roundtrip_below_one_witness :
  exists y, fromPCM16 (toPCM16 [(1 # 3)%Q; (-1)%Q; (32767 # 32768)%Q]) = Ok y
            /\ Forall2 within_step [(1 # 3)%Q; (-1)%Q; (32767 # 32768)%Q] y.
Proof.
  apply C6_pcm_roundtrip_below_one; [discriminate|].
  repeat constructor; unfold Qle, Qlt; cbn; lia.
Defined.

(** C6 as stated fails at the sample 1.0: it comes back as -1.0, two whole
    units away. *)
Lemma C6_counterexample :
  Forall (fun s => (-1 <= s)%Q /\ (s <= 1)%Q) [1%Q]
  /\ fromPCM16 (toPCM16 [1%Q]) = Ok [(-32768 # 32768)%Q]
  /\ ~ within_step 1%Q (-32768 # 32768)%Q.
Proof.
  split; [|split].
  - repeat constructor; unfold Qle; cbn; lia.
  - reflexivity.
  - unfold within_step, Qle. cbn. lia.
Qed.

(** ** Teardown *)

Local Close Scope Z_scope.
Local Open Scope nat_scope.

Lemma continues_refl (ns : list SourceNode) : continues ns ns.
Proof. induction ns; constructor; auto. Qed.

Lemma continues_trans (ns1 ns2 ns3 : list SourceNode) :
  continues ns1 ns2 -> continues ns2 ns3 -> continues ns1 ns3.
Proof.
  intros H12. revert ns3.
  induction H12 as [|a b ns1 ns2 [Hs Hc] _ IH]; intros ns3 H23;
    inversion H23 as [|? c ? ns3' [Hs' Hc'] H23']; subst; constructor.
  - split; [congruence|auto].
  - apply IH, H23'.
Qed.

Lemma continues_lookup (ns ns' : list SourceNode) (i : nat) (a : SourceNode) :
  continues ns ns' -> ns !! i = Some a ->
  exists b, ns' !! i = Some b /\ slot a = slot b
            /\ (stopCalled a = true -> stopCalled b = true).
Proof.
  intros H Ha.
  destruct (Forall2_lookup_l _ _ _ _ _ H Ha) as (b & Hb & Hab).
  exists b. tauto.
Qed.

Lemma continues_slots (ns ns' : list SourceNode) :
  continues ns ns' -> map slot ns' = map slot ns.
Proof.
  induction 1 as [|a b ns ns' [Hs _] _ IH]; [reflexivity|].
  cbn [map]. now rewrite Hs, IH.
Qed.

Lemma continues_insert (ns : list SourceNode) (s : nat) (n : SourceNode) :
  ns !! s = Some n ->
  continues ns (<[ s := {| buffer := buffer n;
                           startTime := startTime n;
                           stopCalled := true |} ]> ns).
Proof.
  revert s. induction ns as [|a ns IH]; intros [|s] Hs; try discriminate.
  - injection Hs as ->. constructor; [split; [reflexivity|auto]|].
    apply continues_refl.
  - constructor; [auto|]. apply IH, Hs.
Qed.

(** [s.stop()] touches nothing but the node store, which it continues. *)
Lemma stop_node_spec (s : nat) (st : App) :
  match stop_node s st with
  | Returns st' =>
      exists n, nodes st !! s = Some n /\ is_Some (startTime n)
                /\ st' = set_nodes (<[ s := {| buffer := buffer n;
                                               startTime := startTime n;
                                               stopCalled := true |} ]>
                                      (nodes st)) st
  | Throws _ st' =>
      st' = st
      /\ ~ exists n, nodes st !! s = Some n /\ is_Some (startTime n)
  end.
Proof.
  unfold stop_node.
  destruct (nodes st !! s) as [n|] eqn:Hn.
  - destruct (startTime n) as [t|] eqn:Ht.
    + exists n. rewrite Ht. eauto.
    + split; [reflexivity|]. intros (n' & Hn' & Hs).
      injection Hn' as <-. rewrite Ht in Hs. destruct Hs; discriminate.
  - split; [reflexivity|]. intros (n' & Hn' & _). discriminate.
Qed.

Lemma set_nodes_id (st : App) : set_nodes (nodes st) st = st.
Proof. now destruct st. Qed.

(** The [forEach] loop of [stopSession]; whether it throws or not, it
    touches nothing but the node store, which it continues. *)
Lemma forEach_stop_frame (sources : list nat) (st : App) :
  exists ns, state_of (forEach_stop sources st) = set_nodes ns st
             /\ continues (nodes st) ns.
Proof.
  revert st. induction sources as [|s sources IH]; intros st.
  - exists (nodes st). cbn. split; [now rewrite set_nodes_id|].
    apply continues_refl.
  - cbn [forEach_stop].
    pose proof (stop_node_spec s st) as Hs.
    destruct (stop_node s st) as [st'|e st'].
    + destruct Hs as (n & Hn & _ & ->).
      destruct (IH (set_nodes (<[ s := {| buffer := buffer n;
                                          startTime := startTime n;
                                          stopCalled := true |} ]>
                                 (nodes st)) st)) as (ns & Hst & Hns).
      exists ns. split; [exact Hst|].
      eapply continues_trans; [apply continues_insert, Hn|exact Hns].
    + destruct Hs as [-> _]. exists (nodes st).
      cbn. split; [now rewrite set_nodes_id|]. apply continues_refl.
Qed.

(** When every source was started the loop returns, and every source it
    visited has been stopped. *)
Lemma forEach_stop_started (sources : list nat) (st : App) :
  (forall s, In s sources ->
     exists n, nodes st !! s = Some n /\ is_Some (startTime n)) ->
  exists ns,
    forEach_stop sources st = Returns (set_nodes ns st)
    /\ continues (nodes st) ns
    /\ forall s, In s sources ->
         exists n, ns !! s = Some n /\ stopCalled n = true.
Proof.
  revert st. induction sources as [|s sources IH]; intros st Hall.
  - exists (nodes st). cbn. rewrite set_nodes_id.
    split; [reflexivity|]. split; [apply continues_refl|]. intros s [].
  - cbn [forEach_stop].
    pose proof (stop_node_spec s st) as Hs.
    destruct (stop_node s st) as [st'|e st'].
    + destruct Hs as (n & Hn & _ & ->).
      pose proof (continues_insert (nodes st) s n Hn) as Hcont.
      destruct (IH (set_nodes (<[ s := {| buffer := buffer n;
                                          startTime := startTime n;
                                          stopCalled := true |} ]>
                                 (nodes st)) st)) as (ns & Hst & Hns & Hstopped).
      { intros s' Hs'. destruct (Hall s' (or_intror Hs')) as (n' & Hn' & Hst').
        destruct (continues_lookup _ _ _ _ Hcont Hn') as (b & Hb & Hslot & _).
        exists b. split; [exact Hb|].
        injection Hslot as Hstart _. now rewrite <- Hstart. }
      exists ns. split; [exact Hst|].
      split; [eapply continues_trans; eassumption|].
      intros s' [<-|Hs']; [|auto].
      assert (<[ s := {| buffer := buffer n; startTime := startTime n;
                         stopCalled := true |} ]> (nodes st) !! s
              = Some {| buffer := buffer n; startTime := startTime n;
                        stopCalled := true |}) as Hnew.
      { apply list_lookup_insert_eq. eapply lookup_lt_Some, Hn. }
      destruct (continues_lookup _ _ _ _ Hns Hnew) as (b & Hb & _ & Hstop).
      exists b. split; [exact Hb|]. apply Hstop. reflexivity.
    + exfalso. destruct Hs as [_ Hs]. apply Hs, Hall. now left.
Qed.

Lemma disconnect_playback (p : option nat) (st : App) :
  same_playback st (disconnect p st).
Proof. destruct p; repeat split. Qed.

Lemma close_context_playback (c : option nat) (st : App) :
  same_playback st (close_context c st).
Proof.
  unfold close_context.
  destruct c as [c|]; [|repeat split].
  destruct (contexts st !! c) as [[|]|]; repeat split.
Qed.

Lemma close_session_playback (t : option nat) (st : App) :
  same_playback st (close_session t st).
Proof. destruct t; repeat split. Qed.

(** Whether it throws or not, [stopSession] leaves the playback cursor
    alone and continues the node store. *)
Lemma stopSession_frame (st : App) :
  nextStartTimeRef (state_of (stopSession st)) = nextStartTimeRef st
  /\ continues (nodes st) (nodes (state_of (stopSession st))).
Proof.
  unfold stopSession.
  set (st1 := setStatus _ (setIsRecording false st)).
  set (st2 := disconnect _ st1).
  set (st3 := close_context _ st2).
  set (st4 := close_context _ st3).
  destruct (disconnect_playback (scriptProcessorRef st1) st1) as (Hn2 & _ & Hc2).
  destruct (close_context_playback (inputAudioContextRef st2) st2)
    as (Hn3 & _ & Hc3).
  destruct (close_context_playback (outputAudioContextRef st3) st3)
    as (Hn4 & _ & Hc4).
  fold st2 in Hn2, Hc2. fold st3 in Hn3, Hc3. fold st4 in Hn4, Hc4.
  assert (nodes st4 = nodes st) as Hn by (rewrite Hn4, Hn3, Hn2; reflexivity).
  assert (nextStartTimeRef st4 = nextStartTimeRef st) as Hc
    by (rewrite Hc4, Hc3, Hc2; reflexivity).
  destruct (forEach_stop_frame (elements (sourcesRef st4)) st4)
    as (ns & Hst & Hns).
  rewrite Hn in Hns.
  destruct (forEach_stop (elements (sourcesRef st4)) st4) as [st5|e st5];
    cbn [state_of] in Hst; subst st5.
  - cbn [state_of].
    destruct (close_session_playback
                (sessionRef (set_sourcesRef ∅ (set_nodes ns st4)))
                (set_sourcesRef ∅ (set_nodes ns st4))) as (Hn6 & _ & Hc6).
    cbn [set_sessionRef nodes nextStartTimeRef].
    rewrite Hn6, Hc6. cbn. rewrite Hc. split; [reflexivity|exact Hns].
  - cbn. rewrite Hc. split; [reflexivity|exact Hns].
Qed.

(** From a state whose sources were all started, [stopSession] returns;
    it has stopped every source, emptied the set and kept the cursor. *)
Lemma stopSession_started (st : App) :
  sources_started st ->
  exists st',
    stopSession st = Returns st'
    /\ sourcesRef st' = ∅
    /\ nextStartTimeRef st' = nextStartTimeRef st
    /\ continues (nodes st) (nodes st')
    /\ forall s, s ∈ sourcesRef st ->
         exists n, nodes st' !! s = Some n /\ stopCalled n = true.
Proof.
  intros Hstarted. unfold stopSession.
  set (st1 := setStatus _ (setIsRecording false st)).
  set (st2 := disconnect _ st1).
  set (st3 := close_context _ st2).
  set (st4 := close_context _ st3).
  destruct (disconnect_playback (scriptProcessorRef st1) st1)
    as (Hn2 & Hs2 & Hc2).
  destruct (close_context_playback (inputAudioContextRef st2) st2)
    as (Hn3 & Hs3 & Hc3).
  destruct (close_context_playback (outputAudioContextRef st3) st3)
    as (Hn4 & Hs4 & Hc4).
  fold st2 in Hn2, Hs2, Hc2. fold st3 in Hn3, Hs3, Hc3.
  fold st4 in Hn4, Hs4, Hc4.
  assert (nodes st4 = nodes st) as Hn by (rewrite Hn4, Hn3, Hn2; reflexivity).
  assert (sourcesRef st4 = sourcesRef st) as Hs
    by (rewrite Hs4, Hs3, Hs2; reflexivity).
  assert (nextStartTimeRef st4 = nextStartTimeRef st) as Hc
    by (rewrite Hc4, Hc3, Hc2; reflexivity).
  destruct (forEach_stop_started (elements (sourcesRef st4)) st4)
    as (ns & -> & Hns & Hstopped).
  { intros s Hin. rewrite Hn. apply Hstarted.
    rewrite Hs in Hin. apply elem_of_elements, list_elem_of_In, Hin. }
  eexists. split; [reflexivity|].
  destruct (close_session_playback
              (sessionRef (set_sourcesRef ∅ (set_nodes ns st4)))
              (set_sourcesRef ∅ (set_nodes ns st4))) as (Hn6 & Hs6 & Hc6).
  cbn [set_sessionRef nodes nextStartTimeRef sourcesRef].
  rewrite Hn6, Hs6, Hc6. cbn.
  split; [reflexivity|]. split; [exact Hc|].
  rewrite Hn in Hns. split; [exact Hns|].
  intros s Hin. apply Hstopped.
  rewrite Hs. apply list_elem_of_In, elem_of_elements, Hin.
Qed.

Lemma settle_playback (c : completion) : same_playback (state_of c) (settle c).
Proof. destruct c; repeat split. Qed.

Lemma settle_stopSession_frame (st : App) :
  nextStartTimeRef (settle (stopSession st)) = nextStartTimeRef st
  /\ continues (nodes st) (nodes (settle (stopSession st))).
Proof.
  destruct (settle_playback (stopSession st)) as (Hn & _ & Hc).
  destruct (stopSession_frame st) as [Hc' Hn'].
  rewrite Hn, Hc. split; assumption.
Qed.

(** ** The playback scheduler *)

Lemma Math_max_l (a b : Q) : (a <= Math_max a b)%Q.
Proof.
  unfold Math_max. destruct (Qle_bool a b) eqn:H.
  - now apply Qle_bool_iff.
  - apply Qle_refl.
Qed.

Lemma Math_max_r (a b : Q) : (b <= Math_max a b)%Q.
Proof.
  unfold Math_max. destruct (Qle_bool a b) eqn:H.
  - apply Qle_refl.
  - destruct (Qlt_le_dec b a) as [Hlt|Hle].
    + now apply Qlt_le_weak.
    + apply Qle_bool_iff in Hle. congruence.
Qed.

Lemma Math_max_cases (a b : Q) : Math_max a b = a \/ Math_max a b = b.
Proof. unfold Math_max. destruct (Qle_bool a b); auto. Qed.

Lemma duration_nonneg (b : AudioBuffer) : (0 <= duration b)%Q.
Proof. unfold duration, Qle. cbn. lia. Qed.

(** Every event other than a server message leaves the cursor alone and
    continues the node store. *)
Lemma step_frame (e : event) (st : App) :
  (forall now message, e <> ServerMessage now message) ->
  nextStartTimeRef (step e st) = nextStartTimeRef st
  /\ continues (nodes st) (nodes (step e st)).
Proof.
  intros He.
  assert (forall st' : App,
            nextStartTimeRef st' = nextStartTimeRef st ->
            nodes st' = nodes st ->
            nextStartTimeRef st' = nextStartTimeRef st
            /\ continues (nodes st) (nodes st')) as Hsame.
  { intros st' Hc Hn. rewrite Hn. split; [exact Hc|apply continues_refl]. }
  destruct e as [| | |text date|t|t| | |clock message| | |inputData|source];
    cbn [step].
  - unfold click, toggleRecording, startSession.
    destruct (isLoading st); [now apply Hsame|].
    destruct (isRecording st); [apply settle_stopSession_frame|].
    destruct (sessionRef st); now apply Hsame.
  - unfold startSession. destruct (sessionRef st); now apply Hsame.
  - apply settle_stopSession_frame.
  - unfold processResponse.
    destruct (match_json_block text); [|now apply Hsame].
    destruct (JSON.parse _); now apply Hsame.
  - destruct (transports st !! t) as [[| | |]|]; now apply Hsame.
  - destruct (transports st !! t) as [[| | |]|]; now apply Hsame.
  - destruct (micPending st); now apply Hsame.
  - destruct (micPending st); now apply Hsame.
  - exfalso. exact (He clock message eq_refl).
  - unfold onerror.
    apply (settle_stopSession_frame
             (setStatus "Connection error" (console_log "Session error" st))).
  - unfold onclose.
    apply (settle_stopSession_frame (console_log "Session closed" st)).
  - destruct (scriptProcessorRef st) as [p|]; [|now apply Hsame].
    destruct (processors st !! p) as [[|]|]; try now apply Hsame.
    unfold onaudioprocess.
    destruct (encode _); [|now apply Hsame].
    destruct (sessionRef st); now apply Hsame.
  - now apply Hsame.
Qed.

(** What a server message does to the cursor and to the node store. *)
Lemma onmessage_cases (now : Q) (message : LiveServerMessage) (st : App) :
  let start := Math_max (nextStartTimeRef st) now in
  (onmessage now message st = st)
  \/ (nextStartTimeRef (onmessage now message st) = start
      /\ nodes (onmessage now message st) = nodes st
      /\ sourcesRef (onmessage now message st) = sourcesRef st)
  \/ (exists buf,
        nextStartTimeRef (onmessage now message st)
        = (start + duration buf)%Q
        /\ nodes (onmessage now message st)
           = nodes st ++ [{| buffer := buf; startTime := Some start;
                             stopCalled := false |}]
        /\ sourcesRef (onmessage now message st)
           = sourcesRef st ∪ {[ length (nodes st) ]}).
Proof.
  intros start. unfold onmessage.
  destruct (audioData message) as [[|c data]|]; auto.
  destruct (outputAudioContextRef st) as [ctx|]; auto.
  destruct (bind (decode (c :: data)) _) as [buf|e].
  - right; right. exists buf. repeat split.
  - right; left. repeat split.
Qed.

(** The cursor never moves backwards. *)
Lemma step_cursor (e : event) (st : App) :
  (nextStartTimeRef st <= nextStartTimeRef (step e st))%Q.
Proof.
  destruct e as [| | |text date|t|t| | |clock message| | |inputData|source];
    try (match goal with
         | |- context [step ?e _] =>
             destruct (step_frame e st ltac:(discriminate)) as [-> _]
         end; apply Qle_refl).
  cbn [step].
  destruct (onmessage_cases clock message st)
    as [->|[(-> & _)|(buf & -> & _)]].
  - apply Qle_refl.
  - apply Math_max_l.
  - pose proof (Math_max_l (nextStartTimeRef st) clock).
    pose proof (duration_nonneg buf). lra.
Qed.

(** C9. The playback cursor is non-decreasing: no event moves it
    backwards, hence neither does any sequence of events, within a session
    or across sessions. *)
Theorem C9_cursor_monotone (trace : list event) (st : App) :
  (nextStartTimeRef st <= nextStartTimeRef (run trace st))%Q.
Proof.
  revert st. induction trace as [|e trace IH]; intros st; cbn.
  - apply Qle_refl.
  - eapply Qle_trans; [apply step_cursor|apply IH].
Qed.

Lemma continues_lookup_r (ns ns' : list SourceNode) (i : nat) (b : SourceNode) :
  continues ns ns' -> ns' !! i = Some b ->
  exists a, ns !! i = Some a /\ startTime a = startTime b
            /\ buffer a = buffer b.
Proof.
  intros H Hb.
  destruct (Forall2_lookup_r _ _ _ _ _ H Hb) as (a & Ha & Hab & _).
  exists a. split; [exact Ha|]. now injection Hab.
Qed.

(** The timeline: every node ends by the cursor and nodes do not overlap.
    It only depends on the slots of the nodes. *)
Lemma timeline_continues (c : Q) (ns ns' : list SourceNode) :
  continues ns ns' ->
  ends_by c ns /\ no_overlap ns -> ends_by c ns' /\ no_overlap ns'.
Proof.
  intros Hcont [Hends Hno]. split.
  - intros i b Hb.
    destruct (continues_lookup_r _ _ _ _ Hcont Hb) as (a & Ha & Hs & Hbuf).
    rewrite <- Hs, <- Hbuf. eapply Hends, Ha.
  - intros i j a' b' Hij Ha' Hb'.
    destruct (continues_lookup_r _ _ _ _ Hcont Ha') as (a & Ha & Hsa & Hba).
    destruct (continues_lookup_r _ _ _ _ Hcont Hb') as (b & Hb & Hsb & Hbb).
    rewrite <- Hsa, <- Hba, <- Hsb. eapply Hno; eassumption.
Qed.

(** Scheduling one more buffer at or after the cursor keeps the
    timeline. *)
Lemma timeline_append (c start : Q) (buf : AudioBuffer)
  (ns : list SourceNode) :
  (c <= start)%Q ->
  ends_by c ns /\ no_overlap ns ->
  let new := {| buffer := buf; startTime := Some start;
                stopCalled := false |} in
  ends_by (start + duration buf) (ns ++ [new]) /\ no_overlap (ns ++ [new]).
Proof.
  intros Hc [Hends Hno] new.
  pose proof (duration_nonneg buf) as Hdur.
  split.
  - intros i a Ha. apply lookup_app_Some in Ha as [Ha|[_ Ha]].
    + destruct (Hends i a Ha) as (s & Hs & Hle).
      exists s. split; [exact Hs|]. lra.
    + destruct (i - length ns) as [|k]; [|discriminate].
      injection Ha as <-. exists start. split; [reflexivity|]. apply Qle_refl.
  - intros i j a b Hij Ha Hb.
    apply lookup_app_Some in Hb as [Hb|[Hlen Hb]].
    + assert (ns !! i = Some a) as Ha'.
      { apply lookup_app_Some in Ha as [Ha|[Hlen _]]; [exact Ha|].
        apply lookup_lt_Some in Hb. lia. }
      eapply Hno; eassumption.
    + destruct (j - length ns) as [|k] eqn:Hj; [|discriminate].
      injection Hb as <-.
      apply lookup_app_Some in Ha as [Ha|[Hlen' _]]; [|lia].
      destruct (Hends i a Ha) as (s & Hs & Hle).
      exists s, start. split; [exact Hs|]. split; [reflexivity|]. lra.
Qed.

Lemma step_timeline (e : event) (st : App) :
  ends_by (nextStartTimeRef st) (nodes st) /\ no_overlap (nodes st) ->
  ends_by (nextStartTimeRef (step e st)) (nodes (step e st))
  /\ no_overlap (nodes (step e st)).
Proof.
  intros Hinv.
  destruct e as [| | |text date|t|t| | |clock message| | |inputData|source];
    try (match goal with
         | |- context [step ?e _] =>
             destruct (step_frame e st ltac:(discriminate)) as [-> Hcont]
         end; eapply timeline_continues; eassumption).
  cbn [step].
  destruct (onmessage_cases clock message st)
    as [->|[(-> & -> & _)|(buf & -> & -> & _)]].
  - exact Hinv.
  - destruct Hinv as [Hends Hno]. split; [|exact Hno].
    intros i a Ha. destruct (Hends i a Ha) as (s & Hs & Hle).
    exists s. split; [exact Hs|].
    pose proof (Math_max_l (nextStartTimeRef st) clock). lra.
  - apply (timeline_append (nextStartTimeRef st)); [apply Math_max_l|exact Hinv].
Qed.

Lemma run_timeline (trace : list event) (st : App) :
  ends_by (nextStartTimeRef st) (nodes st) /\ no_overlap (nodes st) ->
  ends_by (nextStartTimeRef (run trace st)) (nodes (run trace st))
  /\ no_overlap (nodes (run trace st)).
Proof.
  revert st. induction trace as [|e trace IH]; intros st Hinv; cbn.
  - exact Hinv.
  - apply IH, step_timeline, Hinv.
Qed.

(** C1. When a server message carries audio that decodes to a buffer, the
    buffer is scheduled at the maximum of the playback cursor and the
    clock reading, and the cursor moves to that start time plus the
    duration of the buffer.  Consequently, in every state the component
    can reach, no scheduled buffer starts before an earlier one has
    ended. *)
Theorem C1_schedule_no_overlap :
  (forall (st : App) (clock : Q) (message : LiveServerMessage)
          (data : js_string) (ctx : nat) (buf : AudioBuffer),
      audioData message = Some data ->
      outputAudioContextRef st = Some ctx ->
      (let? bytes := decode data in decodeAudioData bytes 24000 1) = Ok buf ->
      let start := Math_max (nextStartTimeRef st) clock in
      let st' := onmessage clock message st in
      ((nextStartTimeRef st <= start)%Q /\ (clock <= start)%Q
       /\ (start = nextStartTimeRef st \/ start = clock))
      /\ nodes st' = nodes st ++ [{| buffer := buf; startTime := Some start;
                                     stopCalled := false |}]
      /\ nextStartTimeRef st' = (start + duration buf)%Q)
  /\ (forall trace : list event, no_overlap (nodes (run trace initial))).
Proof.
  split.
  - intros st clock message data ctx buf Hdata Hctx Hbuf start st'.
    split.
    { split; [apply Math_max_l|]. split; [apply Math_max_r|].
      apply Math_max_cases. }
    subst st'. unfold onmessage. rewrite Hdata, Hctx.
    destruct data as [|c data]; [discriminate|].
    cbn [set_nextStartTimeRef nextStartTimeRef nodes]. rewrite Hbuf.
    split; reflexivity.
  - intros trace. apply (run_timeline trace initial).
    split.
    + intros i a Ha. discriminate.
    + intros i j a b _ Ha. discriminate.
Qed.

Lemma C1_schedule_no_overlap_witness :
  let st := run [Click; ConnectResolved 0; MicGranted] initial in
  let st' := onmessage (1 # 2) (audio (lit "AAAAAA==")) st in
  exists buf,
    nodes st' = [{| buffer := buf; startTime := Some (1 # 2)%Q;
                    stopCalled := false |}]
    /\ nextStartTimeRef st' = ((1 # 2) + duration buf)%Q.
Proof.
  intros st st'.
  exists {| numberOfChannels := 1; frames := 2; sampleRate := 24000;
            channels := [[(0 # 1) / 32768; (0 # 1) / 32768]%Q] |}.
  exact (proj2
           (proj1 C1_schedule_no_overlap st (1 # 2)%Q
              (audio (lit "AAAAAA==")) (lit "AAAAAA==") 1%nat
              {| numberOfChannels := 1; frames := 2; sampleRate := 24000;
                 channels := [[(0 # 1) / 32768; (0 # 1) / 32768]%Q] |}
              eq_refl eq_refl eq_refl)).
Defined.

(** ** Started sources *)

Lemma sources_started_same (st st' : App) :
  nodes st' = nodes st -> sourcesRef st' = sourcesRef st ->
  sources_started st -> sources_started st'.
Proof. intros Hn Hs H s. rewrite Hn, Hs. apply H. Qed.

Lemma sources_started_stop (st : App) :
  sources_started st -> sources_started (settle (stopSession st)).
Proof.
  intros H. destruct (stopSession_started st H) as (st' & -> & Hs & _).
  cbn [settle]. intros s. rewrite Hs. intros Hin.
  now apply not_elem_of_empty in Hin.
Qed.

Lemma step_sources_started (e : event) (st : App) :
  sources_started st -> sources_started (step e st).
Proof.
  intros H.
  destruct e as [| | |text date|t|t| | |clock message| | |inputData|source];
    cbn [step].
  - unfold click, toggleRecording, startSession.
    destruct (isLoading st); [exact H|].
    destruct (isRecording st); [now apply sources_started_stop|].
    destruct (sessionRef st); [exact H|]. revert H.
    now apply sources_started_same.
  - unfold startSession. destruct (sessionRef st); [exact H|]. revert H.
    now apply sources_started_same.
  - now apply sources_started_stop.
  - unfold processResponse. revert H.
    destruct (match_json_block text); [|now apply sources_started_same].
    destruct (JSON.parse _); now apply sources_started_same.
  - revert H.
    destruct (transports st !! t) as [[| | |]|]; now apply sources_started_same.
  - revert H.
    destruct (transports st !! t) as [[| | |]|]; now apply sources_started_same.
  - revert H. destruct (micPending st); now apply sources_started_same.
  - revert H. destruct (micPending st); now apply sources_started_same.
  - destruct (onmessage_cases clock message st)
      as [->|[(_ & Hn & Hs)|(buf & _ & Hn & Hs)]].
    + exact H.
    + revert H. now apply sources_started_same.
    + intros s. rewrite Hn, Hs. intros [Hin|Hin]%elem_of_union.
      * destruct (H s Hin) as (n & Hlook & Hstart).
        exists n. split; [|exact Hstart].
        apply lookup_app_l_Some, Hlook.
      * apply elem_of_singleton in Hin as ->.
        eexists. split; [apply list_lookup_middle; reflexivity|].
        cbn. eauto.
  - unfold onerror. apply sources_started_stop. revert H.
    now apply sources_started_same.
  - unfold onclose. apply sources_started_stop. revert H.
    now apply sources_started_same.
  - revert H.
    destruct (scriptProcessorRef st) as [p|]; [|now apply sources_started_same].
    destruct (processors st !! p) as [[|]|];
      try now apply sources_started_same.
    unfold onaudioprocess.
    destruct (encode _); [|now apply sources_started_same].
    destruct (sessionRef st); now apply sources_started_same.
  - intros s Hin. cbn in Hin. apply elem_of_difference in Hin as [Hin _].
    apply (H s Hin).
Qed.

Lemma run_sources_started (trace : list event) (st : App) :
  sources_started st -> sources_started (run trace st).
Proof.
  revert st. induction trace as [|e trace IH]; intros st H; cbn.
  - exact H.
  - apply IH, step_sources_started, H.
Qed.

Lemma initial_sources_started : sources_started initial.
Proof. intros s Hin. now apply not_elem_of_empty in Hin. Qed.

(** Repeated teardown from a state whose sources were all started. *)
Lemma stopSession_times_started (n : nat) (st : App) :
  sources_started st ->
  exists st',
    stopSession_times (S n) st = Returns st'
    /\ sourcesRef st' = ∅
    /\ nextStartTimeRef st' = nextStartTimeRef st
    /\ continues (nodes st) (nodes st')
    /\ forall s, s ∈ sourcesRef st ->
         exists node, nodes st' !! s = Some node /\ stopCalled node = true.
Proof.
  revert st. induction n as [|n IH]; intros st H.
  - destruct (stopSession_started st H) as (st' & Hst & Hrest).
    exists st'. cbn. rewrite Hst. auto.
  - destruct (stopSession_started st H) as (st1 & Hst & Hs & Hc & Hn & Hstop).
    assert (sources_started st1) as H1.
    { intros s. rewrite Hs. intros Hin. now apply not_elem_of_empty in Hin. }
    destruct (IH st1 H1) as (st' & Hst' & Hs' & Hc' & Hn' & _).
    exists st'. split.
    { change (stopSession_times (S (S n)) st)
        with (match stopSession st with
              | Returns st => stopSession_times (S n) st
              | Throws e st => Throws e st
              end).
      now rewrite Hst. }
    split; [exact Hs'|]. split; [congruence|].
    split; [eapply continues_trans; eassumption|].
    intros s Hin. destruct (Hstop s Hin) as (node & Hnode & Hstopped).
    destruct (continues_lookup _ _ _ _ Hn' Hnode) as (b & Hb & _ & Hkeep).
    exists b. auto.
Qed.

(** C3 (amended). In every state the component can reach, any positive
    number of calls of [stopSession] in a row returns without throwing;
    afterwards every source that was in [sourcesRef] has been stopped, the
    set is empty, and the playback cursor has the value it had before:
    it is not reset. *)
Theorem C3_teardown_repeatable (trace : list event) (n : nat) :
  let st := run trace initial in
  exists st',
    stopSession_times (S n) st = Returns st'
    /\ (forall s, s ∈ sourcesRef st ->
          exists node, nodes st' !! s = Some node /\ stopCalled node = true)
    /\ sourcesRef st' = ∅
    /\ nextStartTimeRef st' = nextStartTimeRef st.
Proof.
  intros st.
  destruct (stopSession_times_started n st
              (run_sources_started trace initial initial_sources_started))
    as (st' & Hst & Hs & Hc & _ & Hstop).
  exists st'. auto.
Qed.

(** A second teardown closes audio contexts that are closed already: the
    two rejected promises are left unhandled, but nothing is thrown. *)
Lemma stopSession_twice_rejections :
  let st := run [Click; ConnectResolved 0; MicGranted] initial in
  exists st',
    stopSession_times 2 st = Returns st'
    /\ errors st' = [InvalidStateError; InvalidStateError].
Proof. eexists. split; [vm_compute; reflexivity|reflexivity]. Qed.

(** C3 as stated fails on the cursor: after one buffer of one frame was
    scheduled at time 0, teardown leaves the cursor at 1/24000. *)
Lemma C3_counterexample :
  let st := run [Click; ConnectResolved 0; MicGranted;
                 ServerMessage 0%Q (audio (lit "AAA="))] initial in
  exists st',
    stopSession st = Returns st'
    /\ nextStartTimeRef st' = (0 + (1 # 24000))%Q
    /\ ~ (nextStartTimeRef st' == 0)%Q.
Proof.
  eexists. split; [vm_compute; reflexivity|].
  split; [reflexivity|]. cbn. unfold Qeq. cbn. lia.
Qed.

Lemma C3_teardown_repeatable_witness :
  let st := run [Click; ConnectResolved 0; MicGranted;
                 ServerMessage 0%Q (audio (lit "AAA="))] initial in
  exists st',
    stopSession_times 3 st = Returns st'
    /\ (forall s, s ∈ sourcesRef st ->
          exists node, nodes st' !! s = Some node /\ stopCalled node = true)
    /\ sourcesRef st' = ∅
    /\ nextStartTimeRef st' = nextStartTimeRef st.
Proof.
  exact (C3_teardown_repeatable
           [Click; ConnectResolved 0; MicGranted;
            ServerMessage 0%Q (audio (lit "AAA="))] 2).
Defined.

(** ** Session start *)


(** Before the session is stored, every call opens one more connection. *)
Lemma startSession_not_stored (st : App) :
  sessionRef st = None ->
  transports (startSession st) = transports st ++ [Opening]
  /\ isLoading (startSession st) = true.
Proof.
  intros H. unfold startSession. rewrite H. split; reflexivity.
Qed.

(** A click that starts a session sets [isLoading], which disables the
    control until the connection is made or a [catch] block runs. *)
Lemma click_start_disables (st : App) :
  isLoading st = false -> isRecording st = false -> sessionRef st = None ->
  isLoading (click st) = true
  /\ transports (click st) = transports st ++ [Opening].
Proof.
  intros Hl Hr Hs. unfold click, toggleRecording, startSession.
  rewrite Hl, Hr, Hs. split; reflexivity.
Qed.


(** C8, at the failing input: the connection is made, then the microphone
    is refused.  The [catch] block only reports; the connection stays open
    and stored. *)
Lemma C8_transport_left_open :
  let st := run [CallStartSession; ConnectResolved 0; MicDenied] initial in
  transports st = [Open]
  /\ sessionRef st = Some 0
  /\ isRecording st = true
  /\ status st = "Microphone access denied"%string.
Proof. cbn. repeat split. Qed.

(** In the other order nothing is acquired: the microphone is only
    requested once the connection is made. *)
Lemma connect_refused_nothing_acquired :
  let st := run [CallStartSession; ConnectRejected 0] initial in
  transports st = [Failed] /\ streams st = 0 /\ micPending st = 0
  /\ sessionRef st = None.
Proof. cbn. repeat split. Qed.

(** ** The JSON reader has fuel enough *)

Module JSONFacts.
Import JSON.

Lemma skip_ws_length (s : js_string) : length (skip_ws s) <= length s.
Proof.
  induction s as [|c s IH]; cbn; [lia|].
  destruct (is_ws c); cbn; lia.
Qed.

Lemma parse_chars_length (s cs rest : js_string) :
  parse_chars s = Some (cs, rest) -> length rest < length s.
Proof.
  remember (length s) as n eqn:Hn. revert s cs rest Hn.
  induction n as [n IH] using lt_wf_ind. intros s cs rest Hn.
  assert (forall (c : N) (r : js_string),
             length r < n ->
             match parse_chars r with
             | Some (cs', rest') => Some (c :: cs', rest')
             | None => None
             end = Some (cs, rest) ->
             length rest < length r) as Hcons.
  { intros c r Hr. destruct (parse_chars r) as [[cs' rest']|] eqn:Hp;
      [|discriminate].
    intros [= _ <-]. eapply IH; [exact Hr|reflexivity|exact Hp]. }
  destruct s as [|c r]; cbn [parse_chars]; [discriminate|].
  cbn [length] in Hn.
  destruct (c =? 34)%N; [intros [= _ <-]; cbn; lia|].
  destruct (c =? 92)%N.
  - destruct r as [|e r']; [discriminate|]. cbn [length] in Hn.
    destruct (e =? 117)%N.
    + destruct r' as [|h1 [|h2 [|h3 [|h4 r'']]]]; try discriminate.
      cbn [length] in Hn.
      destruct (hex4 h1 h2 h3 h4); [|discriminate].
      intros H. apply Hcons in H; cbn [length]; lia.
    + destruct (escape e); [|discriminate].
      intros H. apply Hcons in H; cbn [length]; lia.
  - destruct (c <? 32)%N; [discriminate|].
    intros H. apply Hcons in H; cbn [length]; lia.
Qed.

Lemma take_digits_length (s ds rest : js_string) :
  take_digits s = (ds, rest) -> length rest <= length s.
Proof.
  revert ds rest. induction s as [|c s IH]; intros ds rest; cbn.
  - intros [= _ <-]. cbn. lia.
  - destruct (is_digit c).
    + destruct (take_digits s) as [ds' rest'].
      intros [= _ <-]. specialize (IH ds' rest' eq_refl). lia.
    + intros [= _ <-]. cbn. lia.
Qed.

Lemma take_sign_length (minus plus b : bool) (s rest : js_string) :
  take_sign minus plus s = (b, rest) -> length rest <= length s.
Proof.
  unfold take_sign. destruct s as [|c r].
  - intros [= _ <-]. cbn. lia.
  - destruct (minus && (c =? 45)%N); [intros [= _ <-]; cbn; lia|].
    destruct (plus && (c =? 43)%N); intros [= _ <-]; cbn; lia.
Qed.

Lemma parse_number_length (s rest : js_string) (v : json) :
  parse_number s = Some (v, rest) -> length rest <= length s.
Proof.
  unfold parse_number.
  destruct (take_sign true false s) as [neg s1] eqn:H1.
  apply take_sign_length in H1.
  destruct (parse_int s1) as [[ids s2]|] eqn:H2; [|discriminate].
  assert (length s2 <= length s1) as L2.
  { unfold parse_int in H2. destruct s1 as [|c r]; [discriminate|].
    destruct (c =? 48)%N; [injection H2 as _ <-; cbn; lia|].
    destruct (is_digit c); [|discriminate].
    injection H2 as H2. exact (take_digits_length (c :: r) ids s2 H2). }
  destruct (parse_frac s2) as [[fds s3]|] eqn:H3; [|discriminate].
  assert (length s3 <= length s2) as L3.
  { unfold parse_frac in H3. destruct s2 as [|c r].
    - injection H3 as _ <-. cbn. lia.
    - destruct (c =? 46)%N; [|injection H3 as _ <-; lia].
      destruct (take_digits r) as [[|d ds] rest'] eqn:Hd; [discriminate|].
      injection H3 as _ <-. apply take_digits_length in Hd. cbn. lia. }
  destruct (parse_exp s3) as [[e s4]|] eqn:H4; [|discriminate].
  assert (length s4 <= length s3) as L4.
  { unfold parse_exp in H4. destruct s3 as [|c r].
    - injection H4 as _ <-. cbn. lia.
    - destruct ((c =? 101)%N || (c =? 69)%N); [|injection H4 as _ <-; lia].
      destruct (take_sign true true r) as [eneg r'] eqn:Hs.
      apply take_sign_length in Hs.
      destruct (take_digits r') as [[|d ds] rest'] eqn:Hd; [discriminate|].
      injection H4 as _ <-. apply take_digits_length in Hd. cbn. lia. }
  intros [= _ <-]. lia.
Qed.

Lemma strip_prefix_length (p s rest : js_string) :
  strip_prefix p s = Some rest -> length rest <= length s.
Proof.
  revert s. induction p as [|a p IH]; intros s; cbn.
  - intros [= <-]. lia.
  - destruct s as [|b s]; [discriminate|].
    destruct (a =? b)%N; [|discriminate].
    intros H. apply IH in H. cbn. lia.
Qed.

Lemma parse_word_length (s rest : js_string) (v : json) :
  parse_word s = Some (v, rest) -> length rest <= length s.
Proof.
  unfold parse_word.
  destruct (strip_prefix (lit "true") s) eqn:H1;
    [intros [= _ <-]; now apply strip_prefix_length in H1|].
  destruct (strip_prefix (lit "false") s) eqn:H2;
    [intros [= _ <-]; now apply strip_prefix_length in H2|].
  destruct (strip_prefix (lit "null") s) eqn:H3;
    [intros [= _ <-]; now apply strip_prefix_length in H3|].
  apply parse_number_length.
Qed.


(** No reader returns more text than it was given. *)
Lemma parse_lengths (fuel : nat) :
  (forall s v rest,
      parse_value fuel s = Some (v, rest) -> length rest <= length s)
  /\ (forall s vs rest,
         parse_elements fuel s = Some (vs, rest) -> length rest <= length s)
  /\ (forall s ms rest,
         parse_members fuel s = Some (ms, rest) -> length rest <= length s).
Proof.
  induction fuel as [|fuel (IHv & IHe & IHm)];
    [repeat split; intros; discriminate|].
  repeat split.
  - intros s v rest. cbn [parse_value].
    destruct s as [|c r]; [discriminate|].
    destruct (c =? 123)%N.
    { pose proof (skip_ws_length r) as Hr.
      destruct (skip_ws r) as [|c' rest'] eqn:Hskip; [discriminate|].
      cbn [length] in Hr.
      destruct (c' =? 125)%N; [intros [= _ <-]; cbn; lia|].
      destruct (parse_members fuel r) as [[ms rest'']|] eqn:Hm;
        [|discriminate].
      intros [= _ <-]. apply IHm in Hm. cbn. lia. }
    destruct (c =? 91)%N.
    { pose proof (skip_ws_length r) as Hr.
      destruct (skip_ws r) as [|c' rest'] eqn:Hskip; [discriminate|].
      cbn [length] in Hr.
      destruct (c' =? 93)%N; [intros [= _ <-]; cbn; lia|].
      destruct (parse_elements fuel r) as [[vs rest'']|] eqn:He;
        [|discriminate].
      intros [= _ <-]. apply IHe in He. cbn. lia. }
    destruct (c =? 34)%N.
    { destruct (parse_chars r) as [[cs rest']|] eqn:Hc; [|discriminate].
      intros [= _ <-]. apply parse_chars_length in Hc. cbn. lia. }
    apply parse_word_length.
  - intros s vs rest. cbn [parse_elements].
    pose proof (skip_ws_length s) as Hs.
    destruct (parse_value fuel (skip_ws s)) as [[v r]|] eqn:Hv;
      [|discriminate].
    apply IHv in Hv. pose proof (skip_ws_length r) as Hr.
    destruct (skip_ws r) as [|c r'] eqn:Hskip; [discriminate|].
    cbn [length] in Hr.
    destruct (c =? 44)%N.
    { destruct (parse_elements fuel r') as [[vs' rest']|] eqn:He;
        [|discriminate].
      intros [= _ <-]. apply IHe in He. lia. }
    destruct (c =? 93)%N; [|discriminate].
    intros [= _ <-]. lia.
  - intros s ms rest. cbn [parse_members].
    pose proof (skip_ws_length s) as Hs.
    destruct (skip_ws s) as [|q r] eqn:Hskip; [discriminate|].
    cbn [length] in Hs.
    destruct (q =? 34)%N; [|discriminate].
    destruct (parse_chars r) as [[key r1]|] eqn:Hc; [|discriminate].
    apply parse_chars_length in Hc.
    pose proof (skip_ws_length r1) as Hr1.
    destruct (skip_ws r1) as [|colon r2] eqn:Hskip1; [discriminate|].
    cbn [length] in Hr1.
    destruct (colon =? 58)%N; [|discriminate].
    pose proof (skip_ws_length r2) as Hr2.
    destruct (parse_value fuel (skip_ws r2)) as [[v r3]|] eqn:Hv;
      [|discriminate].
    apply IHv in Hv. pose proof (skip_ws_length r3) as Hr3.
    destruct (skip_ws r3) as [|c r4] eqn:Hskip3; [discriminate|].
    cbn [length] in Hr3.
    destruct (c =? 44)%N.
    { destruct (parse_members fuel r4) as [[ms' rest']|] eqn:Hm;
        [|discriminate].
      intros [= _ <-]. apply IHm in Hm. lia. }
    destruct (c =? 125)%N; [|discriminate].
    intros [= _ <-]. lia.
Qed.

(** The three readers, one call unfolded. *)
Lemma parse_value_S (fuel : nat) (s : js_string) :
  parse_value (S fuel) s
  = match s with
     | [] => None
     | c :: r =>
         if (c =? 123)%N then
           match skip_ws r with
           | [] => None
           | c' :: rest =>
               if (c' =? 125)%N then Some (JObj [], rest)
               else
                 match parse_members fuel r with
                 | Some (ms, rest) => Some (JObj ms, rest)
                 | None => None
                 end
           end
         else if (c =? 91)%N then
           match skip_ws r with
           | [] => None
           | c' :: rest =>
               if (c' =? 93)%N then Some (JArr [], rest)
               else
                 match parse_elements fuel r with
                 | Some (vs, rest) => Some (JArr vs, rest)
                 | None => None
                 end
           end
         else if (c =? 34)%N then
           match parse_chars r with
           | Some (cs, rest) => Some (JStr cs, rest)
           | None => None
           end
         else parse_word s
     end.
Proof. reflexivity. Qed.

Lemma parse_elements_S (fuel : nat) (s : js_string) :
  parse_elements (S fuel) s
  = match parse_value fuel (skip_ws s) with
     | Some (v, r) =>
         match skip_ws r with
         | [] => None
         | c :: r' =>
             if (c =? 44)%N then
               match parse_elements fuel r' with
               | Some (vs, rest) => Some (v :: vs, rest)
               | None => None
               end
             else if (c =? 93)%N then Some ([v], r')
             else None
         end
     | None => None
     end.
Proof. reflexivity. Qed.

Lemma parse_members_S (fuel : nat) (s : js_string) :
  parse_members (S fuel) s
  = match skip_ws s with
     | [] => None
     | q :: r =>
         if (q =? 34)%N then
           match parse_chars r with
           | Some (key, r) =>
               match skip_ws r with
               | [] => None
               | colon :: r =>
                   if (colon =? 58)%N then
                     match parse_value fuel (skip_ws r) with
                     | Some (v, r) =>
                         match skip_ws r with
                         | [] => None
                         | c :: r' =>
                             if (c =? 44)%N then
                               match parse_members fuel r' with
                               | Some (ms, rest) =>
                                   Some ((key, v) :: ms, rest)
                               | None => None
                               end
                             else if (c =? 125)%N
                                  then Some ([(key, v)], r')
                                  else None
                         end
                     | None => None
                     end
                   else None
               end
           | None => None
           end
         else None
     end.
Proof. reflexivity. Qed.

(** One more unit of fuel changes nothing once the fuel exceeds twice the
    length of the text. *)
Lemma parse_fuel_step (fuel : nat) :
  (forall s, 2 * length s + 1 <= fuel ->
     parse_value (S fuel) s = parse_value fuel s)
  /\ (forall s, 2 * length s + 2 <= fuel ->
         parse_elements (S fuel) s = parse_elements fuel s)
  /\ (forall s, 2 * length s + 2 <= fuel ->
         parse_members (S fuel) s = parse_members fuel s).
Proof.
  induction fuel as [|fuel (IHv & IHe & IHm)];
    [repeat split; intros; lia|].
  destruct (parse_lengths fuel) as (Lv & _ & _).
  repeat split.
  - intros s Hs.
    rewrite (parse_value_S (S fuel) s), (parse_value_S fuel s).
    destruct s as [|c r]; [reflexivity|]. cbn [length] in Hs.
    rewrite (IHm r) by lia. rewrite (IHe r) by lia. reflexivity.
  - intros s Hs.
    rewrite (parse_elements_S (S fuel) s), (parse_elements_S fuel s).
    pose proof (skip_ws_length s) as Hskip.
    rewrite (IHv (skip_ws s)) by lia.
    destruct (parse_value fuel (skip_ws s)) as [[v r]|] eqn:Hv;
      [|reflexivity].
    apply Lv in Hv. pose proof (skip_ws_length r) as Hr.
    destruct (skip_ws r) as [|c r']; [reflexivity|]. cbn [length] in Hr.
    rewrite (IHe r') by lia. reflexivity.
  - intros s Hs.
    rewrite (parse_members_S (S fuel) s), (parse_members_S fuel s).
    pose proof (skip_ws_length s) as Hskip.
    destruct (skip_ws s) as [|q r]; [reflexivity|]. cbn [length] in Hskip.
    destruct (q =? 34)%N; [|reflexivity].
    destruct (parse_chars r) as [[key r1]|] eqn:Hc; [|reflexivity].
    apply parse_chars_length in Hc.
    pose proof (skip_ws_length r1) as Hr1.
    destruct (skip_ws r1) as [|colon r2]; [reflexivity|].
    cbn [length] in Hr1.
    destruct (colon =? 58)%N; [|reflexivity].
    pose proof (skip_ws_length r2) as Hr2.
    rewrite (IHv (skip_ws r2)) by lia.
    destruct (parse_value fuel (skip_ws r2)) as [[v r3]|] eqn:Hv;
      [|reflexivity].
    apply Lv in Hv. pose proof (skip_ws_length r3) as Hr3.
    destruct (skip_ws r3) as [|c r4]; [reflexivity|]. cbn [length] in Hr3.
    rewrite (IHm r4) by lia. reflexivity.
Qed.

Lemma parse_value_fuel (k fuel : nat) (s : js_string) :
  2 * length s + 1 <= fuel ->
  parse_value (k + fuel) s = parse_value fuel s.
Proof.
  intros Hs. induction k as [|k IH]; [reflexivity|].
  cbn [Nat.add]. rewrite <- IH.
  apply (proj1 (parse_fuel_step (k + fuel))). lia.
Qed.

(** [JSON.parse] does not run out of fuel: any larger amount gives the
    same answer. *)
Lemma parse_fuel_enough (fuel : nat) (text : js_string) :
  2 * length text + 2 <= fuel -> parse_with fuel text = parse text.
Proof.
  intros Hfuel. unfold parse, parse_with.
  pose proof (skip_ws_length text) as Hskip.
  replace fuel with ((fuel - (2 * length text + 2)) + (2 * length text + 2))
    by lia.
  rewrite parse_value_fuel by lia. reflexivity.
Qed.

(** A text that starts with an opening brace parses to an object or not at
    all, so that reading a member of the result cannot fail. *)
Lemma parse_brace_object (text : js_string) (v : json) :
  parse (123%N :: text) = Ok v -> exists fields, v = JObj fields.
Proof.
  unfold parse, parse_with. cbn [skip_ws is_ws N.eqb Pos.eqb orb].
  cbn [length Nat.mul Nat.add].
  match goal with
  | |- context [parse_value (S ?f) _] => generalize f
  end.
  intros f. cbn [parse_value N.eqb Pos.eqb].
  destruct (skip_ws text) as [|c' rest]; [discriminate|].
  destruct (c' =? 125)%N.
  - destruct (skip_ws rest); [|discriminate]. intros [= <-]. eauto.
  - destruct (parse_members f text) as [[ms rest']|]; [|discriminate].
    destruct (skip_ws rest'); [|discriminate]. intros [= <-]. eauto.
Qed.

End JSONFacts.

(** ** The response extractor *)

Lemma longest_closed_prefix_None (s : js_string) :
  longest_closed_prefix s = None <-> ~ In 125%N s.
Proof.
  induction s as [|c s IH]; cbn.
  - tauto.
  - destruct (longest_closed_prefix s) as [p|].
    + split; [discriminate|]. intros H. exfalso.
      assert (~ In 125%N s) as H' by tauto.
      apply IH in H'. discriminate.
    + destruct (N.eqb_spec c 125) as [->|Hc].
      * split; [discriminate|]. tauto.
      * split; [|reflexivity]. intros _ [H|H]; [congruence|].
        now apply IH in H.
Qed.

(** The pattern matches exactly the texts that hold an opening brace with
    a closing brace somewhere after it. *)
Lemma match_json_block_None (text : js_string) :
  match_json_block text = None <-> ~ has_brace_span text.
Proof.
  split.
  - intros Hnone (a & b & c & ->).
    induction a as [|x a IH]; cbn in Hnone.
    + destruct (longest_closed_prefix (b ++ 125%N :: c)) eqn:Hl;
        [discriminate|].
      apply longest_closed_prefix_None in Hl. apply Hl.
      apply in_or_app. right. now left.
    + destruct (N.eqb_spec x 123); [|auto].
      destruct (longest_closed_prefix (a ++ 123%N :: b ++ 125%N :: c)) eqn:Hl;
        [discriminate|].
      apply longest_closed_prefix_None in Hl. apply Hl.
      apply in_or_app. right. right. apply in_or_app. right. now left.
  - intros Hno. induction text as [|x text IH]; [reflexivity|]. cbn.
    assert (match_json_block text = None) as Hrest.
    { apply IH. intros (a & b & c & ->). apply Hno.
      exists (x :: a), b, c. reflexivity. }
    destruct (N.eqb_spec x 123) as [->|Hx]; [|exact Hrest].
    destruct (longest_closed_prefix text) eqn:Hl; [|exact Hrest].
    exfalso.
    assert (In 125%N text) as Hin.
    { destruct (in_dec N.eq_dec 125%N text) as [Hin|Hin]; [exact Hin|].
      apply longest_closed_prefix_None in Hin. congruence. }
    apply in_split in Hin as (b & c & ->).
    apply Hno. exists [], b, c. reflexivity.
Qed.

Lemma example_block :
  match_json_block example_transcript
  = Some (quoted "{'insight':'x','title':'t','chartType':'bar','data':[{'label':'A','value':1}]}").
Proof. vm_compute. reflexivity. Qed.

Lemma example_parsed :
  JSON.parse (quoted "{'insight':'x','title':'t','chartType':'bar','data':[{'label':'A','value':1}]}")
  = Ok (JObj [(lit "insight", JStr (lit "x"));
              (lit "title", JStr (lit "t"));
              (lit "chartType", JStr (lit "bar"));
              (lit "data",
               JArr [JObj [(lit "label", JStr (lit "A"));
                           (lit "value", JNum false 1 0)]])]).
Proof. vm_compute. reflexivity. Qed.

(** C4. On the example transcript the extractor stores a result whose
    title is "t" and puts an assistant message with content "x" in the
    log.  On a text without a brace-delimited span it puts an assistant
    message holding the whole text in the log and leaves the stored result
    as it was. *)
Theorem C4_extractor_examples :
  (forall (now : Z) (st : App),
      let st' := processResponse example_transcript now st in
      (exists result,
          lastResponse st' = Some result
          /\ get_property result (lit "title") = Some (JStr (lit "t")))
      /\ history st'
         = {| role := assistant; content := Some (JStr (lit "x"));
              timestamp := now |} :: history st)
  /\ (forall (text : js_string) (now : Z) (st : App),
         ~ has_brace_span text ->
         let st' := processResponse text now st in
         history st'
         = {| role := assistant; content := Some (JStr text);
              timestamp := now |} :: history st
         /\ lastResponse st' = lastResponse st).
Proof.
  split.
  - intros now st st'. subst st'. unfold processResponse.
    rewrite example_block, example_parsed. cbn [lastResponse history
      setStatus setHistory setLastResponse].
    split; [|reflexivity].
    eexists. split; [reflexivity|]. vm_compute. reflexivity.
  - intros text now st Hno st'. subst st'. unfold processResponse.
    apply match_json_block_None in Hno. rewrite Hno. split; reflexivity.
Qed.

Lemma C4_extractor_examples_witness :
  let st' := processResponse (lit "just a spoken reply") 7 initial in
  history st'
  = [{| role := assistant;
        content := Some (JStr (lit "just a spoken reply"));
        timestamp := 7 |}]
  /\ lastResponse st' = None.
Proof.
  exact (proj2 C4_extractor_examples (lit "just a spoken reply") 7%Z initial
           (proj1 (match_json_block_None (lit "just a spoken reply"))
                  eq_refl)).
Defined.

Lemma longest_closed_prefix_Some (s p : js_string) :
  longest_closed_prefix s = Some p ->
  exists b c, s = p ++ c /\ p = b ++ [125%N] /\ ~ In 125%N c.
Proof.
  revert p. induction s as [|x s IH]; intros p; cbn; [discriminate|].
  destruct (longest_closed_prefix s) as [q|] eqn:Hq.
  - intros [= <-]. destruct (IH q eq_refl) as (b & c & -> & -> & Hc).
    exists (x :: b), c. repeat split. exact Hc.
  - destruct (N.eqb_spec x 125) as [->|Hx]; [|discriminate].
    intros [= <-]. exists [], s. repeat split.
    now apply longest_closed_prefix_None.
Qed.

(** The matched block runs from the first opening brace of the text to its
    last closing brace. *)
Lemma match_json_block_span (text block : js_string) :
  match_json_block text = Some block ->
  exists a b c,
    text = a ++ block ++ c /\ block = 123%N :: b ++ [125%N]
    /\ ~ In 123%N a /\ ~ In 125%N c.
Proof.
  revert block. induction text as [|x text IH]; intros block; cbn;
    [discriminate|].
  assert (x <> 123%N ->
          match_json_block text = Some block ->
          exists a b c,
            x :: text = a ++ block ++ c /\ block = 123%N :: b ++ [125%N]
            /\ ~ In 123%N a /\ ~ In 125%N c) as Hskip.
  { intros Hx Hm. destruct (IH block Hm) as (a & b & c & -> & -> & Ha & Hc).
    exists (x :: a), b, c. repeat split; [|exact Hc].
    intros [H|H]; [congruence|contradiction]. }
  destruct (N.eqb_spec x 123) as [->|Hx]; [|now apply Hskip].
  destruct (longest_closed_prefix text) as [p|] eqn:Hp.
  - intros [= <-].
    destruct (longest_closed_prefix_Some text p Hp) as (b & c & -> & -> & Hc).
    exists [], b, c. repeat split; [tauto|exact Hc].
  - intros Hm. exfalso.
    destruct (proj1 (longest_closed_prefix_None text) Hp).
    destruct (IH block Hm) as (a & b & c & -> & -> & _).
    apply in_or_app. right. cbn. right.
    apply in_or_app. left. apply in_or_app. right. now left.
Qed.

(** The matched block starts with an opening brace, so what it parses to
    is an object and reading its [insight] member cannot fail. *)
Lemma matched_block_object (text block : js_string) (parsed : json) :
  match_json_block text = Some block ->
  JSON.parse block = Ok parsed ->
  exists fields, parsed = JObj fields.
Proof.
  intros Hblock Hparsed.
  destruct (match_json_block_span text block Hblock)
    as (_ & b & _ & _ & -> & _).
  eapply JSONFacts.parse_brace_object, Hparsed.
Qed.

(** C5 (amended). When the brace-delimited span of the text is not valid
    JSON, the extractor does not fail: it logs the failure and changes
    neither the conversation log nor the stored result, so no message is
    appended.  When the span is valid JSON it is stored as the result
    whatever its shape, and the new assistant message carries its
    [insight] member, which is undefined when there is none. *)
Theorem C5_extractor_parse_failure
  (text block : js_string) (now : Z) (st : App) :
  match_json_block text = Some block ->
  let st' := processResponse text now st in
  (forall e, JSON.parse block = Throw e ->
     st' = console_log "Failed to parse response" st
     /\ history st' = history st
     /\ lastResponse st' = lastResponse st)
  /\ (forall parsed, JSON.parse block = Ok parsed ->
        lastResponse st' = Some parsed
        /\ history st'
           = {| role := assistant;
                content := get_property parsed (lit "insight");
                timestamp := now |} :: history st).
Proof.
  intros Hblock st'. subst st'. unfold processResponse. rewrite Hblock.
  split.
  - intros e ->. repeat split.
  - intros parsed ->. repeat split.
Qed.

Lemma C5_extractor_parse_failure_witness :
  let st' := processResponse (lit "So: {oops}") 7 initial in
  st' = console_log "Failed to parse response" initial
  /\ history st' = []
  /\ lastResponse st' = None.
Proof.
  exact (proj1 (C5_extractor_parse_failure (lit "So: {oops}") (lit "{oops}")
                  7%Z initial eq_refl)
           SyntaxError eq_refl).
Defined.

(** C5 as stated fails both ways: a malformed span leaves the log empty,
    and a well-formed span of the wrong shape is stored as the result, with
    a message whose content is undefined. *)
Lemma C5_counterexample :
  (let text := lit "So: {oops}" in
   let st' := processResponse text 7 initial in
   match_json_block text = Some (lit "{oops}")
   /\ JSON.parse (lit "{oops}") = Throw SyntaxError
   /\ history st' = []
   /\ console st' = ["Failed to parse response"%string])
  /\ (let text := quoted "{'title':7}" in
      let st' := processResponse text 7 initial in
      match_json_block text = Some text
      /\ lastResponse st' = Some (JObj [(lit "title", JNum false 7 0)])
      /\ history st'
         = [{| role := assistant; content := None; timestamp := 7 |}]).
Proof. vm_compute. repeat split. Qed.

(** C10. The extractor never touches the entries already in the
    conversation log: the new log is the old one, possibly with one new
    message in front.  When the text has no brace-delimited span the
    stored result is left as it was. *)
Theorem C10_extractor_frame (text : js_string) (now : Z) (st : App) :
  let st' := processResponse text now st in
  (history st' = history st \/ exists m, history st' = m :: history st)
  /\ (~ has_brace_span text -> lastResponse st' = lastResponse st).
Proof.
  intros st'. subst st'. unfold processResponse. split.
  - destruct (match_json_block text) as [block|]; [|right; eexists; reflexivity].
    destruct (JSON.parse block); [right; eexists; reflexivity|left; reflexivity].
  - intros Hno. apply match_json_block_None in Hno. now rewrite Hno.
Qed.

Lemma C10_extractor_frame_witness :
  let st := processResponse example_transcript 3 initial in
  let st' := processResponse (lit "just a spoken reply") 7 st in
  (history st' = history st \/ exists m, history st' = m :: history st)
  /\ lastResponse st' = lastResponse st.
Proof.
  intros st st'.
  pose (H := C10_extractor_frame (lit "just a spoken reply") 7%Z st).
  split.
  - exact (proj1 H).
  - exact (proj2 H (proj1 (match_json_block_None (lit "just a spoken reply"))
                          eq_refl)).
Defined.

(** * Further properties *)

(** ** The PCM codec, all cases *)

Lemma list_ind2 {A : Type} (P : list A -> Prop) :
  P [] -> (forall x, P [x]) -> (forall x y l, P l -> P (x :: y :: l)) ->
  forall l, P l.
Proof.
  intros H0 H1 H2. fix IH 1.
  intros [|x [|y l]]; [apply H0 | apply H1 | apply H2, IH].
Qed.

Lemma length_int16_pairs (data : list byte) :
  length (int16_pairs data) = length data / 2.
Proof.
  induction data as [|x|x y l IH] using list_ind2; try reflexivity.
  cbn [int16_pairs length]. rewrite IH.
  change (S (S (length l))) with (1 * 2 + length l).
  rewrite Nat.div_add_l by lia. reflexivity.
Qed.

Lemma int16_of_bytes_range (lo hi : byte) :
  (-32768 <= int16_of_bytes lo hi <= 32767)%Z.
Proof.
  unfold int16_of_bytes.
  pose proof (Byte.to_N_bounded lo). pose proof (Byte.to_N_bounded hi).
  destruct (Z.leb_spec 32768
              (Z.of_N (Byte.to_N lo + 256 * Byte.to_N hi))); lia.
Qed.

Lemma int16_pairs_range (data : list byte) :
  Forall (fun v => (-32768 <= v <= 32767)%Z) (int16_pairs data).
Proof.
  induction data as [|x|x y l IH] using list_ind2; cbn [int16_pairs];
    constructor; [apply int16_of_bytes_range|exact IH].
Qed.

Lemma imap_repeat {A B : Type} (f : nat -> A -> B) (x : A) (n : nat) :
  imap f (repeat x n) = map (fun i => f i x) (seq 0 n).
Proof.
  revert f. induction n as [|n IH]; intros f; [reflexivity|].
  cbn [repeat seq map]. rewrite imap_cons. f_equal.
  rewrite IH, <- seq_shift, map_map. reflexivity.
Qed.

(** The sample of channel [channel] at frame [i]. *)
Lemma fill_channel_eq (dataInt16 : list Z) (numChannels : N)
  (frameCount channel : nat) :
  fill_channel dataInt16 numChannels (N.of_nat frameCount)
               (N.of_nat channel) (repeat 0%Q frameCount)
  = map (fun i =>
           (inject_Z (nth (i * N.to_nat numChannels + channel) dataInt16 0%Z)
            / 32768)%Q)
        (seq 0 frameCount).
Proof.
  unfold fill_channel. rewrite !Nat2N.id.
  rewrite fold_insert_prefix by now rewrite repeat_length.
  rewrite drop_ge by now rewrite repeat_length.
  apply app_nil_r.
Qed.

(** [decodeAudioData], case by case. *)
Lemma decodeAudioData_eq (data : list byte) (rate : positive)
  (numChannels : N) :
  let dataInt16 := int16_pairs data in
  let frameCount := length dataInt16 / N.to_nat numChannels in
  decodeAudioData data rate numChannels
  = if Nat.even (length data) then
      if ((numChannels =? 0) || (N.of_nat frameCount =? 0))%N
      then Throw NotSupportedError
      else Ok {| numberOfChannels := numChannels;
                 frames := N.of_nat frameCount;
                 sampleRate := rate;
                 channels :=
                   map (fun channel =>
                          map (fun i =>
                                 (inject_Z
                                    (nth (i * N.to_nat numChannels + channel)
                                         dataInt16 0%Z) / 32768)%Q)
                              (seq 0 frameCount))
                       (seq 0 (N.to_nat numChannels)) |}
    else Throw RangeError.
Proof.
  intros dataInt16 frameCount.
  unfold decodeAudioData, Int16Array_of_buffer.
  destruct (Nat.even (length data)); [|reflexivity].
  cbn [bind]. fold dataInt16.
  assert (N.of_nat (length dataInt16) / numChannels = N.of_nat frameCount)%N
    as ->.
  { unfold frameCount. rewrite Nat2N.inj_div, N2Nat.id. reflexivity. }
  unfold createBuffer.
  destruct ((numChannels =? 0) || (N.of_nat frameCount =? 0))%N;
    [reflexivity|].
  cbn [bind numberOfChannels frames sampleRate channels]. f_equal. f_equal.
  rewrite Nat2N.id, imap_repeat. apply map_ext. intros channel.
  apply fill_channel_eq.
Qed.

Lemma int16_pairs_lookup (data : list byte) (k : nat) :
  k < length data / 2 ->
  exists lo hi,
    data !! (2 * k) = Some lo /\ data !! (2 * k + 1) = Some hi
    /\ int16_pairs data !! k = Some (int16_of_bytes lo hi).
Proof.
  revert k. induction data as [|x|x y l IH] using list_ind2; intros k Hk.
  - cbn in Hk. lia.
  - cbn in Hk. lia.
  - destruct k as [|k].
    + exists x, y. repeat split.
    + cbn [length] in Hk.
      change (S (S (length l))) with (1 * 2 + length l) in Hk.
      rewrite Nat.div_add_l in Hk by lia.
      destruct (IH k ltac:(lia)) as (lo & hi & Hlo & Hhi & Hv).
      exists lo, hi.
      replace (2 * S k) with (S (S (2 * k))) by lia.
      replace (2 * S k + 1) with (S (S (2 * k + 1))) by lia.
      repeat split; assumption.
Qed.

Lemma decodeAudioData_outcomes (data : list byte) :
  (Nat.even (length data) = false ->
   decodeAudioData data 24000 1 = Throw RangeError)
  /\ (data = [] -> decodeAudioData data 24000 1 = Throw NotSupportedError)
  /\ (Nat.even (length data) = true -> data <> [] ->
      exists buf,
        decodeAudioData data 24000 1 = Ok buf
        /\ numberOfChannels buf = 1%N
        /\ frames buf = N.of_nat (length data / 2)
        /\ duration buf = Qmake (Z.of_nat (length data / 2)) 24000).
Proof.
  pose proof (decodeAudioData_eq data 24000 1) as Heq. cbv zeta in Heq.
  rewrite length_int16_pairs in Heq.
  change (N.to_nat 1) with 1 in Heq. rewrite Nat.div_1_r in Heq.
  split; [|split].
  - intros Hodd. now rewrite Heq, Hodd.
  - intros ->. reflexivity.
  - intros Heven Hne. rewrite Heq, Heven.
    assert (length data / 2 <> 0) as Hlen.
    { destruct data as [|x [|y l]]; [contradiction|discriminate|].
      cbn [length].
      change (S (S (length l))) with (1 * 2 + length l).
      rewrite Nat.div_add_l by lia. lia. }
    replace (N.of_nat (length data / 2) =? 0)%N with false
      by (symmetry; apply N.eqb_neq; lia).
    eexists. split; [reflexivity|]. cbn [numberOfChannels frames].
    repeat split. unfold duration. cbn [frames sampleRate].
    now rewrite nat_N_Z.
Qed.

(** X1. [decodeAudioData] as the playback path calls it, on one channel
    at 24000 Hz: an odd number of bytes is a [RangeError], no bytes at all
    a [NotSupportedError], and otherwise the buffer has one frame per pair
    of bytes and lasts that many frames over 24000. *)
Theorem X1_decodeAudioData_outcomes (data : list byte) :
  (Nat.even (length data) = false ->
   decodeAudioData data 24000 1 = Throw RangeError)
  /\ (data = [] -> decodeAudioData data 24000 1 = Throw NotSupportedError)
  /\ (Nat.even (length data) = true -> data <> [] ->
      exists buf,
        decodeAudioData data 24000 1 = Ok buf
        /\ numberOfChannels buf = 1%N
        /\ frames buf = N.of_nat (length data / 2)
        /\ duration buf = Qmake (Z.of_nat (length data / 2)) 24000).
Proof. exact (decodeAudioData_outcomes data). Qed.

Lemma X1_decodeAudioData_outcomes_witness :
  decodeAudioData [x01] 24000 1 = Throw RangeError
  /\ decodeAudioData [] 24000 1 = Throw NotSupportedError
  /\ exists buf,
       decodeAudioData [x01; x02; x03; x04] 24000 1 = Ok buf
       /\ numberOfChannels buf = 1%N
       /\ frames buf = N.of_nat (4 / 2)
       /\ duration buf = Qmake (Z.of_nat (4 / 2)) 24000.
Proof.
  destruct (X1_decodeAudioData_outcomes [x01]) as (H1 & _ & _).
  destruct (X1_decodeAudioData_outcomes []) as (_ & H2 & _).
  destruct (X1_decodeAudioData_outcomes [x01; x02; x03; x04])
    as (_ & _ & H3).
  split; [exact (H1 eq_refl)|].
  split; [exact (H2 eq_refl)|].
  exact (H3 eq_refl ltac:(discriminate)).
Defined.

(** X2. Whatever the bytes and the number of channels, a decoded buffer has
    that many channels of [frames] samples each, and every sample lies in
    [-1, 1). *)
Theorem X2_decoded_samples_in_range (data : list byte) (rate : positive)
  (numChannels : N) (buf : AudioBuffer) :
  decodeAudioData data rate numChannels = Ok buf ->
  length (channels buf) = N.to_nat numChannels
  /\ Forall (fun channelData =>
               length channelData = N.to_nat (frames buf)
               /\ Forall (fun s => (-1 <= s)%Q /\ (s < 1)%Q) channelData)
            (channels buf).
Proof.
  rewrite decodeAudioData_eq.
  destruct (Nat.even (length data)); [|discriminate].
  destruct ((numChannels =? 0) || _)%N; [discriminate|].
  intros [= <-]. cbn [channels frames].
  split; [now rewrite length_map, length_seq|].
  apply List.Forall_map, List.Forall_forall. intros channel _.
  split; [now rewrite length_map, length_seq, Nat2N.id|].
  apply List.Forall_map, List.Forall_forall. intros i _.
  assert (-32768 <= nth (i * N.to_nat numChannels + channel)
                        (int16_pairs data) 0 <= 32767)%Z as Hv.
  { rewrite nth_lookup.
    destruct (int16_pairs data !! _) as [v|] eqn:Hl; cbn; [|lia].
    pose proof (int16_pairs_range data) as Hall.
    rewrite List.Forall_forall in Hall. apply Hall.
    apply list_elem_of_In. eapply list_elem_of_lookup_2, Hl. }
  revert Hv. generalize (nth (i * N.to_nat numChannels + channel)
                             (int16_pairs data) 0%Z).
  intros v Hv.
  unfold Qle, Qlt, Qdiv, Qmult, Qinv, inject_Z. cbn. lia.
Qed.

Lemma X2_decoded_samples_in_range_witness :
  let buf := {| numberOfChannels := 2; frames := 1; sampleRate := 24000;
                channels := [[(inject_Z (-32768) / 32768)%Q];
                             [(inject_Z 32767 / 32768)%Q]] |} in
  length (channels buf) = 2
  /\ Forall (fun channelData =>
               length channelData = 1
               /\ Forall (fun s => (-1 <= s)%Q /\ (s < 1)%Q) channelData)
            (channels buf).
Proof.
  exact (X2_decoded_samples_in_range [x00; x80; xff; x7f] 24000 2 _ eq_refl).
Defined.

(** X3. De-interleaving: in a decoded buffer, frame [i] of channel
    [channel] is the 16-bit integer whose two bytes, low byte first, sit at
    position [2 * (i * numChannels + channel)] of the data, divided by
    32768. *)
Theorem X3_decodeAudioData_deinterleave (data : list byte) (rate : positive)
  (numChannels : N) (buf : AudioBuffer) (channel i : nat) :
  decodeAudioData data rate numChannels = Ok buf ->
  channel < N.to_nat numChannels ->
  i < N.to_nat (frames buf) ->
  exists lo hi channelData,
    data !! (2 * (i * N.to_nat numChannels + channel)) = Some lo
    /\ data !! (2 * (i * N.to_nat numChannels + channel) + 1) = Some hi
    /\ channels buf !! channel = Some channelData
    /\ channelData !! i = Some (inject_Z (int16_of_bytes lo hi) / 32768)%Q.
Proof.
  rewrite decodeAudioData_eq.
  destruct (Nat.even (length data)); [|discriminate].
  destruct ((numChannels =? 0) || _)%N; [discriminate|].
  intros [= <-]. cbn [channels frames]. rewrite Nat2N.id.
  intros Hch Hi.
  set (c := N.to_nat numChannels) in *.
  assert (i * c + channel < length data / 2) as Hidx.
  { rewrite <- length_int16_pairs.
    assert (c <> 0) as Hc by lia.
    pose proof (Nat.div_mod (length (int16_pairs data)) c Hc) as Hdm.
    assert (S i <= length (int16_pairs data) / c) as Hle by lia.
    assert (S i * c <= length (int16_pairs data) / c * c) as Hmul
      by (apply Nat.mul_le_mono_r; exact Hle).
    lia. }
  destruct (int16_pairs_lookup data _ Hidx) as (lo & hi & Hlo & Hhi & Hv).
  exists lo, hi. eexists. split; [exact Hlo|]. split; [exact Hhi|].
  split.
  - rewrite list_lookup_fmap, lookup_seq_lt by exact Hch. reflexivity.
  - rewrite list_lookup_fmap, lookup_seq_lt by exact Hi. cbn.
    now rewrite (nth_lookup_Some _ _ _ _ Hv).
Qed.

Lemma X3_decodeAudioData_deinterleave_witness :
  exists lo hi channelData buf,
    decodeAudioData [x01; x00; x02; x00; x03; x00; x04; x00] 24000 2 = Ok buf
    /\ [x01; x00; x02; x00; x03; x00; x04; x00] !! 6 = Some lo
    /\ [x01; x00; x02; x00; x03; x00; x04; x00] !! 7 = Some hi
    /\ channels buf !! 1 = Some channelData
    /\ channelData !! 1 = Some (inject_Z (int16_of_bytes lo hi) / 32768)%Q.
Proof.
  destruct (X3_decodeAudioData_deinterleave
              [x01; x00; x02; x00; x03; x00; x04; x00] 24000 2 _ 1 1
              eq_refl ltac:(cbn; lia) ltac:(cbn; lia))
    as (lo & hi & channelData & H).
  exists lo, hi, channelData. eexists. split; [reflexivity|exact H].
Defined.

(** ** From capture to playback *)

Local Open Scope Z_scope.

(** Between 1 and 2 the conversion wraps once: the integer is the
    truncation minus 65536. *)
Lemma ToInt16_wrapped (x : Q) :
  (1 <= x)%Q -> (x < 2)%Q ->
  within_step (x - 2) (inject_Z (ToInt16 (x * 32768)) / 32768)%Q.
Proof.
  intros Hlo Hhi. unfold within_step.
  destruct x as [n d].
  unfold Qle, Qlt in Hlo, Hhi. cbn in Hlo, Hhi.
  unfold ToInt16. cbn [Qnum Qden Qmult].
  rewrite Pos.mul_1_r.
  set (t := (n * 32768) ÷ Z.pos d).
  destruct (quot_trunc (n * 32768) (Z.pos d) eq_refl) as [Hpos _].
  fold t in Hpos. specialize (Hpos ltac:(lia)).
  assert (32768 <= t <= 65535) as Ht by nia.
  replace (t mod 65536) with t by lia.
  destruct (Z.leb_spec 32768 t); [|lia].
  apply Qabs_Qle_condition.
  unfold Qle, Qminus, Qplus, Qopp, Qdiv, Qmult, Qinv, inject_Z.
  cbn. split; nia.
Qed.

Local Close Scope Z_scope.

(** X4. A captured frame sent through the whole path (conversion to 16-bit
    PCM, [encode], then [decode] and [decodeAudioData] as [onmessage]
    applies them) comes back as one channel with one frame per sample,
    each within 1/32768 of the original, provided the frame is not empty
    and its samples lie in [-1, 1). *)
Theorem X4_capture_to_playback (inputData : list Q) :
  inputData <> [] ->
  Forall (fun s => (-1 <= s)%Q /\ (s < 1)%Q) inputData ->
  exists data buf y,
    encode (toPCM16 inputData) = Ok data
    /\ decode_frame data = Ok buf
    /\ frames buf = N.of_nat (length inputData)
    /\ channels buf = [y]
    /\ Forall2 within_step inputData y.
Proof.
  intros Hne Hx.
  destruct (decode_encode (toPCM16 inputData)) as (data & Henc & Hdec).
  exists data. unfold decode_frame. rewrite Hdec. cbn [bind].
  unfold toPCM16. rewrite decodeAudioData_mono.
  - eexists. eexists. split; [exact Henc|]. split; [reflexivity|].
    cbn [frames channels]. unfold float_to_int16.
    rewrite length_map, map_map. split; [reflexivity|].
    split; [reflexivity|].
    clear Hne Henc Hdec. induction Hx as [|s x [Hlo Hhi] _ IH]; cbn [map].
    + constructor.
    + constructor; [apply ToInt16_scaled; assumption|exact IH].
  - destruct inputData; [contradiction|discriminate].
  - apply float_to_int16_range.
Qed.

Lemma X4_capture_to_playback_witness :
  exists data buf y,
    encode (toPCM16 [(1 # 3)%Q; (-1)%Q]) = Ok data
    /\ decode_frame data = Ok buf
    /\ frames buf = N.of_nat 2
    /\ channels buf = [y]
    /\ Forall2 within_step [(1 # 3)%Q; (-1)%Q] y.
Proof.
  apply X4_capture_to_playback; [discriminate|].
  repeat constructor; unfold Qle, Qlt; cbn; lia.
Defined.

(** X5. There is no clamp: a sample [s] between 1 and 2 is played back
    within 1/32768 of [s - 2], that is on the negative side. *)
Theorem X5_overdriven_samples_wrap (x : list Q) :
  x <> [] ->
  Forall (fun s => (1 <= s)%Q /\ (s < 2)%Q) x ->
  exists y,
    fromPCM16 (toPCM16 x) = Ok y
    /\ Forall2 (fun s r => within_step (s - 2) r) x y.
Proof.
  intros Hne Hx. eexists. split; [apply fromPCM16_toPCM16, Hne|].
  clear Hne. induction Hx as [|s x [Hlo Hhi] _ IH]; cbn [map].
  - constructor.
  - constructor; [apply ToInt16_wrapped; assumption|exact IH].
Qed.

Lemma X5_overdriven_samples_wrap_witness :
  exists y,
    fromPCM16 (toPCM16 [1%Q; (3 # 2)%Q]) = Ok y
    /\ Forall2 (fun s r => within_step (s - 2) r) [1%Q; (3 # 2)%Q] y.
Proof.
  apply X5_overdriven_samples_wrap; [discriminate|].
  repeat constructor; unfold Qle, Qlt; cbn; lia.
Defined.

(** X6. [onaudioprocess] never fails.  With a session stored it sends
    exactly one message on it, whose payload decodes to the two bytes per
    sample of the frame, and changes nothing else; without a session it
    changes nothing. *)
Theorem X6_onaudioprocess_sends (inputData : list Q) (st : App) :
  (forall t, sessionRef st = Some t ->
     exists data,
       onaudioprocess inputData st = set_sent (sent st ++ [(t, data)]) st
       /\ decode data = Ok (toPCM16 inputData)
       /\ length (toPCM16 inputData) = 2 * length inputData)
  /\ (sessionRef st = None -> onaudioprocess inputData st = st).
Proof.
  unfold onaudioprocess.
  destruct (decode_encode (Uint8Array_of_Int16Array
                             (float_to_int16 inputData)))
    as (data & -> & Hdec).
  split.
  - intros t ->. exists data. split; [reflexivity|]. split; [exact Hdec|].
    unfold toPCM16, float_to_int16. now rewrite length_view, length_map.
  - intros ->. reflexivity.
Qed.

Lemma X6_onaudioprocess_sends_witness :
  let st := run [Click; ConnectResolved 0; MicGranted] initial in
  exists data,
    onaudioprocess [(1 # 2)%Q] st = set_sent (sent st ++ [(0, data)]) st
    /\ decode data = Ok (toPCM16 [(1 # 2)%Q])
    /\ length (toPCM16 [(1 # 2)%Q]) = 2 * 1.
Proof.
  exact (proj1 (X6_onaudioprocess_sends [(1 # 2)%Q]
                  (run [Click; ConnectResolved 0; MicGranted] initial))
           0 eq_refl).
Defined.

(** ** The playback scheduler, frame by frame *)

Lemma Math_max_early (cursor clock : Q) :
  (clock <= cursor)%Q -> (Math_max cursor clock == cursor)%Q.
Proof.
  intros H. unfold Math_max. destruct (Qle_bool cursor clock) eqn:Hb.
  - apply Qle_bool_iff in Hb. now apply Qle_antisym.
  - reflexivity.
Qed.

Lemma Math_max_late (cursor clock : Q) :
  (cursor < clock)%Q -> Math_max cursor clock = clock.
Proof.
  intros H. unfold Math_max. destruct (Qle_bool cursor clock) eqn:Hb.
  - reflexivity.
  - apply Qlt_le_weak, Qle_bool_iff in H. congruence.
Qed.

(** What a server message does when its payload decodes. *)
Lemma onmessage_scheduled (clock : Q) (message : LiveServerMessage)
  (data : js_string) (ctx : nat) (buf : AudioBuffer) (st : App) :
  audioData message = Some data ->
  outputAudioContextRef st = Some ctx ->
  decode_frame data = Ok buf ->
  let start := Math_max (nextStartTimeRef st) clock in
  onmessage clock message st
  = set_sourcesRef (sourcesRef st ∪ {[ length (nodes st) ]})
      (set_nextStartTimeRef (start + duration buf)%Q
         (set_nodes (nodes st ++ [{| buffer := buf; startTime := Some start;
                                     stopCalled := false |}])
            (set_nextStartTimeRef start st))).
Proof.
  intros Hdata Hctx Hbuf start. unfold onmessage. rewrite Hdata, Hctx.
  destruct data as [|c data]; [discriminate|].
  unfold decode_frame in Hbuf.
  cbn [set_nextStartTimeRef nextStartTimeRef nodes]. rewrite Hbuf.
  reflexivity.
Qed.

(** X7. Two audio frames in a row: when the second arrives no later than
    the end of the first, it starts exactly at that end (no gap, no
    overlap); when it arrives later, it starts at its arrival. *)
Theorem X7_second_frame_start
  (st : App) (ctx : nat) (clock1 clock2 : Q)
  (message1 message2 : LiveServerMessage) (data1 data2 : js_string)
  (buf1 buf2 : AudioBuffer) :
  outputAudioContextRef st = Some ctx ->
  audioData message1 = Some data1 -> decode_frame data1 = Ok buf1 ->
  audioData message2 = Some data2 -> decode_frame data2 = Ok buf2 ->
  let st' := onmessage clock2 message2 (onmessage clock1 message1 st) in
  exists start1 start2,
    nodes st'
    = nodes st ++ [{| buffer := buf1; startTime := Some start1;
                      stopCalled := false |};
                   {| buffer := buf2; startTime := Some start2;
                      stopCalled := false |}]
    /\ ((clock2 <= start1 + duration buf1)%Q ->
        (start2 == start1 + duration buf1)%Q)
    /\ ((start1 + duration buf1 < clock2)%Q -> start2 = clock2).
Proof.
  intros Hctx Hd1 Hb1 Hd2 Hb2 st'. subst st'.
  rewrite (onmessage_scheduled clock1 message1 data1 ctx buf1 st Hd1 Hctx Hb1).
  cbv zeta.
  set (start1 := Math_max (nextStartTimeRef st) clock1).
  erewrite (onmessage_scheduled clock2 message2 data2 ctx buf2);
    [|exact Hd2|exact Hctx|exact Hb2].
  cbn [nodes nextStartTimeRef set_sourcesRef set_nextStartTimeRef set_nodes].
  exists start1, (Math_max (start1 + duration buf1) clock2).
  split; [now rewrite <- app_assoc|].
  split; [apply Math_max_early|apply Math_max_late].
Qed.

Lemma X7_second_frame_start_witness :
  let st := run [Click; ConnectResolved 0; MicGranted] initial in
  let st' := onmessage (1 # 1000) (audio (lit "AAA="))
               (onmessage 0 (audio (lit "AAAAAA==")) st) in
  exists buf1 buf2 start1 start2,
    nodes st'
    = nodes st ++ [{| buffer := buf1; startTime := Some start1;
                      stopCalled := false |};
                   {| buffer := buf2; startTime := Some start2;
                      stopCalled := false |}]
    /\ ((1 # 1000 <= start1 + duration buf1)%Q ->
        (start2 == start1 + duration buf1)%Q)
    /\ ((start1 + duration buf1 < 1 # 1000)%Q -> start2 = (1 # 1000)%Q).
Proof.
  intros st st'.
  eexists. eexists.
  exact (X7_second_frame_start st 1 0%Q (1 # 1000)%Q
           (audio (lit "AAAAAA==")) (audio (lit "AAA="))
           (lit "AAAAAA==") (lit "AAA=") _ _
           eq_refl eq_refl eq_refl eq_refl eq_refl).
Defined.

(** X8. A payload that is the encoding of a non-empty byte buffer is
    scheduled exactly when the number of bytes is even; it then plays for
    half that number of frames at 24 kHz and records no error.  With an
    odd number of bytes nothing is scheduled, the cursor still moves up to
    the clock, and a [RangeError] is left unhandled. *)
Theorem X8_payload_scheduling
  (st : App) (ctx : nat) (clock : Q) (message : LiveServerMessage)
  (bytes : list byte) (data : js_string) :
  outputAudioContextRef st = Some ctx ->
  audioData message = Some data ->
  encode bytes = Ok data ->
  bytes <> [] ->
  let st' := onmessage clock message st in
  let start := Math_max (nextStartTimeRef st) clock in
  (Nat.even (length bytes) = true ->
   exists buf,
     nodes st' = nodes st ++ [{| buffer := buf; startTime := Some start;
                                 stopCalled := false |}]
     /\ duration buf = Qmake (Z.of_nat (length bytes / 2)) 24000
     /\ nextStartTimeRef st' = (start + duration buf)%Q
     /\ sourcesRef st' = sourcesRef st ∪ {[ length (nodes st) ]}
     /\ errors st' = errors st)
  /\ (Nat.even (length bytes) = false ->
      nodes st' = nodes st
      /\ sourcesRef st' = sourcesRef st
      /\ nextStartTimeRef st' = start
      /\ errors st' = errors st ++ [RangeError]).
Proof.
  intros Hctx Hdata Henc Hne st' start.
  destruct (decode_encode bytes) as (data' & Henc' & Hdec).
  rewrite Henc in Henc'. injection Henc' as <-.
  destruct (decodeAudioData_outcomes bytes) as (Hodd & _ & Heven).
  split.
  - intros He. destruct (Heven He Hne) as (buf & Hbuf & _ & _ & Hdur).
    assert (decode_frame data = Ok buf) as Hframe
      by (unfold decode_frame; rewrite Hdec; exact Hbuf).
    subst st'.
    rewrite (onmessage_scheduled clock message data ctx buf st
               Hdata Hctx Hframe).
    exists buf. repeat split. exact Hdur.
  - intros Ho. subst st'. unfold onmessage. rewrite Hdata, Hctx.
    destruct data as [|c data].
    { destruct bytes; [contradiction|].
      change (decode []) with (Ok (@nil byte)) in Hdec. discriminate. }
    rewrite Hdec. cbn [bind]. rewrite (Hodd Ho). repeat split.
Qed.

Lemma X8_payload_scheduling_witness :
  let st := run [Click; ConnectResolved 0; MicGranted] initial in
  let st' := onmessage (1 # 2) (audio (lit "AAAA")) st in
  nodes st' = nodes st
  /\ sourcesRef st' = sourcesRef st
  /\ nextStartTimeRef st' = Math_max (nextStartTimeRef st) (1 # 2)
  /\ errors st' = errors st ++ [RangeError].
Proof.
  intros st st'.
  exact (proj2 (X8_payload_scheduling st 1 (1 # 2)%Q (audio (lit "AAAA"))
                  [x00; x00; x00] (lit "AAAA")
                  eq_refl eq_refl eq_refl ltac:(discriminate))
           eq_refl).
Defined.





(** ** What teardown touches *)

(** A field that none of the updates made by [stopSession] writes is left
    as it was, whether the call returns or throws. *)
Lemma stopSession_keeps {A : Type} (f : App -> A) :
  (forall v st, f (setIsRecording v st) = f st) ->
  (forall v st, f (setStatus v st) = f st) ->
  (forall v st, f (set_processors v st) = f st) ->
  (forall v st, f (set_contexts v st) = f st) ->
  (forall v st, f (set_errors v st) = f st) ->
  (forall v st, f (set_nodes v st) = f st) ->
  (forall v st, f (set_sourcesRef v st) = f st) ->
  (forall v st, f (set_transports v st) = f st) ->
  (forall v st, f (set_sessionRef v st) = f st) ->
  forall st, f (settle (stopSession st)) = f st.
Proof.
  intros Hrec Hstatus Hproc Hctx Herr Hnodes Hsrc Htr Hsess st.
  assert (forall p st, f (disconnect p st) = f st) as Hdis.
  { intros [p|] st0; cbn; [apply Hproc|reflexivity]. }
  assert (forall c st, f (close_context c st) = f st) as Hclose.
  { intros [c|] st0; unfold close_context; [|reflexivity].
    destruct (contexts st0 !! c) as [[|]|];
      [apply Hctx|apply Herr|apply Herr]. }
  assert (forall t st, f (close_session t st) = f st) as Hcs.
  { intros [t|] st0; cbn; [apply Htr|reflexivity]. }
  unfold stopSession.
  set (st4 := close_context _ (close_context _ (disconnect _ _))).
  assert (f st4 = f st) as H4.
  { unfold st4. rewrite !Hclose, Hdis, Hstatus, Hrec. reflexivity. }
  destruct (forEach_stop_frame (elements (sourcesRef st4)) st4)
    as (ns & Hst & _).
  destruct (forEach_stop (elements (sourcesRef st4)) st4) as [st5|e st5];
    cbn [state_of] in Hst; subst st5; cbn [settle].
  - rewrite Hsess, Hcs, Hsrc, Hnodes. exact H4.
  - unfold unhandled. rewrite Herr, Hnodes. exact H4.
Qed.

(** The connection store after [stopSession]: the stored session, if any,
    is marked closed, when the call returns. *)
Lemma stopSession_transports (st : App) :
  transports (settle (stopSession st)) = transports st
  \/ exists t, sessionRef st = Some t
               /\ transports (settle (stopSession st))
                  = <[ t := Closed ]> (transports st).
Proof.
  unfold stopSession.
  set (st4 := close_context _ (close_context _ (disconnect _ _))).
  assert (transports st4 = transports st /\ sessionRef st4 = sessionRef st)
    as [Ht Hs].
  { unfold st4, close_context, disconnect.
    repeat match goal with
           | |- context [match ?x with _ => _ end] => destruct x
           end; split; reflexivity. }
  clearbody st4.
  destruct (forEach_stop_frame (elements (sourcesRef st4)) st4)
    as (ns & Hst & _).
  destruct (forEach_stop (elements (sourcesRef st4)) st4) as [st5|e st5];
    cbn [state_of] in Hst; subst st5; cbn [settle].
  - cbn [set_sessionRef set_sourcesRef set_nodes sessionRef transports].
    rewrite Hs. destruct (sessionRef st) as [t|]; cbn; rewrite Ht.
    + right. exists t. split; reflexivity.
    + left. reflexivity.
  - left. cbn. exact Ht.
Qed.

(** ** What a live session never does *)

Lemma step_log (e : event) (st : App) :
  ~ is_extractor_call e ->
  history (step e st) = history st
  /\ lastResponse (step e st) = lastResponse st.
Proof.
  intros He.
  assert (forall st0, history (settle (stopSession st0)) = history st0
                      /\ lastResponse (settle (stopSession st0))
                         = lastResponse st0) as Hstop.
  { intros st0. split; apply stopSession_keeps; reflexivity. }
  destruct e as [| | |text date|t|t| | |clock message| | |inputData|source];
    cbn [step].
  - unfold click, toggleRecording, startSession.
    destruct (isLoading st); [split; reflexivity|].
    destruct (isRecording st); [apply Hstop|].
    destruct (sessionRef st); split; reflexivity.
  - unfold startSession. destruct (sessionRef st); split; reflexivity.
  - apply Hstop.
  - destruct He. exact I.
  - destruct (transports st !! t) as [[| | |]|]; split; reflexivity.
  - destruct (transports st !! t) as [[| | |]|]; split; reflexivity.
  - destruct (micPending st); split; reflexivity.
  - destruct (micPending st); split; reflexivity.
  - unfold onmessage.
    destruct (audioData message) as [[|c data]|]; try (split; reflexivity).
    destruct (outputAudioContextRef st); [|split; reflexivity].
    destruct (bind _ _); split; reflexivity.
  - unfold onerror.
    destruct (Hstop (setStatus "Connection error"
                       (console_log "Session error" st))) as [-> ->].
    split; reflexivity.
  - unfold onclose.
    destruct (Hstop (console_log "Session closed" st)) as [-> ->].
    split; reflexivity.
  - destruct (scriptProcessorRef st) as [p|]; [|split; reflexivity].
    destruct (processors st !! p) as [[|]|]; try (split; reflexivity).
    unfold onaudioprocess.
    destruct (encode _); [|split; reflexivity].
    destruct (sessionRef st); split; reflexivity.
  - split; reflexivity.
Qed.

(** X10. The streaming path is not wired to the extractor: whatever the
    clicks, connection events and server messages (transcriptions and
    turn completions included), the conversation log and the displayed
    result stay as they were.  Only a call of [processResponse] changes
    them. *)
Theorem X10_session_leaves_log (trace : list event) (st : App) :
  Forall (fun e => ~ is_extractor_call e) trace ->
  history (run trace st) = history st
  /\ lastResponse (run trace st) = lastResponse st.
Proof.
  intros Htrace. revert st.
  induction Htrace as [|e trace He _ IH]; intros st.
  - split; reflexivity.
  - change (run (e :: trace) st) with (run trace (step e st)).
    destruct (IH (step e st)) as [-> ->]. apply step_log, He.
Qed.

Lemma X10_session_leaves_log_witness :
  let trace :=
    [Click; ConnectResolved 0; MicGranted;
     ServerMessage 0%Q
       {| audioData := Some (lit "AAA=");
          outputTranscription := Some (lit "{}");
          turnComplete := true |};
     Click] in
  history (run trace initial) = [] /\ lastResponse (run trace initial) = None.
Proof.
  intros trace.
  apply (X10_session_leaves_log trace initial).
  repeat constructor; intros [].
Defined.

Lemma step_streams (e : event) (st : App) :
  streams st <= streams (step e st).
Proof.
  assert (forall st0, streams (settle (stopSession st0)) = streams st0)
    as Hstop by (intros st0; apply stopSession_keeps; reflexivity).
  destruct e as [| | |text date|t|t| | |clock message| | |inputData|source];
    cbn [step].
  - unfold click, toggleRecording, startSession.
    destruct (isLoading st); [lia|].
    destruct (isRecording st); [now rewrite Hstop|].
    destruct (sessionRef st); cbn; lia.
  - unfold startSession. destruct (sessionRef st); cbn; lia.
  - now rewrite Hstop.
  - unfold processResponse.
    destruct (match_json_block text); [|cbn; lia].
    destruct (JSON.parse _); cbn; lia.
  - destruct (transports st !! t) as [[| | |]|]; cbn; lia.
  - destruct (transports st !! t) as [[| | |]|]; cbn; lia.
  - destruct (micPending st); cbn; lia.
  - destruct (micPending st); cbn; lia.
  - unfold onmessage.
    destruct (audioData message) as [[|c data]|]; try lia.
    destruct (outputAudioContextRef st); [|lia].
    destruct (bind _ _); cbn; lia.
  - unfold onerror. rewrite Hstop. cbn. lia.
  - unfold onclose. rewrite Hstop. cbn. lia.
  - destruct (scriptProcessorRef st) as [p|]; [|lia].
    destruct (processors st !! p) as [[|]|]; try lia.
    unfold onaudioprocess.
    destruct (encode _); [|cbn; lia].
    destruct (sessionRef st); cbn; lia.
  - cbn. lia.
Qed.

(** X11. The microphone stream is never released: [stopSession] leaves
    the live streams as they are, and over any sequence of events their
    number does not go down. *)
Theorem X11_microphone_kept (trace : list event) (st : App) :
  streams (settle (stopSession st)) = streams st
  /\ streams st <= streams (run trace st).
Proof.
  split; [apply stopSession_keeps; reflexivity|].
  revert st. induction trace as [|e trace IH]; intros st; cbn; [lia|].
  etransitivity; [apply step_streams|apply IH].
Qed.

Lemma ended_app (ts more : list TransportState) (t : nat) :
  ended ts t -> ended (ts ++ more) t.
Proof.
  unfold ended. intros [H|H]; [left|right]; now apply lookup_app_l_Some.
Qed.

Lemma ended_insert_closed (ts : list TransportState) (t t' : nat) :
  ended ts t -> ended (<[ t' := Closed ]> ts) t.
Proof.
  unfold ended. intros H. destruct (decide (t' = t)) as [->|Hne].
  - left. apply list_lookup_insert_eq.
    destruct H as [H|H]; eapply lookup_lt_Some, H.
  - now rewrite list_lookup_insert_ne.
Qed.

Lemma ended_insert_opening (ts : list TransportState) (t t' : nat)
  (s : TransportState) :
  ts !! t' = Some Opening -> ended ts t -> ended (<[ t' := s ]> ts) t.
Proof.
  unfold ended. intros Ho H. destruct (decide (t' = t)) as [->|Hne].
  - destruct H as [H|H]; congruence.
  - now rewrite list_lookup_insert_ne.
Qed.

Lemma step_ended (e : event) (st : App) (t : nat) :
  ended (transports st) t -> ended (transports (step e st)) t.
Proof.
  intros H.
  assert (forall st0, ended (transports st0) t ->
                      ended (transports (settle (stopSession st0))) t)
    as Hstop.
  { intros st0 H0.
    destruct (stopSession_transports st0) as [->|(t' & _ & ->)];
      [exact H0|now apply ended_insert_closed]. }
  destruct e as [| | |text date|t0|t0| | |clock message| | |inputData|source];
    cbn [step].
  - unfold click, toggleRecording, startSession.
    destruct (isLoading st); [exact H|].
    destruct (isRecording st); [now apply Hstop|].
    destruct (sessionRef st); [exact H|]. cbn. now apply ended_app.
  - unfold startSession. destruct (sessionRef st); [exact H|].
    cbn. now apply ended_app.
  - now apply Hstop.
  - unfold processResponse.
    destruct (match_json_block text); [|exact H].
    destruct (JSON.parse _); exact H.
  - destruct (transports st !! t0) as [[| | |]|] eqn:Ht0; try exact H.
    cbn. now apply ended_insert_opening.
  - destruct (transports st !! t0) as [[| | |]|] eqn:Ht0; try exact H.
    cbn. now apply ended_insert_opening.
  - destruct (micPending st); exact H.
  - destruct (micPending st); exact H.
  - unfold onmessage.
    destruct (audioData message) as [[|c data]|]; try exact H.
    destruct (outputAudioContextRef st); [|exact H].
    destruct (bind _ _); exact H.
  - unfold onerror. apply Hstop. exact H.
  - unfold onclose. apply Hstop. exact H.
  - destruct (scriptProcessorRef st) as [p|]; [|exact H].
    destruct (processors st !! p) as [[|]|]; try exact H.
    unfold onaudioprocess.
    destruct (encode _); [|exact H].
    destruct (sessionRef st); exact H.
  - exact H.
Qed.

(** X12. A connection that was closed or refused stays so: no sequence of
    events opens it again. *)
Theorem X12_ended_connection_stays_ended
  (trace : list event) (st : App) (t : nat) :
  ended (transports st) t -> ended (transports (run trace st)) t.
Proof.
  revert st. induction trace as [|e trace IH]; intros st H; cbn.
  - exact H.
  - apply IH, step_ended, H.
Qed.

Lemma X12_ended_connection_stays_ended_witness :
  let st := run [Click; ConnectResolved 0; Click] initial in
  ended (transports (run [Click; ConnectResolved 0; ConnectResolved 1;
                          TransportClosed] st)) 0.
Proof.
  intros st.
  apply (X12_ended_connection_stays_ended _ st 0).
  left. reflexivity.
Defined.

(** ** What teardown releases *)

Lemma teardown_prefix_keeps {A : Type} (f : App -> A) :
  (forall v st, f (set_processors v st) = f st) ->
  (forall v st, f (set_contexts v st) = f st) ->
  (forall v st, f (set_errors v st) = f st) ->
  forall st,
    let st2 := disconnect (scriptProcessorRef st) st in
    let st3 := close_context (inputAudioContextRef st2) st2 in
    f (close_context (outputAudioContextRef st3) st3) = f st.
Proof.
  intros Hproc Hctx Herr st.
  assert (forall c st0, f (close_context c st0) = f st0) as Hclose.
  { intros [c|] st0; unfold close_context; [|reflexivity].
    destruct (contexts st0 !! c) as [[|]|];
      [apply Hctx|apply Herr|apply Herr]. }
  cbv zeta. rewrite !Hclose.
  destruct (scriptProcessorRef st); cbn; [apply Hproc|reflexivity].
Qed.

Lemma close_context_not_running (c : option nat) (c' : nat) (st : App) :
  c = Some c' \/ contexts st !! c' <> Some Running ->
  contexts (close_context c st) !! c' <> Some Running.
Proof.
  intros H. unfold close_context. destruct c as [c|].
  - destruct (contexts st !! c) as [[|]|] eqn:Hc; cbn.
    + destruct (decide (c = c')) as [->|Hne].
      * rewrite list_lookup_insert_eq by (eapply lookup_lt_Some, Hc).
        discriminate.
      * rewrite list_lookup_insert_ne by exact Hne.
        destruct H as [[= ->]|H]; [contradiction|exact H].
    + destruct H as [[= ->]|H]; [congruence|exact H].
    + destruct H as [[= ->]|H]; [congruence|exact H].
  - destruct H as [H|H]; [discriminate|exact H].
Qed.

(** The state in which a returning [stopSession] leaves the component. *)
Lemma stopSession_released (st st1 : App) :
  stopSession st = Returns st1 ->
  (isRecording st1 = false /\ status st1 = "Analysis complete"%string
   /\ sourcesRef st1 = ∅ /\ sessionRef st1 = None)
  /\ (scriptProcessorRef st1 = scriptProcessorRef st
      /\ inputAudioContextRef st1 = inputAudioContextRef st
      /\ outputAudioContextRef st1 = outputAudioContextRef st)
  /\ processors st1
     = match scriptProcessorRef st with
       | Some p => <[ p := false ]> (processors st)
       | None => processors st
       end
  /\ (forall c,
        inputAudioContextRef st = Some c \/ outputAudioContextRef st = Some c ->
        contexts st1 !! c <> Some Running)
  /\ transports st1
     = match sessionRef st with
       | Some t => <[ t := Closed ]> (transports st)
       | None => transports st
       end.
Proof.
  unfold stopSession.
  set (st1' := setStatus _ (setIsRecording false st)).
  set (st2 := disconnect _ st1').
  set (st3 := close_context _ st2).
  set (st4 := close_context _ st3).
  assert (forall {A} (f : App -> A),
             (forall v st, f (set_processors v st) = f st) ->
             (forall v st, f (set_contexts v st) = f st) ->
             (forall v st, f (set_errors v st) = f st) ->
             f st4 = f st1') as Hkeep.
  { intros A f H1 H2 H3. apply (teardown_prefix_keeps f H1 H2 H3 st1'). }
  assert (processors st4
          = match scriptProcessorRef st with
            | Some p => <[ p := false ]> (processors st)
            | None => processors st
            end) as Hproc.
  { unfold st4, st3, close_context.
    repeat match goal with
           | |- context [match ?x with _ => _ end] =>
               lazymatch x with
               | scriptProcessorRef st => fail
               | _ => destruct x
               end
           end;
      unfold st2, st1', disconnect; cbn;
      destruct (scriptProcessorRef st); reflexivity. }
  assert (forall c,
             inputAudioContextRef st = Some c
             \/ outputAudioContextRef st = Some c ->
             contexts st4 !! c <> Some Running) as Hctx.
  { intros c Hc.
    assert (inputAudioContextRef st2 = inputAudioContextRef st) as Hin
      by (unfold st2, disconnect; destruct (scriptProcessorRef st1');
          reflexivity).
    assert (outputAudioContextRef st3 = outputAudioContextRef st) as Hout.
    { unfold st3, close_context.
      destruct (inputAudioContextRef st2) as [c0|];
        [destruct (contexts st2 !! c0) as [[|]|]|];
        unfold st2, disconnect; destruct (scriptProcessorRef st1');
        reflexivity. }
    unfold st4. apply close_context_not_running.
    rewrite Hout. destruct Hc as [Hc|Hc]; [right|left; exact Hc].
    unfold st3. apply close_context_not_running. left.
    now rewrite Hin. }
  pose proof (Hkeep _ isRecording ltac:(reflexivity) ltac:(reflexivity)
                ltac:(reflexivity)) as Hrec.
  pose proof (Hkeep _ status ltac:(reflexivity) ltac:(reflexivity)
                ltac:(reflexivity)) as Hstatus.
  pose proof (Hkeep _ sessionRef ltac:(reflexivity) ltac:(reflexivity)
                ltac:(reflexivity)) as Hsess.
  pose proof (Hkeep _ transports ltac:(reflexivity) ltac:(reflexivity)
                ltac:(reflexivity)) as Htr.
  pose proof (Hkeep _ scriptProcessorRef ltac:(reflexivity)
                ltac:(reflexivity) ltac:(reflexivity)) as Hp.
  pose proof (Hkeep _ inputAudioContextRef ltac:(reflexivity)
                ltac:(reflexivity) ltac:(reflexivity)) as Hi.
  pose proof (Hkeep _ outputAudioContextRef ltac:(reflexivity)
                ltac:(reflexivity) ltac:(reflexivity)) as Ho.
  cbn in Hrec, Hstatus, Hsess, Htr, Hp, Hi, Ho.
  clearbody st4. clear Hkeep st3 st2 st1'.
  destruct (forEach_stop_frame (elements (sourcesRef st4)) st4)
    as (ns & Hst & _).
  destruct (forEach_stop (elements (sourcesRef st4)) st4) as [st5|e st5];
    [|discriminate].
  cbn [state_of] in Hst. subst st5. intros [= <-].
  cbn [set_sessionRef set_sourcesRef set_nodes sessionRef isRecording
       status sourcesRef scriptProcessorRef inputAudioContextRef
       outputAudioContextRef processors contexts transports].
  rewrite Hsess.
  destruct (sessionRef st) as [t|]; cbn;
    rewrite Hrec, Hstatus, Hp, Hi, Ho, Hproc, Htr; repeat split;
    try reflexivity; exact Hctx.
Qed.

(** X13. When [stopSession] returns, the session is closed and forgotten,
    both audio contexts are no longer running, the script processor is
    disconnected, the set of sources is empty and the recording flag is
    off. *)
Theorem X13_teardown_releases (st st1 : App) :
  stopSession st = Returns st1 ->
  (isRecording st1 = false /\ sourcesRef st1 = ∅ /\ sessionRef st1 = None)
  /\ (forall t, sessionRef st = Some t -> t < length (transports st) ->
        transports st1 !! t = Some Closed)
  /\ (forall c,
        inputAudioContextRef st = Some c \/ outputAudioContextRef st = Some c ->
        contexts st1 !! c <> Some Running)
  /\ (forall p, scriptProcessorRef st = Some p -> p < length (processors st) ->
        processors st1 !! p = Some false).
Proof.
  intros H.
  destruct (stopSession_released st st1 H)
    as ((Hrec & _ & Hsrc & Hsess) & _ & Hproc & Hctx & Htr).
  split; [auto|]. split; [|split; [exact Hctx|]].
  - intros t Ht Hlt. rewrite Htr, Ht. now apply list_lookup_insert_eq.
  - intros p Hp Hlt. rewrite Hproc, Hp. now apply list_lookup_insert_eq.
Qed.

Lemma X13_teardown_releases_witness :
  let st := run [Click; ConnectResolved 0; MicGranted;
                 ServerMessage 0%Q (audio (lit "AAA="))] initial in
  exists st1,
    stopSession st = Returns st1
    /\ (isRecording st1 = false /\ sourcesRef st1 = ∅
        /\ sessionRef st1 = None)
    /\ transports st1 !! 0 = Some Closed
    /\ contexts st1 !! 0 <> Some Running
    /\ contexts st1 !! 1 <> Some Running
    /\ processors st1 !! 0 = Some false.
Proof.
  intros st.
  eexists. split; [vm_compute; reflexivity|].
  match goal with
  | |- context [transports ?s !! 0] =>
      destruct (X13_teardown_releases st s ltac:(vm_compute; reflexivity))
        as (H1 & H2 & H3 & H4)
  end.
  split; [exact H1|].
  split; [apply (H2 0); [reflexivity|unfold st; vm_compute; constructor]|].
  split; [apply (H3 0); left; reflexivity|].
  split; [apply (H3 1); right; reflexivity|].
  apply (H4 0); [reflexivity|unfold st; vm_compute; constructor].
Defined.

Lemma flags_already_off (st : App) :
  isRecording st = false -> status st = "Analysis complete"%string ->
  setStatus "Analysis complete" (setIsRecording false st) = st.
Proof. destruct st. cbn. intros -> ->. reflexivity. Qed.

Lemma disconnect_again (st : App) :
  (forall p, scriptProcessorRef st = Some p ->
     <[ p := false ]> (processors st) = processors st) ->
  disconnect (scriptProcessorRef st) st = st.
Proof.
  destruct st. cbn. intros H.
  destruct scriptProcessorRef0 as [p|]; cbn; [|reflexivity].
  now rewrite (H p eq_refl).
Qed.

Lemma close_context_again (c : option nat) (st : App) :
  (forall c', c = Some c' -> contexts st !! c' <> Some Running) ->
  close_context c st
  = match c with
    | Some _ => unhandled InvalidStateError st
    | None => st
    end.
Proof.
  intros H. unfold close_context. destruct c as [c|]; [|reflexivity].
  destruct (contexts st !! c) as [[|]|] eqn:Hc; [|reflexivity|reflexivity].
  now destruct (H c eq_refl).
Qed.

Lemma sources_already_empty (st : App) :
  sourcesRef st = ∅ -> sessionRef st = None ->
  set_sessionRef None (close_session (sessionRef (set_sourcesRef ∅ st))
                         (set_sourcesRef ∅ st)) = st.
Proof. destruct st. cbn. intros -> ->. reflexivity. Qed.

(** X14. Teardown is idempotent up to the rejected promises: after a call
    of [stopSession] that returned, a second call returns too and changes
    nothing but the list of unhandled errors, to which it adds one
    [InvalidStateError] for each audio context reference that is set. *)
Theorem X14_teardown_idempotent (st st1 : App) :
  stopSession st = Returns st1 ->
  stopSession st1
  = Returns
      (set_errors
         (errors st1
          ++ match inputAudioContextRef st1 with
             | Some _ => [InvalidStateError]
             | None => []
             end
          ++ match outputAudioContextRef st1 with
             | Some _ => [InvalidStateError]
             | None => []
             end) st1).
Proof.
  intros H.
  destruct (stopSession_released st st1 H)
    as ((Hrec & Hstatus & Hsrc & Hsess) & (Hp & Hi & Ho) & Hproc & Hctx & _).
  assert (forall p, scriptProcessorRef st1 = Some p ->
                    <[ p := false ]> (processors st1) = processors st1)
    as Hproc'.
  { intros p Hp1. rewrite Hp in Hp1. rewrite Hproc, Hp1.
    apply list_insert_insert_eq. }
  rewrite <- Hi, <- Ho in Hctx.
  clear H Hp Hi Ho Hproc st.
  unfold stopSession.
  rewrite (flags_already_off st1 Hrec Hstatus).
  rewrite (disconnect_again st1 Hproc').
  rewrite (close_context_again (inputAudioContextRef st1) st1)
    by (intros c Hc; apply Hctx; now left).
  set (st2 := match inputAudioContextRef st1 with
              | Some _ => unhandled InvalidStateError st1
              | None => st1
              end).
  assert (st2 = set_errors
                  (errors st1 ++ match inputAudioContextRef st1 with
                                 | Some _ => [InvalidStateError]
                                 | None => []
                                 end) st1) as Hst2.
  { unfold st2. destruct (inputAudioContextRef st1).
    - reflexivity.
    - rewrite app_nil_r. now destruct st1. }
  clearbody st2. subst st2.
  rewrite close_context_again
    by (intros c Hc; cbn in Hc |- *; apply Hctx; now right).
  cbn [outputAudioContextRef set_errors].
  set (st3 := match outputAudioContextRef st1 with
              | Some _ => _
              | None => _
              end).
  assert (st3 = set_errors
                  (errors st1
                   ++ match inputAudioContextRef st1 with
                      | Some _ => [InvalidStateError]
                      | None => []
                      end
                   ++ match outputAudioContextRef st1 with
                      | Some _ => [InvalidStateError]
                      | None => []
                      end) st1) as Hst3.
  { unfold st3. destruct (outputAudioContextRef st1).
    - unfold unhandled. cbn. now rewrite <- app_assoc.
    - now rewrite app_nil_r. }
  clearbody st3. subst st3.
  cbn [sourcesRef set_errors]. rewrite Hsrc, elements_empty.
  cbn [forEach_stop]. f_equal.
  apply sources_already_empty; [exact Hsrc|exact Hsess].
Qed.

Lemma X14_teardown_idempotent_witness :
  let st := run [Click; ConnectResolved 0; MicGranted] initial in
  exists st1,
    stopSession st = Returns st1
    /\ stopSession st1
       = Returns (set_errors
                    (errors st1 ++ [InvalidStateError] ++ [InvalidStateError])
                    st1).
Proof.
  intros st. eexists. split; [vm_compute; reflexivity|].
  match goal with
  | |- stopSession ?s = _ =>
      exact (X14_teardown_idempotent st s ltac:(vm_compute; reflexivity))
  end.
Defined.

(** ** Failed starts and the next click *)

Lemma sources_started_fields (st st' : App) :
  nodes st' = nodes st -> sourcesRef st' = sourcesRef st ->
  sources_started st -> sources_started st'.
Proof. intros Hn Hs H s. rewrite Hn, Hs. apply H. Qed.

Lemma insert_last {A : Type} (l : list A) (x y : A) :
  <[ length l := y ]> (l ++ [x]) = l ++ [y].
Proof.
  rewrite <- (Nat.add_0_r (length l)) at 1. now rewrite insert_app_r.
Qed.

(** X15. A refused microphone leaves the session open, and the next click
    is what closes it: from a state at rest, after a click, a successful
    connection, a refused microphone and a second click, the connection is
    closed, no session is stored and the control is ready for a new
    start. *)
Theorem X15_click_after_refused_microphone (st : App) :
  sources_started st ->
  sessionRef st = None -> isLoading st = false -> isRecording st = false ->
  let t := length (transports st) in
  let st' := run [Click; ConnectResolved t; MicDenied; Click] st in
  transports st' = transports st ++ [Closed]
  /\ sessionRef st' = None
  /\ isRecording st' = false
  /\ isLoading st' = false.
Proof.
  intros Hstarted Hsess Hload Hrec t st'. subst st' t.
  set (t := length (transports st)).
  change (run [Click; ConnectResolved t; MicDenied; Click] st)
    with (step Click
            (step MicDenied (step (ConnectResolved t) (step Click st)))).
  set (st1 := step Click st).
  assert (st1 = set_transports (transports st ++ [Opening])
                  (setIsLoading true (setStatus "Connecting to AI..." st)))
    as Hst1.
  { unfold st1. cbn [step]. unfold click, toggleRecording, startSession.
    now rewrite Hload, Hrec, Hsess. }
  clearbody st1. subst st1.
  set (st2 := step (ConnectResolved t) _).
  assert (st2 = startSession_connected t
                  (onopen
                     (set_transports (transports st ++ [Open])
                        (setIsLoading true
                           (setStatus "Connecting to AI..." st))))) as Hst2.
  { unfold st2, t. cbn [step set_transports transports].
    rewrite list_lookup_middle by reflexivity.
    rewrite insert_last. reflexivity. }
  clearbody st2. subst st2.
  set (st3 := step MicDenied _).
  assert (transports st3 = transports st ++ [Open]
          /\ sessionRef st3 = Some t
          /\ isLoading st3 = false /\ isRecording st3 = true
          /\ nodes st3 = nodes st /\ sourcesRef st3 = sourcesRef st)
    as (Htr & Hs3 & Hl3 & Hr3 & Hn3 & Hsrc3).
  { unfold st3. cbn. repeat split. }
  clearbody st3.
  cbn [step]. unfold click, toggleRecording. rewrite Hl3, Hr3.
  destruct (stopSession_started st3
              (sources_started_fields st st3 Hn3 Hsrc3 Hstarted))
    as (st4 & Hst4 & _).
  rewrite Hst4. cbn [settle].
  destruct (stopSession_released st3 st4 Hst4)
    as ((Hrec4 & _ & _ & Hsess4) & _ & _ & _ & Htr4).
  rewrite Htr4, Hs3, Htr. unfold t.
  rewrite insert_last.
  pose proof (stopSession_keeps isLoading ltac:(reflexivity)
                ltac:(reflexivity) ltac:(reflexivity) ltac:(reflexivity)
                ltac:(reflexivity) ltac:(reflexivity) ltac:(reflexivity)
                ltac:(reflexivity) ltac:(reflexivity) st3) as Hl4.
  rewrite Hst4 in Hl4. cbn [settle] in Hl4.
  repeat split; congruence.
Qed.

Lemma X15_click_after_refused_microphone_witness :
  let st' := run [Click; ConnectResolved 0; MicDenied; Click] initial in
  transports st' = [] ++ [Closed]
  /\ sessionRef st' = None
  /\ isRecording st' = false
  /\ isLoading st' = false.
Proof.
  exact (X15_click_after_refused_microphone initial
           initial_sources_started eq_refl eq_refl eq_refl).
Defined.

(** X16. A refused connection is reported with the status
    "Microphone access denied" and leaves the control ready: the next
    click opens a new connection. *)
Theorem X16_click_after_refused_connection (st : App) :
  sessionRef st = None -> isLoading st = false -> isRecording st = false ->
  let t := length (transports st) in
  let refused := run [Click; ConnectRejected t] st in
  let st' := step Click refused in
  (status refused = "Microphone access denied"%string
   /\ isLoading refused = false
   /\ transports refused = transports st ++ [Failed])
  /\ transports st' = transports st ++ [Failed; Opening]
  /\ isLoading st' = true
  /\ status st' = "Connecting to AI..."%string.
Proof.
  intros Hsess Hload Hrec t refused st'. subst t.
  assert (refused
          = startSession_catch
              (set_transports (transports st ++ [Failed])
                 (setIsLoading true (setStatus "Connecting to AI..." st))))
    as Href.
  { unfold refused.
    change (run [Click; ConnectRejected (length (transports st))] st)
      with (step (ConnectRejected (length (transports st))) (step Click st)).
    assert (step Click st
            = set_transports (transports st ++ [Opening])
                (setIsLoading true (setStatus "Connecting to AI..." st)))
      as ->.
    { cbn [step]. unfold click, toggleRecording, startSession.
      now rewrite Hload, Hrec, Hsess. }
    cbn [step set_transports transports].
    rewrite list_lookup_middle by reflexivity.
    rewrite insert_last. reflexivity. }
  subst st'. clearbody refused. subst refused.
  split; [repeat split|].
  cbn [step]. unfold click, toggleRecording, startSession. cbn.
  rewrite Hrec, Hsess. cbn. rewrite <- app_assoc. repeat split.
Qed.

Lemma X16_click_after_refused_connection_witness :
  let refused := run [Click; ConnectRejected 0] initial in
  let st' := step Click refused in
  (status refused = "Microphone access denied"%string
   /\ isLoading refused = false
   /\ transports refused = [] ++ [Failed])
  /\ transports st' = [] ++ [Failed; Opening]
  /\ isLoading st' = true
  /\ status st' = "Connecting to AI..."%string.
Proof.
  exact (X16_click_after_refused_connection initial eq_refl eq_refl eq_refl).
Defined.

(** ** The response extractor, further *)

Lemma longest_closed_prefix_app (b c : js_string) :
  ~ In 125%N c ->
  longest_closed_prefix (b ++ 125%N :: c) = Some (b ++ [125%N]).
Proof.
  intros Hc. induction b as [|x b IH]; cbn.
  - apply longest_closed_prefix_None in Hc. now rewrite Hc.
  - now rewrite IH.
Qed.

Lemma match_json_block_at (a b c : js_string) :
  ~ In 123%N a -> ~ In 125%N c ->
  match_json_block (a ++ 123%N :: b ++ 125%N :: c)
  = Some (123%N :: b ++ [125%N]).
Proof.
  intros Ha Hc. induction a as [|x a IH]; cbn.
  - now rewrite longest_closed_prefix_app.
  - destruct (N.eqb_spec x 123) as [->|Hx].
    + exfalso. apply Ha. now left.
    + apply IH. intros H. apply Ha. now right.
Qed.

(** X17. Only the span from the first opening brace to the last closing
    brace counts: the text before and after it has no effect on what the
    extractor does, so the spoken part of such a reply never reaches the
    log. *)
Theorem X17_text_around_span_ignored
  (a b c : js_string) (now : Z) (st : App) :
  ~ In 123%N a -> ~ In 125%N c ->
  let block := 123%N :: b ++ [125%N] in
  match_json_block (a ++ block ++ c) = Some block
  /\ processResponse (a ++ block ++ c) now st = processResponse block now st.
Proof.
  intros Ha Hc block.
  assert (match_json_block (a ++ block ++ c) = Some block) as Hfull.
  { unfold block. cbn [app]. rewrite <- app_assoc. cbn [app].
    now apply match_json_block_at. }
  assert (match_json_block block = Some block) as Hblock.
  { pose proof (match_json_block_at [] b [] ltac:(tauto) ltac:(tauto)) as H.
    exact H. }
  split; [exact Hfull|].
  unfold processResponse. now rewrite Hfull, Hblock.
Qed.

Lemma X17_text_around_span_ignored_witness :
  processResponse (lit "Up 5%. " ++ (123%N :: lit "oops" ++ [125%N])
                   ++ lit " Bye.") 7 initial
  = processResponse (123%N :: lit "oops" ++ [125%N]) 7 initial.
Proof.
  exact (proj2 (X17_text_around_span_ignored
                  (lit "Up 5%. ") (lit "oops") (lit " Bye.") 7%Z initial
                  ltac:(cbn; lia) ltac:(cbn; lia))).
Defined.

Lemma processResponse_result (text : js_string) (now : Z) (st : App) :
  let st' := processResponse text now st in
  lastResponse st' = lastResponse st
  \/ exists fields,
       lastResponse st' = Some (JObj fields)
       /\ history st'
          = {| role := assistant;
               content := last_member (lit "insight") fields;
               timestamp := now |} :: history st
       /\ status st' = "Analysis complete"%string.
Proof.
  intros st'. subst st'. unfold processResponse.
  destruct (match_json_block text) as [block|] eqn:Hblock;
    [|left; reflexivity].
  destruct (JSON.parse block) as [parsed|e] eqn:Hparsed;
    [|left; reflexivity].
  destruct (matched_block_object text block parsed Hblock Hparsed)
    as (fields & ->).
  right. exists fields. repeat split.
Qed.

(** X18. Whenever a call of the extractor changes the displayed result,
    the new result is a JSON object, the log receives one assistant
    message carrying the [insight] member of that object, and the status
    reads "Analysis complete". *)
Theorem X18_stored_result_is_object (text : js_string) (now : Z) (st : App) :
  let st' := processResponse text now st in
  lastResponse st' = lastResponse st
  \/ exists fields,
       lastResponse st' = Some (JObj fields)
       /\ history st'
          = {| role := assistant;
               content := last_member (lit "insight") fields;
               timestamp := now |} :: history st
       /\ status st' = "Analysis complete"%string.
Proof. exact (processResponse_result text now st). Qed.

Lemma run_app (trace1 trace2 : list event) (st : App) :
  run (trace1 ++ trace2) st = run trace2 (run trace1 st).
Proof. apply fold_left_app. Qed.

(** X19. The log is newest first: a series of replies without a
    brace-delimited span ends up in the log in the reverse of the order of
    the calls, in front of what was there. *)
Theorem X19_replies_newest_first (rs : list (js_string * Z)) (st : App) :
  Forall (fun r => ~ has_brace_span (fst r)) rs ->
  history (run (reply_events rs) st)
  = rev (map plain_message rs) ++ history st.
Proof.
  intros Hrs. revert st. induction Hrs as [|r rs Hr _ IH]; intros st.
  - reflexivity.
  - change (run (reply_events (r :: rs)) st)
      with (run (reply_events rs) (processResponse (fst r) (snd r) st)).
    rewrite IH. cbn [map rev]. rewrite <- app_assoc. cbn [app]. f_equal.
    unfold processResponse.
    apply match_json_block_None in Hr. now rewrite Hr.
Qed.

Lemma X19_replies_newest_first_witness :
  history (run (reply_events [(lit "one", 1%Z); (lit "two", 2%Z)]) initial)
  = rev (map plain_message [(lit "one", 1%Z); (lit "two", 2%Z)]) ++ [].
Proof.
  apply (X19_replies_newest_first [(lit "one", 1%Z); (lit "two", 2%Z)]
           initial).
  repeat constructor; apply match_json_block_None; reflexivity.
Defined.

(** ** The displayed result *)

Lemma is_string_true (s : js_string) (v : option json) :
  is_string s v = true <-> v = Some (JStr s).
Proof.
  unfold is_string. destruct v as [[| | |s'| |]|]; try (split; discriminate).
  rewrite bool_decide_eq_true. split; [now intros ->|now intros [= ->]].
Qed.

Lemma is_string_false (s : js_string) (v : option json) :
  v <> Some (JStr s) -> is_string s v = false.
Proof.
  intros H. destruct (is_string s v) eqn:E; [|reflexivity].
  now apply is_string_true in E.
Qed.

(** X20. [renderChart] falls back to a bar chart for every type other than
    "line", "area" and "pie", a missing type included, and it fails in one
    case only: a pie chart whose data is not an array. *)
Theorem X20_renderChart_cases (type data : option json) :
  (renderChart type data = None
   <-> type = Some (JStr (lit "pie"))
       /\ ~ exists items, data = Some (JArr items))
  /\ (type <> Some (JStr (lit "line")) ->
      type <> Some (JStr (lit "area")) ->
      type <> Some (JStr (lit "pie")) ->
      renderChart type data = Some (BarChart data)).
Proof.
  unfold renderChart. split.
  - destruct (is_string (lit "line") type) eqn:Hl.
    { apply is_string_true in Hl. subst type.
      split; [discriminate|]. intros [[=] _]. }
    destruct (is_string (lit "area") type) eqn:Ha.
    { apply is_string_true in Ha. subst type.
      split; [discriminate|]. intros [[=] _]. }
    destruct (is_string (lit "pie") type) eqn:Hp.
    + apply is_string_true in Hp. subst type.
      destruct data as [[| | | |items|]|];
        try (split; [intros _; split; [reflexivity|];
                     intros (items' & [=])
                    |reflexivity]).
      split; [discriminate|]. intros [_ H]. destruct H. eauto.
    + split; [discriminate|]. intros [-> _]. discriminate.
  - intros Hl Ha Hp.
    now rewrite (is_string_false _ _ Hl), (is_string_false _ _ Ha),
      (is_string_false _ _ Hp).
Qed.

Lemma X20_renderChart_cases_witness :
  renderChart (Some (JStr (lit "scatter"))) None = Some (BarChart None)
  /\ renderChart None (Some (JArr [])) = Some (BarChart (Some (JArr []))).
Proof.
  split.
  - exact (proj2 (X20_renderChart_cases (Some (JStr (lit "scatter"))) None)
             ltac:(discriminate) ltac:(discriminate) ltac:(discriminate)).
  - exact (proj2 (X20_renderChart_cases None (Some (JArr [])))
             ltac:(discriminate) ltac:(discriminate) ltac:(discriminate)).
Defined.

Lemma colour_defined (i : nat) :
  exists colour, COLORS !! (i mod length COLORS) = Some colour.
Proof.
  apply lookup_lt_is_Some_2. apply Nat.mod_upper_bound. discriminate.
Qed.

Lemma colours_next_differ (i : nat) :
  COLORS !! (i mod length COLORS) <> COLORS !! (S i mod length COLORS).
Proof.
  change (length COLORS) with 6.
  assert (i mod 6 < 6) as Hk by (apply Nat.mod_upper_bound; discriminate).
  change (S i) with (1 + i). rewrite Nat.Div0.add_mod.
  destruct (i mod 6) as [|[|[|[|[|[|k]]]]]]; try discriminate. lia.
Qed.

(** X21. A pie chart gets one cell per data point; every cell has one of
    the six colours (never an undefined one), a cell and the next never
    share a colour, and the colours repeat every six cells. *)
Theorem X21_pie_cells (items : list json) :
  exists cells,
    renderChart (Some (JStr (lit "pie"))) (Some (JArr items))
    = Some (PieChart (Some (JArr items)) cells)
    /\ length cells = length items
    /\ (forall i, i < length items ->
          exists colour, cells !! i = Some (Some colour) /\ In colour COLORS)
    /\ (forall i, S i < length items -> cells !! i <> cells !! S i)
    /\ (forall i, i + 6 < length items -> cells !! (i + 6) = cells !! i).
Proof.
  eexists. split; [reflexivity|].
  split; [apply length_imap|].
  assert (forall i, i < length items ->
            imap (fun index (_ : json) =>
                    COLORS !! (index mod length COLORS)) items !! i
            = Some (COLORS !! (i mod length COLORS))) as Hcell.
  { intros i Hi. rewrite list_lookup_imap.
    destruct (lookup_lt_is_Some_2 items i Hi) as [x ->]. reflexivity. }
  split; [|split].
  - intros i Hi. rewrite (Hcell i Hi).
    destruct (colour_defined i) as [colour Hc]. exists colour.
    rewrite Hc. split; [reflexivity|].
    apply list_elem_of_In. eapply list_elem_of_lookup_2, Hc.
  - intros i Hi. rewrite (Hcell i) by lia. rewrite (Hcell (S i) Hi).
    intros [= H]. exact (colours_next_differ i H).
  - intros i Hi. rewrite (Hcell (i + 6) Hi), (Hcell i) by lia.
    change (length COLORS) with 6.
    replace (i + 6) with (i + 1 * 6) by lia.
    now rewrite Nat.Div0.mod_add.
Qed.

Lemma last_member_snoc (name k : js_string) (v : json)
  (fields : list (js_string * json)) :
  last_member name (fields ++ [(k, v)])
  = if bool_decide (k = name) then Some v else last_member name fields.
Proof.
  induction fields as [|[k' v'] fields IH]; cbn.
  - now destruct (bool_decide (k = name)).
  - rewrite IH. now destruct (bool_decide (k = name)).
Qed.

(** X22. A chart type button replaces the chart type of the displayed
    object and keeps every other member, so that the panel shows the chart
    of the selected type on the same data; the log is not touched. *)
Theorem X22_selectChartType (t : js_string) (st : App)
  (fields : list (js_string * json)) :
  lastResponse st = Some (JObj fields) ->
  let st' := selectChartType t st in
  (exists fields',
      lastResponse st' = Some (JObj fields')
      /\ last_member (lit "chartType") fields' = Some (JStr t)
      /\ forall name, name <> lit "chartType" ->
           last_member name fields' = last_member name fields)
  /\ displayed_chart st'
     = Some (renderChart (Some (JStr t)) (last_member (lit "data") fields))
  /\ history st' = history st.
Proof.
  intros Hr st'. subst st'. unfold selectChartType, displayed_chart.
  rewrite Hr. cbn [truthy own_properties lastResponse setLastResponse
                   history get_property].
  split; [|split; [|reflexivity]].
  - eexists. split; [reflexivity|]. split.
    + rewrite last_member_snoc. now rewrite bool_decide_eq_true_2.
    + intros name Hname. rewrite last_member_snoc.
      rewrite bool_decide_eq_false_2; [reflexivity|congruence].
  - rewrite !last_member_snoc.
    rewrite bool_decide_eq_true_2 by reflexivity.
    rewrite bool_decide_eq_false_2 by discriminate. reflexivity.
Qed.

Lemma X22_selectChartType_witness :
  let st' := selectChartType (lit "pie") (mount initial) in
  (exists fields',
      lastResponse st' = Some (JObj fields')
      /\ last_member (lit "chartType") fields' = Some (JStr (lit "pie"))
      /\ forall name, name <> lit "chartType" ->
           last_member name fields'
           = get_property sample_response name)
  /\ displayed_chart st'
     = Some (renderChart (Some (JStr (lit "pie")))
               (get_property sample_response (lit "data")))
  /\ history st' = [].
Proof.
  exact (X22_selectChartType (lit "pie") (mount initial) _ eq_refl).
Defined.

Lemma ui_step_display (e : ui_event) (st : App) :
  display_invariant st -> display_invariant (ui_step e st).
Proof.
  intros [Hr Hh]. destruct e as [e| |t]; cbn [ui_step].
  - destruct e as [| | |text date|t|t| | |clock message| | |inputData|source];
      try (match goal with
           | |- display_invariant (step ?e _) =>
               destruct (step_log e st ltac:(intros [])) as [Hh' Hr']
           end; unfold display_invariant; rewrite Hh', Hr';
           split; assumption).
    cbn [step]. unfold display_invariant, processResponse.
    destruct (match_json_block text) as [block|] eqn:Hblock.
    + destruct (JSON.parse block) as [parsed|err] eqn:Hparsed.
      * destruct (matched_block_object text block parsed Hblock Hparsed)
          as (fields & ->).
        cbn. split; [right; eauto|]. constructor; [reflexivity|exact Hh].
      * split; assumption.
    + cbn. split; [exact Hr|]. constructor; [reflexivity|exact Hh].
  - split; [right; unfold mount, sample_response; cbn; eauto|exact Hh].
  - unfold selectChartType.
    destruct (lastResponse st) as [r|] eqn:Hlast; [|split; [now left|exact Hh]].
    destruct (truthy r); [|split; [rewrite Hlast; exact Hr|exact Hh]].
    split; [right; cbn; eauto|exact Hh].
Qed.

(** X23. Whatever happens to the component (session events, calls of the
    extractor, the mount effect, chart type buttons), the displayed result
    is absent or a JSON object, and every message in the log is an
    assistant message: what the user said is never logged. *)
Theorem X23_display_invariant (trace : list ui_event) :
  display_invariant (ui_run trace initial).
Proof.
  assert (forall st, display_invariant st ->
                     display_invariant (ui_run trace st)) as H.
  { induction trace as [|e trace IH]; intros st Hst; [exact Hst|].
    apply (IH (ui_step e st)), ui_step_display, Hst. }
  apply H. split; [now left|constructor].
Qed.

(** ** Size of a payload *)

Lemma length_encode_groups (b : list N) :
  length (Base64.encode_groups b) = 4 * ((length b + 2) / 3).
Proof.
  unfold Base64.encode_groups. rewrite length_app, length_map.
  induction b as [|x|x y|x y z l IH] using list_ind3; try reflexivity.
  cbn [Base64.sextets Base64.padding length].
  replace (S (S (S (length l))) + 2) with (1 * 3 + (length l + 2)) by lia.
  rewrite Nat.div_add_l by lia. lia.
Qed.

(** X24. The text [encode] produces has four characters for every three
    bytes, the last group being padded: its length is four times the
    number of bytes divided by three and rounded up. *)
Theorem X24_encode_length (bytes : list byte) :
  exists data,
    encode bytes = Ok data
    /\ length data = 4 * ((length bytes + 2) / 3).
Proof.
  exists (Base64.encode_groups (map fromCharCode bytes)).
  unfold encode. rewrite fold_left_snoc. cbn [app].
  destruct (Base64Facts.atob_btoa _ (binary_string_bytes bytes)) as [-> _].
  split; [reflexivity|].
  now rewrite length_encode_groups, length_map.
Qed.

(** ** The control and the session *)

Lemma step_control (e : event) (st : App) :
  sources_started st -> control_invariant st ->
  control_invariant (step e st).
Proof.
  intros Hstarted (Hrec & Hopen & Hload).
  assert (forall st0,
             sources_started st0 ->
             (forall t, sessionRef st0 = Some t ->
                        transports st0 !! t = Some Open) ->
             (isLoading st0 = true ->
              exists t, transports st0 !! t = Some Opening) ->
             control_invariant (settle (stopSession st0))) as Hstop.
  { intros st0 Hs0 Ho0 Hl0.
    destruct (stopSession_started st0 Hs0) as (st1 & Hst1 & _).
    pose proof (stopSession_keeps isLoading ltac:(reflexivity)
                  ltac:(reflexivity) ltac:(reflexivity) ltac:(reflexivity)
                  ltac:(reflexivity) ltac:(reflexivity) ltac:(reflexivity)
                  ltac:(reflexivity) ltac:(reflexivity) st0) as Hl1.
    rewrite Hst1 in Hl1 |- *. cbn [settle] in Hl1 |- *.
    destruct (stopSession_released st0 st1 Hst1)
      as ((Hr1 & _ & _ & Hs1) & _ & _ & _ & Htr1).
    split; [|split].
    - rewrite Hr1, Hs1. split; [discriminate|congruence].
    - intros t. rewrite Hs1. discriminate.
    - rewrite Hl1. intros Hl. destruct (Hl0 Hl) as (t & Ht).
      exists t. rewrite Htr1.
      destruct (sessionRef st0) as [t'|] eqn:Hs; [|exact Ht].
      rewrite list_lookup_insert_ne; [exact Ht|].
      intros ->. rewrite (Ho0 t eq_refl) in Ht. discriminate. }
  assert (control_invariant
            (set_transports (transports st ++ [Opening])
               (setIsLoading true (setStatus "Connecting to AI..." st))))
    as Hstart.
  { split; [exact Hrec|]. split.
    - intros t Ht. cbn. apply lookup_app_l_Some, Hopen, Ht.
    - intros _. exists (length (transports st)). cbn.
      now apply list_lookup_middle. }
  assert (forall st',
             isRecording st' = isRecording st ->
             sessionRef st' = sessionRef st ->
             transports st' = transports st ->
             isLoading st' = isLoading st ->
             control_invariant st') as Hsame.
  { intros st' E1 E2 E3 E4. unfold control_invariant.
    rewrite E1, E2, E3, E4. repeat split; try apply Hrec; assumption. }
  destruct e as [| | |text date|t|t| | |clock message| | |inputData|source];
    cbn [step].
  - unfold click, toggleRecording, startSession.
    destruct (isLoading st) eqn:El; [apply Hsame; auto|].
    destruct (isRecording st) eqn:Er.
    { apply Hstop; [exact Hstarted|exact Hopen|]. intros H. congruence. }
    destruct (sessionRef st) eqn:Es; [apply Hsame; auto|exact Hstart].
  - unfold startSession.
    destruct (sessionRef st) eqn:Es; [apply Hsame; auto|exact Hstart].
  - apply Hstop; assumption.
  - unfold processResponse.
    destruct (match_json_block text); [|now apply Hsame].
    destruct (JSON.parse _); now apply Hsame.
  - destruct (transports st !! t) as [[| | |]|] eqn:Ht;
      try now apply Hsame.
    split; [|split].
    + cbn. split; [discriminate|reflexivity].
    + cbn. intros t' [= <-]. apply list_lookup_insert_eq.
      eapply lookup_lt_Some, Ht.
    + cbn. discriminate.
  - destruct (transports st !! t) as [[| | |]|] eqn:Ht;
      try now apply Hsame.
    split; [exact Hrec|]. split.
    + cbn. intros t' Ht'. rewrite list_lookup_insert_ne; [now apply Hopen|].
      intros ->. rewrite (Hopen t' Ht') in Ht. discriminate.
    + cbn. discriminate.
  - destruct (micPending st); now apply Hsame.
  - destruct (micPending st); [now apply Hsame|].
    split; [exact Hrec|]. split; [exact Hopen|]. cbn. discriminate.
  - unfold onmessage.
    destruct (audioData message) as [[|c data]|]; try now apply Hsame.
    destruct (outputAudioContextRef st); [|now apply Hsame].
    destruct (bind _ _); now apply Hsame.
  - unfold onerror. apply Hstop; [|exact Hopen|exact Hload].
    revert Hstarted. now apply sources_started_fields.
  - unfold onclose. apply Hstop; [|exact Hopen|exact Hload].
    revert Hstarted. now apply sources_started_fields.
  - destruct (scriptProcessorRef st) as [p|]; [|now apply Hsame].
    destruct (processors st !! p) as [[|]|]; try now apply Hsame.
    unfold onaudioprocess.
    destruct (encode _); [|now apply Hsame].
    destruct (sessionRef st) eqn:Es; apply Hsame; auto.
  - now apply Hsame.
Qed.

(** X25. In every state the component can reach, recording is shown
    exactly while a session is stored, the stored session is an open
    connection, and the control is disabled only while some connection is
    still being opened. *)
Theorem X25_control_invariant (trace : list event) :
  control_invariant (run trace initial).
Proof.
  assert (forall st, sources_started st -> control_invariant st ->
                     control_invariant (run trace st)) as H.
  { induction trace as [|e trace IH]; intros st Hs Hc; [exact Hc|].
    apply (IH (step e st)).
    - now apply step_sources_started.
    - now apply step_control. }
  apply H; [exact initial_sources_started|].
  split; [|split]; cbn; try discriminate.
  split; [discriminate|congruence].
Qed.

(** ** The guard of [startSession] *)



(** The control does not cover the whole time a connection is being
    opened.  The answer of the microphone to a session that was stopped
    meanwhile clears [isLoading] while the next connection is still
    opening, and a click then opens another one. *)
Lemma late_microphone_answer_enables_control :
  let st := run [Click; ConnectResolved 0; Click; Click; MicDenied] initial in
  transports st = [Closed; Opening]
  /\ isLoading st = false
  /\ sessionRef st = None
  /\ transports (click st) = [Closed; Opening; Opening].
Proof. vm_compute. repeat split. Qed.


